(** * simplesearch: typo-tolerant search over a trie

    A shallow embedding of [simplesearch.py] (classes [Node], [Trie] and
    [Index]) together with the properties of the fuzzy search that its
    specification states.

    Conventions of the embedding
    - a Python [str] is a list of characters; a character is a code point
      below 256 (Latin-1), which is what [ascii] holds.  On that range
      [str.lower] maps one code point to one code point and never turns a
      non-ASCII character into an ASCII one.  Strings with other code
      points are outside the model: there [str.lower] can write two
      characters for one (U+0130) or an ASCII letter for a character that
      is not ASCII (U+212A).  What is stated of the length of a normalised
      string, or of the fate of one character, is stated of Latin-1
      strings only;
    - a Python [int] is a [Z];
    - [Node] objects live in a store (a list indexed by address); a reference
      to a node is its address, a fresh object is appended at the end;
    - a raised exception is a value of [result]; the [while] loop of
      [fuzzySearch] takes fuel, and running out of it is [OutOfFuel]. *)

From Stdlib Require Import ZArith Ascii String Lia.
From stdpp Require Import gmap strings list sets.

Local Open Scope Z_scope.

Abbreviation str := (list ascii).

(** A string literal as a [str]. *)
Definition s_ (x : string) : str := list_ascii_of_string x.

(** ** Exceptions and results *)

Inductive exn :=
| TypeError    (* subscripting [None] *)
| IndexError   (* sequence index out of range *)
| ValueError   (* [min] of an empty sequence *)
| BadRef.      (* an address outside the store: not a Python exception,
                  unreachable for a store built by this module *)

Inductive result (A : Type) :=
| Ok (a : A)
| Raise (e : exn)
| OutOfFuel.
Arguments Ok {A} a.
Arguments Raise {A} e.
Arguments OutOfFuel {A}.

#[global] Instance result_ret : MRet result := @Ok.
#[global] Instance result_bind : MBind result := fun A B f m =>
  match m with
  | Ok a => f a
  | Raise e => Raise e
  | OutOfFuel => OutOfFuel
  end.

(** ** The Python built-ins that the module uses *)
Module Py.

Definition code (c : ascii) : N := N_of_ascii c.

(** [len(s)] *)
Definition len {A} (l : list A) : Z := Z.of_nat (length l).

(** [s[i]] on a list or a string: a negative index counts from the end,
    an index out of range raises [IndexError]. *)
Definition getitem {A} (l : list A) (i : Z) : result A :=
  let j := if decide (i < 0) then i + len l else i in
  if decide (j < 0) then Raise IndexError
  else match l !! Z.to_nat j with
       | Some x => Ok x
       | None => Raise IndexError
       end.

(** [o[i]] where [o] may be [None]. *)
Definition subscript {A} (o : option (list A)) (i : Z) : result A :=
  match o with
  | None => Raise TypeError
  | Some l => getitem l i
  end.

(** [l[i] = v] *)
Definition setitem {A} (l : list A) (i : Z) (v : A) : result (list A) :=
  let j := if decide (i < 0) then i + len l else i in
  if decide (0 <= j < len l) then Ok (<[Z.to_nat j := v]> l)
  else Raise IndexError.

(** [range(a, b)] as the sequence of its elements, and [range(b)]. *)
Definition range2 (a b : Z) : list Z := seqZ a (b - a).
Definition range (b : Z) : list Z := range2 0 b.

(** [min(l)] of a sequence. *)
Definition min_seq (l : list Z) : result Z :=
  match l with
  | [] => Raise ValueError
  | x :: l' => Ok (foldl Z.min x l')
  end.

(** [min(a, b, c)] *)
Definition min3 (a b c : Z) : Z := Z.min a (Z.min b c).

(** [[v] * k] *)
Definition repeat_list {A} (v : A) (k : Z) : list A := replicate (Z.to_nat k) v.

(** [for x in l: body], threading the loop's state, in [result]. *)
Fixpoint for_each {A S} (l : list A) (body : S → A → result S) (st : S)
  : result S :=
  match l with
  | [] => Ok st
  | x :: l' => st' ← body st x; for_each l' body st'
  end.

(** [str.lower] on Latin-1: A-Z, and the upper-case letters U+00C0 to
    U+00DE (but the multiplication sign U+00D7), move up by 32. *)
Definition lower_char (c : ascii) : ascii :=
  let k := code c in
  if ((65 <=? k) && (k <=? 90) ||
      (192 <=? k) && (k <=? 222) && negb (k =? 215))%N
  then ascii_of_N (k + 32) else c.
Definition lower (s : str) : str := lower_char <$> s.

(** [string.punctuation] *)
Definition punctuation : str :=
  s_ "!" ++ [ascii_of_N 34] ++ s_ "#$%&'()*+,-./:;<=>?@[\]^_`{|}~".

(** [s.translate(str.maketrans('', '', deleted))] *)
Definition translate_delete (deleted : str) (s : str) : str :=
  filter (λ c, c ∉ deleted) s.

(** [s.encode('ascii', 'replace').decode()] *)
Definition ascii_replace_char (c : ascii) : ascii :=
  if (code c <? 128)%N then c else "?"%char.
Definition encode_ascii_replace_decode (s : str) : str :=
  ascii_replace_char <$> s.

(** The characters [str.split()] splits on, below 256. *)
Definition isspace (c : ascii) : bool :=
  let k := code c in
  ((9 <=? k) && (k <=? 13) || (28 <=? k) && (k <=? 32) ||
   (k =? 133) || (k =? 160))%N.

(** [s.split()]: the maximal runs of non-space characters. [tok] is the
    run being read. *)
Fixpoint split_from (tok : str) (s : str) : list str :=
  match s with
  | [] => match tok with [] => [] | _ => [tok] end
  | c :: s' =>
      if isspace c
      then match tok with
           | [] => split_from [] s'
           | _ => tok :: split_from [] s'
           end
      else split_from (tok ++ [c]) s'
  end.
Definition split (s : str) : list str := split_from [] s.

End Py.

(** ** Levenshtein distance: the oracle

    [lev] is the textbook recursion (what the tests take from the
    [Levenshtein] package); [script]s are the edit scripts it minimises
    over. *)

Fixpoint lev (s t : str) : nat :=
  match s with
  | [] => length t
  | a :: s' =>
      (fix lev_s (t : str) : nat :=
         match t with
         | [] => length s
         | b :: t' =>
             if decide (a = b) then lev s' t'
             else S (Nat.min (lev s' t') (Nat.min (lev s' t) (lev_s t')))
         end) t
  end.

Inductive edit_op :=
| Keep (c : ascii)
| Subst (a b : ascii)
| Ins (b : ascii)
| Del (a : ascii).

Abbreviation script := (list edit_op).

Definition op_src (o : edit_op) : str :=
  match o with Keep c => [c] | Subst a _ => [a] | Ins _ => [] | Del a => [a] end.
Definition op_dst (o : edit_op) : str :=
  match o with Keep c => [c] | Subst _ b => [b] | Ins b => [b] | Del _ => [] end.
Definition op_cost (o : edit_op) : nat :=
  match o with Keep _ => 0 | _ => 1 end.

Definition src (e : script) : str := e ≫= op_src.
Definition dst (e : script) : str := e ≫= op_dst.
Definition cost (e : script) : nat := sum_list_with op_cost e.


(** ** simplesearch.py *)

(** [class Node]: [word], [parent], [children], [dists], [is_word].
    [children] is a dict from a character to a node; it is kept as the list
    of its items in insertion order, which is the order [values()] yields. *)
Record Node := mkNode {
  word : str;
  parent : option nat;
  children : list (ascii * nat);
  dists : option (list Z);
  is_word : bool;
}.

(** [Node(word, parent)] *)
Definition Node_init (word : str) (parent : option nat) : Node :=
  mkNode word parent [] None false.

Definition set_children (nd : Node) (cs : list (ascii * nat)) : Node :=
  mkNode (word nd) (parent nd) cs (dists nd) (is_word nd).
Definition set_dists (nd : Node) (d : option (list Z)) : Node :=
  mkNode (word nd) (parent nd) (children nd) d (is_word nd).
Definition set_is_word (nd : Node) (b : bool) : Node :=
  mkNode (word nd) (parent nd) (children nd) (dists nd) b.

Abbreviation store := (list Node).

(** Reading the object at an address. *)
Definition deref (h : store) (a : nat) : result Node :=
  match h !! a with
  | Some nd => Ok nd
  | None => Raise BadRef
  end.

(** [d.get(k)] on the items of a dict. *)
Fixpoint dict_get (items : list (ascii * nat)) (k : ascii) : option nat :=
  match items with
  | [] => None
  | (k', v) :: items' => if decide (k' = k) then Some v else dict_get items' k
  end.

(** [d.values()] *)
Definition dict_values (items : list (ascii * nat)) : list nat := items.*2.

(** [class Trie]: the [root] attribute and the store its nodes live in. *)
Record Trie := mkTrie {
  root : nat;
  nodes : store;
}.

(** [Trie()] *)
Definition Trie_init : Trie := mkTrie 0%nat [Node_init [] None].

(** [Trie.preprocess] *)
Definition preprocess (doc : str) : str :=
  Py.encode_ascii_replace_decode
    (Py.translate_delete Py.punctuation (Py.lower doc)).

(** [node.children.setdefault(char, Node(w, node))]: the child under [char]
    if there is one (the freshly built [Node] is then dropped), else a new
    node, stored under [char]. Returns the store and the child's address. *)
Definition setdefault_child (h : store) (node : nat) (char : ascii) (w : str)
  : result (store * nat) :=
  nd ← deref h node;
  match dict_get (children nd) char with
  | Some c => Ok (h, c)
  | None =>
      let c := length h in
      Ok (<[node := set_children nd (children nd ++ [(char, c)])]> h
            ++ [Node_init w (Some node)], c)
  end.

(** The loop of [Trie.insert]: [for i, char in enumerate(word)], from
    index [i] on, [rest] being the characters still to come. *)
Fixpoint insert_loop (word : str) (i : nat) (rest : str) (h : store)
    (node : nat) : result (store * nat) :=
  match rest with
  | [] => Ok (h, node)
  | char :: rest' =>
      '(h', node') ← setdefault_child h node char (take (S i) word);
      insert_loop word (S i) rest' h' node'
  end.

(** [Trie.insert] *)
Definition insert (t : Trie) (word : str) : result Trie :=
  let word := preprocess word in
  '(h, node) ← insert_loop word 0 word (nodes t) (root t);
  nd ← deref h node;
  Ok (mkTrie (root t) (<[node := set_is_word nd true]> h)).

(** One iteration of the [for] loop of [get_levenshtein_dists], for the
    node's [word] and its parent's [dists]. *)
Definition dists_step (query wd : str) (prev_dists : option (list Z))
    (dists : list Z) (i : Z) : result (list Z) :=
  qi ← Py.getitem query i;
  last ← Py.getitem wd (-1);
  v ← (if decide (qi = last) then Py.subscript prev_dists i
       else
         a ← Py.subscript prev_dists i;
         b ← Py.subscript prev_dists (i + 1);
         c ← Py.getitem dists i;
         Ok (1 + Py.min3 a b c));
  Py.setitem dists (i + 1) v.

(** The non-root branch of [get_levenshtein_dists]. *)
Definition dists_from_parent (query : str) (n : Z) (wd : str)
    (prev_dists : option (list Z)) : result (list Z) :=
  let dists := Py.repeat_list (n + 1) (Py.len query + 1) in
  dists ← Py.setitem dists 0 (Py.len wd);
  d0 ← Py.getitem dists 0;
  Py.for_each
    (Py.range2 (Z.max 0 (d0 - n - 1)) (Z.min (Py.len query) (d0 + n + 1)))
    (dists_step query wd prev_dists) dists.

(** [Trie.get_levenshtein_dists] *)
Definition get_levenshtein_dists (h : store) (node : Node) (query : str)
    (n : Z) : result (list Z) :=
  match parent node with
  | None => Ok (Py.range (Py.len query + 1))
  | Some p =>
      pn ← deref h p;
      dists_from_parent query n (word node) (dists pn)
  end.

(** The local variables of [fuzzySearch], with the store.  The head of
    [stack] is the top: [stack.pop()] takes the head and
    [stack.extend(l)] puts the elements of [l] in front, the last one on
    top.  The source tests [visited] and never adds a node to it. *)
Record frame := mkFrame {
  heap : store;
  stack : list nat;
  matching_set : gset str;
  visited : gset nat;
}.

Definition stack_extend (stack l : list nat) : list nat := rev l ++ stack.

(** What [fuzzySearch] does with a node it has popped and found not visited. *)
Definition visit (query : str) (n : Z) (node : nat) (h : store)
    (matching : gset str) : result (store * gset str * bool) :=
  nd ← deref h node;
  d ← get_levenshtein_dists h nd query n;
  let h' := <[node := set_dists nd (Some d)]> h in
  matching' ←
    (if is_word nd then
       last ← Py.getitem d (-1);
       Ok (if decide (last <= n) then matching ∪ {[word nd]} else matching)
     else Ok matching);
  m ← Py.min_seq d;
  Ok (h', matching', bool_decide (m <= n)).

(** The body of the [while] loop of [fuzzySearch]. *)
Definition fuzzySearch_body (query : str) (n : Z) (f : frame) : result frame :=
  match stack f with
  | [] => Raise IndexError
  | node :: stack' =>
      if decide (node ∈ visited f) then
        Ok (mkFrame (heap f) stack' (matching_set f) (visited f))
      else
        '(h', matching', expand) ← visit query n node (heap f) (matching_set f);
        nd ← deref h' node;
        let stack'' :=
          if expand : bool then stack_extend stack' (dict_values (children nd))
          else stack' in
        Ok (mkFrame h' stack'' matching' (visited f))
  end.

(** [while stack: ...] *)
Fixpoint fuzzySearch_loop (fuel : nat) (query : str) (n : Z) (f : frame)
  : result frame :=
  match stack f with
  | [] => Ok f
  | _ =>
      match fuel with
      | O => OutOfFuel
      | S fuel' =>
          f' ← fuzzySearch_body query n f;
          fuzzySearch_loop fuel' query n f'
      end
  end.

Definition fuzzySearch_start (t : Trie) : frame :=
  mkFrame (nodes t) [root t] ∅ ∅.

(** [Trie.fuzzySearch]: the matching set, and the trie with the [dists]
    the search has left on its nodes. *)
Definition fuzzySearch (fuel : nat) (t : Trie) (query : str) (n : Z)
  : result (gset str * Trie) :=
  let query := preprocess query in
  f ← fuzzySearch_loop fuel query n (fuzzySearch_start t);
  Ok (matching_set f, mkTrie (root t) (heap f)).

(** The iterations of the [while] loop one by one: the frame after [k]
    of them.  The node an iteration pops is the head of [stack]. *)
Fixpoint fuzzySearch_steps (k : nat) (query : str) (n : Z) (f : frame)
  : result frame :=
  match k with
  | O => Ok f
  | S k' =>
      f' ← fuzzySearch_steps k' query n f;
      fuzzySearch_body query n f'
  end.

(** The frame after [k] iterations of a search of [t], when there are
    that many. *)
Definition frame_after (k : nat) (t : Trie) (query : str) (n : Z) : frame :=
  match fuzzySearch_steps k (preprocess query) n (fuzzySearch_start t) with
  | Ok f => f
  | _ => fuzzySearch_start t
  end.

(** [for word in ws: trie.insert(word)], as the tests fill a trie. *)
Definition insert_all (t : Trie) (ws : list str) : result Trie :=
  Py.for_each ws insert t.

(** The trie of [test_fuzzy_search_smoke]. *)
Definition smoke_words : list str :=
  [s_ "Olivier"; s_ "Oliver"; s_ "Alivier"; s_ "aliver"].
Definition trie_of (ws : list str) : Trie :=
  match insert_all Trie_init ws with
  | Ok t => t
  | _ => Trie_init
  end.
Definition smoke_trie : Trie := trie_of smoke_words.

(** [class Index]: [trie] and [inverted_index], a
    [defaultdict(lambda: set())] from words to sets of documents. *)
Record Index := mkIndex {
  trie : Trie;
  inverted_index : gmap str (gset str);
}.

(** [d[k]] on a [defaultdict(lambda: set())]: a missing key is first
    stored with the empty set. Returns the dict and the value. *)
Definition defaultdict_getitem (d : gmap str (gset str)) (k : str)
  : gmap str (gset str) * gset str :=
  match d !! k with
  | Some v => (d, v)
  | None => (<[k := ∅]> d, ∅)
  end.

(** [inverted_index[word].add(doc)] *)
Definition inverted_index_add (d : gmap str (gset str)) (word doc : str)
  : gmap str (gset str) :=
  let '(d', v) := defaultdict_getitem d word in
  <[word := v ∪ {[doc]}]> d'.

(** The inner loop of [Index.__init__], for one document. *)
Definition Index_add_word (doc : str) (ix : Index) (word : str) : result Index :=
  t ← insert (trie ix) word;
  Ok (mkIndex t (inverted_index_add (inverted_index ix) word doc)).

Definition Index_add_doc (ix : Index) (doc : str) : result Index :=
  Py.for_each (Py.split (preprocess doc)) (Index_add_word doc) ix.

(** [Index(documents)] *)
Definition Index_init (documents : list str) : result Index :=
  Py.for_each documents Index_add_doc (mkIndex Trie_init ∅).

(** The comprehension of [Index.fuzzySearch] over the words in [ws]. *)
Definition collect_docs (d : gmap str (gset str)) (ws : list str)
  : gmap str (gset str) * gset str :=
  foldl (λ '(d, out) w,
           let '(d', docs) := defaultdict_getitem d w in (d', out ∪ docs))
        (d, ∅) ws.

(** [Index.fuzzySearch]: the documents, and the index as the call leaves it. *)
Definition Index_fuzzySearch (fuel : nat) (ix : Index) (query : str) (n : Z)
  : result (gset str * Index) :=
  '(ws, t) ← fuzzySearch fuel (trie ix) query n;
  let '(d, out) := collect_docs (inverted_index ix) (elements ws) in
  Ok (out, mkIndex t d).

(** The index of some documents, and two collections of documents: the
    one of the specification's scenario, and one document with a character
    outside ASCII (U+00E9, e with an acute accent). *)
Definition index_of (documents : list str) : Index :=
  match Index_init documents with
  | Ok ix => ix
  | _ => mkIndex Trie_init ∅
  end.
Definition pets : list str := [s_ "cat dog"; s_ "dog mouse"].
Definition cafe : str := s_ "caf" ++ [ascii_of_N 233].

(** The set a search returns, when it returns. *)
Definition returned {A} (r : result (gset str * A)) : option (gset str) :=
  match r with
  | Ok (found, _) => Some found
  | _ => None
  end.

(** ** test.py *)

(** [distance] of the [Levenshtein] package that the tests import: the
    Levenshtein distance. *)
Definition distance (a b : str) : Z := Z.of_nat (lev a b).

(** The body of the [while] loop of [trie_search_oracle]: every node is
    expanded, and no row is computed. *)
Definition trie_search_oracle_body (query : str) (n : Z) (f : frame)
  : result frame :=
  match stack f with
  | [] => Raise IndexError
  | node :: stack' =>
      if decide (node ∈ visited f) then
        Ok (mkFrame (heap f) stack' (matching_set f) (visited f))
      else
        nd ← deref (heap f) node;
        let matching' :=
          if is_word nd then
            if decide (distance (word nd) query <= n)
            then matching_set f ∪ {[word nd]}
            else matching_set f
          else matching_set f in
        Ok (mkFrame (heap f)
              (stack_extend stack' (dict_values (children nd)))
              matching' (visited f))
  end.

Fixpoint trie_search_oracle_loop (fuel : nat) (query : str) (n : Z)
    (f : frame) : result frame :=
  match stack f with
  | [] => Ok f
  | _ =>
      match fuel with
      | O => OutOfFuel
      | S fuel' =>
          f' ← trie_search_oracle_body query n f;
          trie_search_oracle_loop fuel' query n f'
      end
  end.

(** [trie_search_oracle] *)
Definition trie_search_oracle (fuel : nat) (t : Trie) (query : str) (n : Z)
  : result (gset str) :=
  let query := preprocess query in
  f ← trie_search_oracle_loop fuel query n (fuzzySearch_start t);
  Ok (matching_set f).

(** [index_search_oracle]: the documents, and the index as the lookups in
    its defaultdict leave it. *)
Definition index_search_oracle (fuel : nat) (ix : Index) (query : str)
    (n : Z) : result (gset str * Index) :=
  ws ← trie_search_oracle fuel (trie ix) query n;
  let '(d, out) := collect_docs (inverted_index ix) (elements ws) in
  Ok (out, mkIndex (trie ix) d).

(** [random_substitution], [random_insertion] and [random_deletion], the
    draws of [random.randint] and [random.choice] being the arguments
    [pos] and [c].  [random_substitution] slices the literal ["word"]. *)
Definition random_substitution (word : str) (pos : nat) (c : ascii) : str :=
  if decide (Py.len word = 0) then word
  else take pos (s_ "word") ++ [c] ++ drop (S pos) word.

Definition random_insertion (word : str) (pos : nat) (c : ascii) : str :=
  take pos word ++ [c] ++ drop pos word.

Definition random_deletion (word : str) (pos : nat) : str :=
  if decide (Py.len word = 0) then word
  else take pos word ++ drop (S pos) word.

(** The invariant of the loop of [trie_search_oracle] on the store [h0]. *)
Record oracle_inv (query : str) (n : Z) (h0 : store) (done : list nat)
    (f : frame) : Prop := mk_oracle_inv {
  oinv_heap : heap f = h0;
  oinv_visited : visited f = ∅;
  oinv_nodup : NoDup (stack f ++ done);
  oinv_root : 0%nat ∈ stack f ++ done;
  oinv_parent : ∀ x nd p,
    x ∈ stack f ++ done → h0 !! x = Some nd → parent nd = Some p → p ∈ done;
  oinv_valid : ∀ x, x ∈ stack f ++ done → is_Some (h0 !! x);
  oinv_closed : ∀ x nd c y,
    x ∈ done → h0 !! x = Some nd → (c, y) ∈ children nd →
    y ∈ stack f ++ done;
  oinv_matching : ∀ w,
    w ∈ matching_set f ↔
    ∃ x nd, x ∈ done ∧ h0 !! x = Some nd ∧ is_word nd = true ∧
            word nd = w ∧ Z.of_nat (lev w query) <= n;
}.

(** The indexes a program can get from [documents]: the index that
    [Index(documents)] builds, and an index after a call of
    [Index.fuzzySearch] or of [index_search_oracle], both of which may
    store keys in [inverted_index] and the first of which leaves rows on
    the trie. *)
Inductive index_state (documents : list str) : Index → Prop :=
| index_built ix :
    Index_init documents = Ok ix → index_state documents ix
| index_searched ix fuel query n r ix' :
    index_state documents ix →
    Index_fuzzySearch fuel ix query n = Ok (r, ix') →
    index_state documents ix'
| index_oracle_searched ix fuel query n r ix' :
    index_state documents ix →
    index_search_oracle fuel ix query n = Ok (r, ix') →
    index_state documents ix'.

(** The index and the trie that a search leaves. *)
Definition index_after (fuel : nat) (ix : Index) (query : str) (n : Z)
  : Index :=
  match Index_fuzzySearch fuel ix query n with
  | Ok (_, ix') => ix'
  | _ => ix
  end.
Definition trie_after (fuel : nat) (t : Trie) (query : str) (n : Z) : Trie :=
  match fuzzySearch fuel t query n with
  | Ok (_, t') => t'
  | _ => t
  end.

(** ** Traversal strategies

    The specification asks that the result does not depend on the order in
    which the pending nodes are visited.  A [strategy] says which pending
    node is taken next and where the children of a node go; [search_with]
    is [fuzzySearch] with the stack discipline replaced by a strategy. *)
Record strategy := mkStrategy {
  take_next : list nat → option (nat * list nat);
  add_children : list nat → list nat → list nat;
}.

Definition pop_head (l : list nat) : option (nat * list nat) :=
  match l with
  | [] => None
  | x :: l' => Some (x, l')
  end.

(** The stack of the source: depth first, last child first. *)
Definition lifo : strategy := mkStrategy pop_head stack_extend.
(** A queue: breadth first. *)
Definition fifo : strategy := mkStrategy pop_head (λ l cs, l ++ cs).
(** The stack, with the children of a node visited in the other order. *)
Definition lifo_first_child : strategy := mkStrategy pop_head (λ l cs, cs ++ l).

(** A strategy loses and invents no pending node. *)
Record lawful (σ : strategy) : Prop := mk_lawful {
  take_next_nil : take_next σ [] = None;
  take_next_some : ∀ l, l ≠ [] →
    ∃ x l', take_next σ l = Some (x, l') ∧ l ≡ₚ x :: l';
  add_children_perm : ∀ l cs, add_children σ l cs ≡ₚ l ++ cs;
}.

(** [fuzzySearch_body], with [take_next] for [stack.pop()] and
    [add_children] for [stack.extend(...)]. *)
Definition search_body (σ : strategy) (query : str) (n : Z) (f : frame)
  : result frame :=
  match take_next σ (stack f) with
  | None => Raise IndexError
  | Some (node, stack') =>
      if decide (node ∈ visited f) then
        Ok (mkFrame (heap f) stack' (matching_set f) (visited f))
      else
        '(h', matching', expand) ← visit query n node (heap f) (matching_set f);
        nd ← deref h' node;
        let stack'' :=
          if expand : bool
          then add_children σ stack' (dict_values (children nd))
          else stack' in
        Ok (mkFrame h' stack'' matching' (visited f))
  end.

Fixpoint search_loop (σ : strategy) (fuel : nat) (query : str) (n : Z)
    (f : frame) : result frame :=
  match stack f with
  | [] => Ok f
  | _ =>
      match fuel with
      | O => OutOfFuel
      | S fuel' =>
          f' ← search_body σ query n f;
          search_loop σ fuel' query n f'
      end
  end.

Definition search_with (σ : strategy) (fuel : nat) (t : Trie) (query : str)
    (n : Z) : result (gset str * Trie) :=
  let query := preprocess query in
  f ← search_loop σ fuel query n (fuzzySearch_start t);
  Ok (matching_set f, mkTrie (root t) (heap f)).

(** The state of the loop after [k] iterations of its body. *)
Fixpoint search_steps (σ : strategy) (k : nat) (query : str) (n : Z)
    (f : frame) : result frame :=
  match k with
  | O => Ok f
  | S k' =>
      f' ← search_steps σ k' query n f;
      search_body σ query n f'
  end.

(** ** Predicates of the proofs *)

(** An entry [c] of a row stands for the distance [d]: equal to it when
    [d] is within the bound [n], and above [n] when [d] is. *)
Definition approx (n c : Z) (d : nat) : Prop :=
  (Z.of_nat d <= n → c = Z.of_nat d) ∧ (n < Z.of_nat d → n < c).

(** [row] is the row of the node of word [wd]: entry [j] stands for the
    distance from [wd] to the first [j] characters of the query. *)
Definition row_ok (query : str) (n : Z) (wd : str) (row : list Z) : Prop :=
  length row = S (length query) ∧
  ∀ j c, row !! j = Some c → approx n c (lev wd (take j query)).

(** The row being filled by the [for] loop of [get_levenshtein_dists],
    whose window starts at [lo], before the iteration of index [k]. *)
Definition row_window (query : str) (n : Z) (wd : str) (lo k : Z)
    (row : list Z) : Prop :=
  length row = S (length query) ∧
  ∀ j c, row !! j = Some c →
    if decide (j = 0%nat ∨ lo < Z.of_nat j <= k)
    then approx n c (lev wd (take j query))
    else c = n + 1.

(** The links of a node, and what a search leaves alone in it: everything
    but [dists]. *)
Definition links (nd : Node) : str * option nat * list (ascii * nat) :=
  (word nd, parent nd, children nd).
Definition skel (nd : Node) : str * option nat * list (ascii * nat) * bool :=
  (links nd, is_word nd).

(** The shape of the store of a trie: the root is at address 0, a child is
    stored after its parent, [parent] and [children] mirror one another
    and [word] spells the path from the root. *)
Record shape (h : store) : Prop := mk_shape {
  shape_root : ∃ r, h !! 0%nat = Some r ∧ parent r = None ∧ word r = [];
  shape_parent : ∀ x nd p, h !! x = Some nd → parent nd = Some p →
    (p < x)%nat ∧ ∃ pn c, h !! p = Some pn ∧ (c, x) ∈ children pn;
  shape_orphan : ∀ x nd, h !! x = Some nd → parent nd = None → x = 0%nat;
  shape_child : ∀ x nd c y, h !! x = Some nd → (c, y) ∈ children nd →
    ∃ cn, h !! y = Some cn ∧ parent cn = Some x ∧ word cn = word nd ++ [c];
  shape_keys : ∀ x nd, h !! x = Some nd → NoDup (children nd).*1;
}.

Definition wf (t : Trie) : Prop := root t = 0%nat ∧ shape (nodes t).

(** The words a trie holds: the [word] of its nodes with [is_word] set. *)
Definition words (h : store) : gset str :=
  list_to_set (word <$> filter (λ nd, is_word nd = true) h).

(** The tries a program can get: the empty one, a trie after an [insert]
    and a trie after a [fuzzySearch], with the normalised words inserted. *)
Inductive built : Trie → gset str → Prop :=
| built_init : built Trie_init ∅
| built_insert t W w t' :
    built t W → insert t w = Ok t' → built t' (W ∪ {[preprocess w]})
| built_search t W fuel query n r t' :
    built t W → fuzzySearch fuel t query n = Ok (r, t') → built t' W.

(** A string of ASCII characters, and a character that [preprocess]
    leaves as it is. *)
Definition ascii_only (s : str) : Prop := Forall (λ c, (Py.code c < 128)%N) s.
(** The strings of the model: every character is a Latin-1 code point. *)
Definition latin1 (s : str) : Prop := Forall (λ c, (Py.code c < 256)%N) s.
Definition plain (c : ascii) : Prop :=
  (Py.code c < 128)%N ∧ (c ∉ Py.punctuation) ∧ Py.lower_char c = c.

(** The index keeps one key for each word of its trie. *)
Definition keys_agree (ix : Index) : Prop :=
  ∃ W, built (trie ix) W ∧ dom (inverted_index ix) = W.

(** A word that some prefix of the query is within [n] of: the nodes the
    search goes below. *)
Definition near (query : str) (n : Z) (wd : str) : Prop :=
  ∃ j, (j ≤ length query)%nat ∧ Z.of_nat (lev wd (take j query)) <= n.

(** The invariant of the loop of the search started on the store [h0]:
    [done] are the nodes visited so far, the latest first. *)
Record search_inv (query : str) (n : Z) (h0 : store) (done : list nat)
    (f : frame) : Prop := mk_search_inv {
  inv_skel : skel <$> heap f = skel <$> h0;
  inv_visited : visited f = ∅;
  inv_nodup : NoDup (stack f ++ done);
  inv_root : 0%nat ∈ stack f ++ done;
  inv_parent : ∀ x nd p,
    x ∈ stack f ++ done → heap f !! x = Some nd → parent nd = Some p →
    p ∈ done;
  inv_valid : ∀ x, x ∈ stack f ++ done → is_Some (heap f !! x);
  inv_rows : ∀ x nd,
    x ∈ done → heap f !! x = Some nd →
    ∃ row, dists nd = Some row ∧ row_ok query n (word nd) row;
  inv_closed : ∀ x nd c y,
    x ∈ done → heap f !! x = Some nd → near query n (word nd) →
    (c, y) ∈ children nd → y ∈ stack f ++ done;
  inv_matching : ∀ w,
    w ∈ matching_set f ↔
    ∃ x nd, x ∈ done ∧ heap f !! x = Some nd ∧ is_word nd = true ∧
            word nd = w ∧ Z.of_nat (lev w query) <= n;
}.

(** The store [h'] extends [h]: a node of [h] is in [h'] at its address
    with its word, parent and row, with its children first among its
    children, and with [is_word] set if it was. *)
Definition extends (h h' : store) : Prop :=
  (length h ≤ length h')%nat ∧
  ∀ x nd, h !! x = Some nd →
    ∃ nd', h' !! x = Some nd' ∧ word nd' = word nd ∧
      parent nd' = parent nd ∧ dists nd' = dists nd ∧
      children nd `prefix_of` children nd' ∧
      (is_word nd = true → is_word nd' = true).

(** The node at an address of a store. *)
Definition node_at (h : store) (x : nat) : Node :=
  default (Node_init [] None) (h !! x).

(** The tokens of a document, as [Index.__init__] takes them, and the
    (document, token) pairs of a document. *)
Definition tokens (doc : str) : list str := Py.split (preprocess doc).
Definition doc_pairs (doc : str) : list (str * str) :=
  (λ w, (doc, w)) <$> tokens doc.

(** The index after the (document, token) pairs [P]: its trie holds the
    normalised tokens, and [inverted_index] has a key for each token, with
    the documents paired with it. *)
Definition indexes (P : list (str * str)) (ix : Index) : Prop :=
  built (trie ix) (list_to_set (preprocess <$> P.*2)) ∧
  (∀ k d, d ∈ default ∅ (inverted_index ix !! k) ↔ (d, k) ∈ P) ∧
  (∀ k, is_Some (inverted_index ix !! k) ↔ ∃ d, (d, k) ∈ P).

(** What stays true of an index when searches store empty entries in
    [inverted_index]: the words of the trie and, for each key, the
    documents found under it. *)
Definition serves (documents : list str) (ix : Index) : Prop :=
  built (trie ix) (list_to_set (preprocess <$> (documents ≫= doc_pairs).*2)) ∧
  ∀ k d, d ∈ default ∅ (inverted_index ix !! k) ↔
         (d, k) ∈ documents ≫= doc_pairs.

(** * Properties *)


(** ** Levenshtein distance *)
Section lev_facts.
Implicit Types (s t u : str) (a b : ascii) (e : script).

Lemma lev_nil_r s : lev s [] = length s.
Proof. by destruct s. Qed.

Lemma lev_cons a s b t :
  lev (a :: s) (b :: t) =
    if decide (a = b) then lev s t
    else S (Nat.min (lev s t) (Nat.min (lev s (b :: t)) (lev (a :: s) t))).
Proof. reflexivity. Qed.

Lemma lev_sym s t : lev s t = lev t s.
Proof.
  revert t. induction s as [|a s IHs]; intros t.
  - by rewrite lev_nil_r.
  - induction t as [|b t IHt]; [done|].
    rewrite !lev_cons, IHt, (IHs t), (IHs (b :: t)).
    repeat case_decide; try congruence. lia.
Qed.

Lemma lev_drop_bounds s :
  ∀ t, (∀ b, lev s t ≤ S (lev s (b :: t)))%nat ∧
       (∀ a, lev (a :: s) t ≤ S (lev s t))%nat.
Proof.
  induction s as [|a' s IHs].
  - assert (Hun : ∀ t b, (lev [] t ≤ S (lev [] (b :: t)))%nat)
      by (intros; simpl; lia).
    intros t. split; [apply Hun|]. intros a.
    destruct t as [|b t]; [simpl; lia|].
    rewrite lev_cons. specialize (Hun t b). case_decide; simpl in *; lia.
  - assert (Hun : ∀ t b, (lev (a' :: s) t ≤ S (lev (a' :: s) (b :: t)))%nat).
    { intros t b. rewrite (lev_cons a' s b t).
      destruct (IHs t) as [H1 H2]. specialize (H1 b). specialize (H2 a').
      case_decide; lia. }
    intros t. split; [apply Hun|]. intros a.
    destruct t as [|b t]; [simpl; lia|].
    rewrite (lev_cons a (a' :: s) b t). specialize (Hun t b).
    case_decide; lia.
Qed.

Lemma lev_del a s t : (lev (a :: s) t ≤ S (lev s t))%nat.
Proof. apply lev_drop_bounds. Qed.

Lemma lev_ins b s t : (lev s (b :: t) ≤ S (lev s t))%nat.
Proof. rewrite (lev_sym s (b :: t)), (lev_sym s t). apply lev_del. Qed.

Lemma src_app e e' : src (e ++ e') = src e ++ src e'.
Proof. apply bind_app. Qed.
Lemma dst_app e e' : dst (e ++ e') = dst e ++ dst e'.
Proof. apply bind_app. Qed.
Lemma cost_app e e' : cost (e ++ e') = (cost e + cost e')%nat.
Proof. apply sum_list_with_app. Qed.

Lemma src_rev e : src (rev e) = rev (src e).
Proof.
  induction e as [|o e IH]; [done|]. simpl rev.
  rewrite src_app, IH. change (src (o :: e)) with (op_src o ++ src e).
  rewrite rev_app_distr. f_equal. by destruct o.
Qed.
Lemma dst_rev e : dst (rev e) = rev (dst e).
Proof.
  induction e as [|o e IH]; [done|]. simpl rev.
  rewrite dst_app, IH. change (dst (o :: e)) with (op_dst o ++ dst e).
  rewrite rev_app_distr. f_equal. by destruct o.
Qed.
Lemma cost_rev e : cost (rev e) = cost e.
Proof.
  induction e as [|o e IH]; [done|]. simpl rev.
  rewrite cost_app, IH. unfold cost. simpl. lia.
Qed.

Lemma src_cons o e : src (o :: e) = op_src o ++ src e.
Proof. reflexivity. Qed.
Lemma dst_cons o e : dst (o :: e) = op_dst o ++ dst e.
Proof. reflexivity. Qed.
Lemma cost_cons o e : cost (o :: e) = (op_cost o + cost e)%nat.
Proof. reflexivity. Qed.

Lemma script_cons o e s t :
  src e = s → dst e = t →
  src (o :: e) = op_src o ++ s ∧ dst (o :: e) = op_dst o ++ t ∧
  cost (o :: e) = (op_cost o + cost e)%nat.
Proof. by intros <- <-. Qed.

(** [lev s t] is the cost of some script from [s] to [t] ... *)
Lemma lev_script s t : ∃ e, src e = s ∧ dst e = t ∧ cost e = lev s t.
Proof.
  revert t. induction s as [|a s IHs]; intros t.
  - induction t as [|b t (e & H1 & H2 & H3)]; [by exists []|].
    exists (Ins b :: e).
    destruct (script_cons (Ins b) e _ _ H1 H2) as (-> & -> & ->).
    by rewrite H3.
  - induction t as [|b t (e3 & H7 & H8 & H9)].
    + destruct (IHs []) as (e & H1 & H2 & H3). exists (Del a :: e).
      destruct (script_cons (Del a) e _ _ H1 H2) as (-> & -> & ->).
      by rewrite H3, !lev_nil_r.
    + rewrite lev_cons. destruct (IHs t) as (e1 & H1 & H2 & H3).
      case_decide as Hab.
      { subst b. exists (Keep a :: e1).
        destruct (script_cons (Keep a) e1 _ _ H1 H2) as (-> & -> & ->).
        by rewrite H3. }
      destruct (IHs (b :: t)) as (e2 & H4 & H5 & H6).
      destruct (Nat.min_spec (lev s t)
                  (Nat.min (lev s (b :: t)) (lev (a :: s) t))) as [[_ ->]|[_ ->]].
      { exists (Subst a b :: e1).
        destruct (script_cons (Subst a b) e1 _ _ H1 H2) as (-> & -> & ->).
        by rewrite H3. }
      destruct (Nat.min_spec (lev s (b :: t)) (lev (a :: s) t))
        as [[_ ->]|[_ ->]].
      { exists (Del a :: e2).
        destruct (script_cons (Del a) e2 _ _ H4 H5) as (-> & -> & ->).
        by rewrite H6. }
      exists (Ins b :: e3).
      destruct (script_cons (Ins b) e3 _ _ H7 H8) as (-> & -> & ->).
      by rewrite H9.
Qed.

(** ... and no script is cheaper. *)
Lemma lev_le_cost e : (lev (src e) (dst e) ≤ cost e)%nat.
Proof.
  induction e as [|o e IH]; [done|].
  rewrite src_cons, dst_cons, cost_cons.
  destruct o as [c|a b|b|a]; cbn [op_src op_dst op_cost app].
  - rewrite lev_cons. case_decide; [lia|done].
  - rewrite lev_cons. case_decide; lia.
  - pose proof (lev_ins b (src e) (dst e)). lia.
  - pose proof (lev_del a (src e) (dst e)). lia.
Qed.

Lemma lev_rev s t : lev (rev s) (rev t) = lev s t.
Proof.
  assert (H : ∀ s t, (lev (rev s) (rev t) ≤ lev s t)%nat).
  { clear s t. intros s t. destruct (lev_script s t) as (e & <- & <- & <-).
    rewrite <- src_rev, <- dst_rev, <- (cost_rev e). apply lev_le_cost. }
  apply Nat.le_antisymm; [apply H|].
  rewrite <- (rev_involutive s), <- (rev_involutive t) at 1. apply H.
Qed.

Lemma lev_snoc_nil s a : lev (s ++ [a]) [] = S (length s).
Proof. rewrite lev_nil_r, length_app. simpl. lia. Qed.

(** The recurrence on the last characters, which is the one the rows of
    the search follow. *)
Lemma lev_snoc s a t b :
  lev (s ++ [a]) (t ++ [b]) =
    if decide (a = b) then lev s t
    else S (Nat.min (lev s t) (Nat.min (lev s (t ++ [b])) (lev (s ++ [a]) t))).
Proof.
  rewrite <- (lev_rev (s ++ [a])), <- (lev_rev s t), <- (lev_rev s (t ++ [b])),
    <- (lev_rev (s ++ [a]) t).
  rewrite !rev_app_distr. simpl. apply lev_cons.
Qed.

Lemma script_length e :
  (length (src e) ≤ length (dst e) + cost e)%nat ∧
  (length (dst e) ≤ length (src e) + cost e)%nat.
Proof.
  induction e as [|o e IH]; [simpl; lia|].
  change (src (o :: e)) with (op_src o ++ src e).
  change (dst (o :: e)) with (op_dst o ++ dst e).
  change (cost (o :: e)) with (op_cost o + cost e)%nat.
  rewrite !length_app. destruct o; simpl; lia.
Qed.

Lemma lev_length s t :
  (length s ≤ length t + lev s t)%nat ∧ (length t ≤ length s + lev s t)%nat.
Proof.
  destruct (lev_script s t) as (e & <- & <- & <-). apply script_length.
Qed.

Lemma script_split e s u :
  src e = s ++ u → ∃ e1 e2, e = e1 ++ e2 ∧ src e1 = s ∧ src e2 = u.
Proof.
  revert s. induction e as [|o e IH]; intros s Hsrc.
  - symmetry in Hsrc. apply app_eq_nil in Hsrc as [-> ->].
    by exists [], [].
  - change (src (o :: e)) with (op_src o ++ src e) in Hsrc.
    destruct s as [|a s].
    { exists [], (o :: e). done. }
    destruct (op_src o) as [|a' [|??]] eqn:Ho.
    + destruct (IH (a :: s) Hsrc) as (e1 & e2 & -> & H1 & H2).
      exists (o :: e1), e2. split; [done|]. split; [|done].
      change (src (o :: e1)) with (op_src o ++ src e1). by rewrite Ho.
    + simpl in Hsrc. injection Hsrc as -> Hsrc.
      destruct (IH s Hsrc) as (e1 & e2 & -> & H1 & H2).
      exists (o :: e1), e2. split; [done|]. split; [|done].
      change (src (o :: e1)) with (op_src o ++ src e1). by rewrite Ho, H1.
    + by destruct o.
Qed.

(** Pruning is sound: a word within distance [k] of [t] has every prefix
    within distance [k] of some prefix of [t]. *)
Lemma lev_prefix s u t :
  ∃ j, (j ≤ length t)%nat ∧ (lev s (take j t) ≤ lev (s ++ u) t)%nat.
Proof.
  destruct (lev_script (s ++ u) t) as (e & Hs & Ht & Hc).
  destruct (script_split e s u Hs) as (e1 & e2 & -> & H1 & H2).
  exists (length (dst e1)). rewrite <- Hc. subst t.
  rewrite dst_app, length_app, take_app_length, cost_app, <- H1.
  split; [lia|]. pose proof (lev_le_cost e1). lia.
Qed.

Lemma lev_refl s : lev s s = 0%nat.
Proof.
  induction s as [|a s IH]; [done|]. rewrite lev_cons. by case_decide.
Qed.

Lemma lev_zero s t : lev s t = 0%nat ↔ s = t.
Proof.
  split; [|intros ->; apply lev_refl].
  revert t. induction s as [|a s IH]; intros [|b t]; try done.
  rewrite lev_cons. case_decide; [|done]. intros Hz. f_equal; auto.
Qed.

End lev_facts.

(** Closing an equation between closed terms by evaluation. *)
Ltac by_evaluation :=
  lazymatch goal with
  | |- ?a = ?b => vm_cast_no_check (eq_refl b)
  end.

(** ** The Python built-ins *)

Lemma bind_Ok {A B} (a : A) (f : A → result B) : (Ok a ≫= f) = f a.
Proof. reflexivity. Qed.

Section py_facts.
Context {A : Type}.
Implicit Types (l : list A) (i : Z).

Lemma getitem_lookup l i x :
  0 <= i → l !! Z.to_nat i = Some x → Py.getitem l i = Ok x.
Proof.
  intros Hi Hx. unfold Py.getitem. cbv zeta.
  repeat case_decide; try lia. by rewrite Hx.
Qed.

Lemma getitem_last l x : Py.getitem (l ++ [x]) (-1) = Ok x.
Proof.
  unfold Py.getitem, Py.len. cbv zeta. rewrite length_app. cbn [length].
  repeat case_decide; try lia.
  replace (Z.to_nat (-1 + Z.of_nat (length l + 1))) with (length l) by lia.
  by rewrite list_lookup_middle.
Qed.

Lemma setitem_insert l i v :
  0 <= i < Py.len l → Py.setitem l i v = Ok (<[Z.to_nat i := v]> l).
Proof.
  intros Hi. unfold Py.setitem. cbv zeta. repeat case_decide; try lia. done.
Qed.

End py_facts.

Lemma min_seq_le (l : list Z) (n : Z) :
  l ≠ [] → ∃ m, Py.min_seq l = Ok m ∧ (m <= n ↔ ∃ c, c ∈ l ∧ c <= n).
Proof.
  destruct l as [|x l]; [done|]. intros _. exists (foldl Z.min x l).
  split; [done|]. revert x. induction l as [|y l IH]; intros x; simpl.
  - split; [intros; exists x; split; [left|done]|].
    intros (c & Hc & Hle). apply list_elem_of_singleton in Hc. by subst.
  - rewrite IH. split.
    + intros (c & Hc & Hle). apply elem_of_cons in Hc as [->|Hc].
      * destruct (Z.min_spec x y) as [[_ Hm]|[_ Hm]]; rewrite Hm in Hle.
        -- exists x. split; [left|done].
        -- exists y. split; [right; left|done].
      * exists c. split; [do 2 right|]; done.
    + intros (c & Hc & Hle). apply elem_of_cons in Hc as [->|Hc].
      { exists (Z.min x y). split; [left|lia]. }
      apply elem_of_cons in Hc as [->|Hc].
      { exists (Z.min x y). split; [left|lia]. }
      exists c. split; [by right|done].
Qed.

(** ** The rows *)
Section rows.
Context (query : str) (n : Z).
Implicit Types (wd : str) (row prev : list Z).

Lemma approx_exact (d : nat) : approx n (Z.of_nat d) d.
Proof. unfold approx. lia. Qed.

Lemma approx_sentinel (d : nat) : n < Z.of_nat d → approx n (n + 1) d.
Proof. unfold approx. lia. Qed.

Lemma approx_min3 a b c (da db dc : nat) :
  approx n a da → approx n b db → approx n c dc →
  approx n (1 + Py.min3 a b c) (S (Nat.min da (Nat.min db dc))).
Proof. unfold approx, Py.min3. lia. Qed.

Lemma approx_le c (d : nat) : approx n c d → (c <= n ↔ Z.of_nat d <= n).
Proof. unfold approx. lia. Qed.

(** The root's row. *)
Lemma row_ok_root : row_ok query n [] (Py.range (Py.len query + 1)).
Proof.
  unfold Py.range, Py.range2, Py.len. split.
  - rewrite length_seqZ. lia.
  - intros j c Hj. apply lookup_seqZ in Hj as [-> Hlt]. simpl.
    rewrite length_take, Nat.min_l by lia. apply approx_exact.
Qed.

Lemma row_window_entry wd lo k row c :
  row_window query n wd lo k row →
  0 <= lo <= k → lo = 0 ∨ lo = Py.len wd - n - 1 →
  row !! Z.to_nat k = Some c →
  approx n c (lev wd (take (Z.to_nat k) query)).
Proof.
  intros [_ Hw] Hk Hlo Hc. specialize (Hw _ _ Hc). case_decide as Hj; [done|].
  subst c. apply approx_sentinel.
  pose proof (lev_length wd (take (Z.to_nat k) query)) as [Hl _].
  rewrite length_take in Hl. unfold Py.len in *. lia.
Qed.

Lemma dists_step_ok w c prev lo k row :
  row_ok query n w prev →
  row_window query n (w ++ [c]) lo k row →
  0 <= lo <= k → k < Py.len query →
  lo = 0 ∨ lo = Py.len (w ++ [c]) - n - 1 →
  ∃ row', dists_step query (w ++ [c]) (Some prev) row k = Ok row' ∧
          row_window query n (w ++ [c]) lo (k + 1) row'.
Proof.
  intros [Hplen Hprev] Hwin Hk Hkq Hlo. unfold Py.len in Hkq.
  assert (Hk0 : 0 <= k) by lia.
  destruct (lookup_lt_is_Some_2 query (Z.to_nat k)) as [qi Hqi]; [lia|].
  destruct (lookup_lt_is_Some_2 prev (Z.to_nat k)) as [a Ha]; [lia|].
  destruct (lookup_lt_is_Some_2 prev (S (Z.to_nat k))) as [b Hb]; [lia|].
  destruct (lookup_lt_is_Some_2 row (Z.to_nat k)) as [c' Hc'];
    [destruct Hwin; lia|].
  pose proof (row_window_entry _ _ _ _ _ Hwin Hk Hlo Hc') as Hapc.
  pose proof (Hprev _ _ Ha) as Hapa. pose proof (Hprev _ _ Hb) as Hapb.
  assert (Htake : take (S (Z.to_nat k)) query = take (Z.to_nat k) query ++ [qi])
    by (by apply take_S_r).
  set (v := if decide (qi = c) then a else 1 + Py.min3 a b c').
  assert (Hv : approx n v (lev (w ++ [c]) (take (S (Z.to_nat k)) query))).
  { rewrite Htake, lev_snoc. rewrite Htake in Hapb. subst v.
    destruct (decide (qi = c)) as [->|Hne].
    - by rewrite decide_True.
    - rewrite decide_False by congruence. by apply approx_min3. }
  exists (<[S (Z.to_nat k) := v]> row). split.
  - unfold dists_step. rewrite (getitem_lookup _ _ _ Hk0 Hqi).
    cbn. rewrite getitem_last. cbn. unfold Py.subscript.
    replace (Z.to_nat (k + 1)) with (S (Z.to_nat k)) in * by lia.
    assert (Hset : Py.setitem row (k + 1) v = Ok (<[S (Z.to_nat k) := v]> row)).
    { rewrite setitem_insert; [by replace (Z.to_nat (k + 1)) with (S (Z.to_nat k)) by lia|].
      destruct Hwin as [Hrl _]. unfold Py.len. lia. }
    subst v. case_decide.
    + rewrite (getitem_lookup _ _ _ Hk0 Ha). cbn. done.
    + rewrite (getitem_lookup _ _ _ Hk0 Ha). cbn.
      rewrite (getitem_lookup prev (k + 1) b) by
        (try lia; by replace (Z.to_nat (k + 1)) with (S (Z.to_nat k)) by lia).
      cbn. rewrite (getitem_lookup _ _ _ Hk0 Hc'). cbn. done.
  - destruct Hwin as [Hrl Hwin]. split; [by rewrite length_insert|].
    intros j c0 Hj. destruct (decide (j = S (Z.to_nat k))) as [->|Hne].
    + rewrite list_lookup_insert_eq in Hj by lia. injection Hj as <-.
      rewrite decide_True by lia. done.
    + rewrite list_lookup_insert_ne in Hj by done. specialize (Hwin _ _ Hj).
      repeat case_decide; try done; lia.
Qed.

Lemma dists_loop_ok w c prev lo (m : nat) : ∀ k row,
  row_ok query n w prev →
  row_window query n (w ++ [c]) lo k row →
  0 <= lo <= k → ((0 < m)%nat → k + Z.of_nat m <= Py.len query) →
  lo = 0 ∨ lo = Py.len (w ++ [c]) - n - 1 →
  ∃ row', Py.for_each (seqZ k (Z.of_nat m))
            (dists_step query (w ++ [c]) (Some prev)) row = Ok row' ∧
          row_window query n (w ++ [c]) lo (k + Z.of_nat m) row'.
Proof.
  induction m as [|m IH]; intros k row Hprev Hwin Hk Hkm Hlo.
  - exists row. rewrite seqZ_nil by lia. split; [done|].
    by replace (k + Z.of_nat 0) with k by lia.
  - rewrite seqZ_cons by lia. cbn [Py.for_each].
    destruct (dists_step_ok w c prev lo k row) as (row1 & -> & Hwin1);
      [done|done|lia|lia|done|].
    cbn. replace (Z.pred (Z.of_nat (S m))) with (Z.of_nat m) by lia.
    replace (Z.succ k) with (k + 1) by lia.
    destruct (IH (k + 1) row1) as (row' & -> & Hwin'); [done|done|lia|lia|done|].
    exists row'. split; [done|].
    by replace (k + Z.of_nat (S m)) with (k + 1 + Z.of_nat m) by lia.
Qed.

(** The row of a child, computed from the row of its parent. *)
Lemma dists_from_parent_ok w c prev :
  row_ok query n w prev →
  ∃ row, dists_from_parent query n (w ++ [c]) (Some prev) = Ok row ∧
         row_ok query n (w ++ [c]) row.
Proof.
  intros Hprev. unfold dists_from_parent.
  set (d := Py.len (w ++ [c])).
  assert (Hrep : Py.repeat_list (n + 1) (Py.len query + 1)
                 = replicate (S (length query)) (n + 1)).
  { unfold Py.repeat_list, Py.len. f_equal. lia. }
  rewrite Hrep. rewrite setitem_insert
    by (unfold Py.len; rewrite length_replicate; lia).
  set (row0 := d :: replicate (length query) (n + 1)).
  change (<[Z.to_nat 0 := d]> (replicate (S (length query)) (n + 1))) with row0.
  rewrite bind_Ok, (getitem_lookup row0 0 d), bind_Ok by done.
  set (lo := Z.max 0 (d - n - 1)). set (hi := Z.min (Py.len query) (d + n + 1)).
  unfold Py.range2.
  assert (Hseq : seqZ lo (hi - lo) = seqZ lo (Z.of_nat (Z.to_nat (hi - lo))))
    by (unfold seqZ; by rewrite Nat2Z.id).
  rewrite Hseq.
  assert (Hwin0 : row_window query n (w ++ [c]) lo lo row0).
  { split; [subst row0; simpl; by rewrite length_replicate|].
    intros [|j] c0 Hj.
    - rewrite decide_True by auto. injection Hj as <-.
      rewrite take_0, lev_nil_r. apply approx_exact.
    - rewrite decide_False by lia. subst row0. simpl in Hj.
      by apply lookup_replicate in Hj as [-> _]. }
  destruct (dists_loop_ok w c prev lo (Z.to_nat (hi - lo)) lo row0)
    as (row & -> & [Hlen Hwin]); [done|done|lia|subst lo hi; lia|subst lo d; lia|].
  exists row. split; [done|]. split; [done|].
  intros j c0 Hj. specialize (Hwin _ _ Hj). case_decide as Hc; [done|].
  subst c0. apply approx_sentinel.
  pose proof (lookup_lt_Some _ _ _ Hj) as Hjl.
  pose proof (lev_length (w ++ [c]) (take j query)) as [Hl1 Hl2].
  rewrite length_take in Hl1, Hl2. unfold Py.len in *. lia.
Qed.

End rows.

(** ** The shape of the store *)
Section store_facts.
Implicit Types (h : store) (nd : Node) (x y p : nat).

Lemma dict_get_Some items k v : dict_get items k = Some v → (k, v) ∈ items.
Proof.
  induction items as [|[k' v'] items IH]; [done|]. simpl. case_decide.
  - intros [= ->]. subst. left.
  - intros. right. auto.
Qed.

Lemma dict_get_None items k : dict_get items k = None → k ∉ items.*1.
Proof.
  induction items as [|[k' v'] items IH]; simpl; [intros _; apply not_elem_of_nil|].
  case_decide; [done|]. intros Hn. apply not_elem_of_cons. auto.
Qed.

Lemma elem_of_words h w :
  w ∈ words h ↔ ∃ x nd, h !! x = Some nd ∧ is_word nd = true ∧ word nd = w.
Proof.
  unfold words. rewrite elem_of_list_to_set, list_elem_of_fmap. split.
  - intros (nd & -> & Hnd). apply list_elem_of_filter in Hnd as [Hw Hnd].
    apply list_elem_of_lookup in Hnd as [x Hx]. eauto.
  - intros (x & nd & Hx & Hw & <-). exists nd. split; [done|].
    apply list_elem_of_filter. split; [done|]. by eapply list_elem_of_lookup_2.
Qed.

(** Two stores with the same links have the same shape. *)
Lemma links_lookup h h' x nd' :
  links <$> h = links <$> h' → h' !! x = Some nd' →
  ∃ nd, h !! x = Some nd ∧ links nd = links nd'.
Proof.
  intros Hsk Hx. assert (Hx' : (links <$> h) !! x = Some (links nd'))
    by (by rewrite Hsk, list_lookup_fmap, Hx).
  rewrite list_lookup_fmap in Hx'. destruct (h !! x) as [nd|]; [|done].
  exists nd. split; [done|]. simpl in Hx'. congruence.
Qed.

Lemma links_eq nd nd' :
  links nd = links nd' →
  word nd = word nd' ∧ parent nd = parent nd' ∧ children nd = children nd'.
Proof. unfold links. intros [= ]. done. Qed.

Lemma links_shape h h' : links <$> h = links <$> h' → shape h → shape h'.
Proof.
  intros Hsk [Hr Hp Ho Hc Hk].
  assert (Hfw : ∀ x nd, h !! x = Some nd →
            ∃ nd', h' !! x = Some nd' ∧ links nd' = links nd)
    by (intros; by eapply links_lookup).
  assert (Hbw : ∀ x nd', h' !! x = Some nd' →
            ∃ nd, h !! x = Some nd ∧ links nd = links nd')
    by (intros; by eapply links_lookup).
  split.
  - destruct Hr as (r & Hr & ? & ?). destruct (Hfw _ _ Hr) as (r' & ? & E).
    apply links_eq in E as (? & ? & ?). exists r'. by repeat split; congruence.
  - intros x nd' p Hx Hpar. destruct (Hbw _ _ Hx) as (nd & Hx0 & E).
    apply links_eq in E as (? & ? & ?).
    destruct (Hp x nd p) as (? & pn & c & Hpn & Hin); [done|congruence|].
    split; [done|]. destruct (Hfw _ _ Hpn) as (pn' & ? & E).
    apply links_eq in E as (? & ? & ?). exists pn', c. split; [done|congruence].
  - intros x nd' Hx Hpar. destruct (Hbw _ _ Hx) as (nd & Hx0 & E).
    apply links_eq in E as (? & ? & ?). apply (Ho x nd); congruence.
  - intros x nd' c y Hx Hin. destruct (Hbw _ _ Hx) as (nd & Hx0 & E).
    apply links_eq in E as (? & ? & ?).
    destruct (Hc x nd c y) as (cn & Hy & ? & ?); [done|congruence|].
    destruct (Hfw _ _ Hy) as (cn' & ? & E).
    apply links_eq in E as (? & ? & ?). exists cn'. repeat split; congruence.
  - intros x nd' Hx. destruct (Hbw _ _ Hx) as (nd & Hx0 & E).
    apply links_eq in E as (? & ? & Hch). rewrite <- Hch. by eapply Hk.
Qed.

(** Two stores with the same skeleton have the same shape and words. *)
Lemma skel_lookup h h' x nd' :
  skel <$> h = skel <$> h' → h' !! x = Some nd' →
  ∃ nd, h !! x = Some nd ∧ skel nd = skel nd'.
Proof.
  intros Hsk Hx. assert (Hx' : (skel <$> h) !! x = Some (skel nd'))
    by (by rewrite Hsk, list_lookup_fmap, Hx).
  rewrite list_lookup_fmap in Hx'. destruct (h !! x) as [nd|]; [|done].
  exists nd. split; [done|]. simpl in Hx'. congruence.
Qed.

Lemma skel_eq nd nd' :
  skel nd = skel nd' →
  word nd = word nd' ∧ parent nd = parent nd' ∧
  children nd = children nd' ∧ is_word nd = is_word nd'.
Proof. unfold skel, links. intros [= ]. done. Qed.

Lemma skel_links h h' : skel <$> h = skel <$> h' → links <$> h = links <$> h'.
Proof.
  intros Hsk. apply (f_equal (fmap fst)) in Hsk.
  by rewrite <- !list_fmap_compose in Hsk.
Qed.

Lemma skel_shape h h' : skel <$> h = skel <$> h' → shape h → shape h'.
Proof. intros Hsk. apply links_shape. by apply skel_links. Qed.

Lemma skel_words h h' : skel <$> h = skel <$> h' → words h = words h'.
Proof.
  intros Hsk. apply set_eq. intros w. rewrite !elem_of_words. split.
  - intros (x & nd & Hx & Hw & <-).
    destruct (skel_lookup h' h x nd) as (nd' & ? & E); [done|done|].
    apply skel_eq in E as (? & ? & ? & ?). exists x, nd'. repeat split; congruence.
  - intros (x & nd & Hx & Hw & <-).
    destruct (skel_lookup h h' x nd) as (nd' & ? & E); [done|done|].
    apply skel_eq in E as (? & ? & ? & ?). exists x, nd'. repeat split; congruence.
Qed.

Lemma skel_set_dists h x nd d :
  h !! x = Some nd → skel <$> <[x := set_dists nd d]> h = skel <$> h.
Proof.
  intros Hx. rewrite list_fmap_insert. apply list_insert_id.
  by rewrite list_lookup_fmap, Hx.
Qed.

Lemma links_set_is_word h x nd b :
  h !! x = Some nd → links <$> <[x := set_is_word nd b]> h = links <$> h.
Proof.
  intros Hx. rewrite list_fmap_insert. apply list_insert_id.
  by rewrite list_lookup_fmap, Hx.
Qed.

Lemma words_set_is_word h x nd :
  h !! x = Some nd →
  words (<[x := set_is_word nd true]> h) = words h ∪ {[word nd]}.
Proof.
  intros Hx. pose proof (lookup_lt_Some _ _ _ Hx) as Hlt.
  apply set_eq. intros w.
  rewrite elem_of_union, elem_of_singleton, !elem_of_words. split.
  - intros (y & ndy & Hy & Hw & <-). destruct (decide (y = x)) as [->|Hne].
    + rewrite list_lookup_insert_eq in Hy by done. injection Hy as <-. by right.
    + rewrite list_lookup_insert_ne in Hy by done. left. eauto.
  - intros [(y & ndy & Hy & Hw & <-)| ->].
    + destruct (decide (y = x)) as [->|Hne].
      * exists x, (set_is_word nd true).
        rewrite list_lookup_insert_eq by done. split; [done|].
        split; [done|]. simpl. congruence.
      * exists y, ndy. by rewrite list_lookup_insert_ne.
    + exists x, (set_is_word nd true). by rewrite list_lookup_insert_eq.
Qed.

End store_facts.

(** ** [insert] *)

(** Storing a new child of [node] under the free key [char]. *)
Section new_child.
Context (h : store) (node : nat) (nd : Node) (char : ascii).
Hypothesis Hshape : shape h.
Hypothesis Hnode : h !! node = Some nd.
Hypothesis Hfree : dict_get (children nd) char = None.

Local Abbreviation c := (length h).
Local Abbreviation nd1 := (set_children nd (children nd ++ [(char, c)])).
Local Abbreviation new := (Node_init (word nd ++ [char]) (Some node)).
Local Abbreviation h1 := (<[node := nd1]> h ++ [new]).

Local Lemma new_child_old x ndx :
  h1 !! x = Some ndx →
  (x = c ∧ ndx = new) ∨
  ((x < c)%nat ∧ ∃ ndo, h !! x = Some ndo ∧ word ndx = word ndo ∧
     parent ndx = parent ndo ∧ is_word ndx = is_word ndo ∧
     ((x ≠ node ∧ children ndx = children ndo) ∨
      (x = node ∧ ndo = nd ∧ children ndx = children nd ++ [(char, c)]))).
Proof.
  intros Hx. destruct (decide (x < c)%nat) as [Hlt|Hge].
  - right. split; [done|]. rewrite lookup_app_l in Hx by (by rewrite length_insert).
    destruct (decide (x = node)) as [->|Hne].
    + rewrite list_lookup_insert_eq in Hx by done. injection Hx as <-.
      exists nd. repeat split; auto.
    + rewrite list_lookup_insert_ne in Hx by done.
      exists ndx. repeat split; auto.
  - left. rewrite lookup_app_r in Hx by (rewrite length_insert; lia).
    rewrite length_insert in Hx. destruct (x - length h)%nat as [|k] eqn:Hk.
    + injection Hx as <-. split; [lia|done].
    + by destruct k.
Qed.

Local Lemma new_child_new x ndo :
  h !! x = Some ndo →
  ∃ ndx, h1 !! x = Some ndx ∧ word ndx = word ndo ∧
         parent ndx = parent ndo ∧ is_word ndx = is_word ndo ∧
         children ndo ⊆ children ndx.
Proof.
  intros Hx. pose proof (lookup_lt_Some _ _ _ Hx) as Hlt.
  rewrite lookup_app_l by (by rewrite length_insert).
  destruct (decide (x = node)) as [->|Hne].
  - rewrite list_lookup_insert_eq by done. exists nd1.
    assert (ndo = nd) as -> by congruence. repeat split; auto.
    simpl. intros y Hy. apply elem_of_app. by left.
  - rewrite list_lookup_insert_ne by done. exists ndo. by repeat split.
Qed.

Local Lemma new_child_fresh : h1 !! c = Some new.
Proof.
  by rewrite lookup_app_r, length_insert, Nat.sub_diag
    by (by rewrite length_insert).
Qed.

Lemma new_child_shape : shape h1.
Proof.
  pose proof (lookup_lt_Some _ _ _ Hnode) as Hnlt.
  destruct Hshape as [Hr Hp Ho Hc Hk]. split.
  - destruct Hr as (r & Hr & ? & ?).
    destruct (new_child_new _ _ Hr) as (r' & ? & ? & ? & _).
    exists r'. repeat split; congruence.
  - intros x ndx p Hx Hpar.
    destruct (new_child_old _ _ Hx) as [[-> ->]|(Hlt & ndo & Hxo & Hw & Hpa & _)].
    + simpl in Hpar. injection Hpar as <-. split; [done|].
      destruct (new_child_new _ _ Hnode) as (pn & Hpn & _).
      exists nd1, char. split.
      * rewrite lookup_app_l by (by rewrite length_insert).
        by rewrite list_lookup_insert_eq.
      * simpl. apply elem_of_app. right. left.
    + destruct (Hp x ndo p) as (? & pn & k & Hpn & Hin); [done|congruence|].
      split; [done|].
      destruct (new_child_new _ _ Hpn) as (pn' & ? & _ & _ & _ & Hsub).
      exists pn', k. split; [done|]. by apply Hsub.
  - intros x ndx Hx Hpar.
    destruct (new_child_old _ _ Hx) as [[-> ->]|(Hlt & ndo & Hxo & Hw & Hpa & _)];
      [done|]. apply (Ho x ndo); congruence.
  - intros x ndx k y Hx Hin.
    assert (Hold : ∀ ndo, h !! x = Some ndo → word ndo = word ndx →
              (k, y) ∈ children ndo →
              ∃ cn, h1 !! y = Some cn ∧ parent cn = Some x ∧
                    word cn = word ndx ++ [k]).
    { intros ndo Hxo Hw Hino. destruct (Hc x ndo k y Hxo Hino) as (cn & Hy & ? & ?).
      destruct (new_child_new _ _ Hy) as (cn' & ? & ? & ? & _).
      exists cn'. repeat split; congruence. }
    destruct (new_child_old _ _ Hx)
      as [[-> ->]|(Hlt & ndo & Hxo & Hw & Hpa & _ & [[Hne Hch]|(-> & -> & Hch)])].
    + simpl in Hin. by apply elem_of_nil in Hin.
    + apply (Hold ndo); [done|done|congruence].
    + rewrite Hch in Hin. apply elem_of_app in Hin as [Hin|Hin].
      * by apply (Hold nd).
      * apply list_elem_of_singleton in Hin. injection Hin as -> ->.
        exists new. split; [apply new_child_fresh|]. split; [done|].
        simpl. by rewrite Hw.
  - intros x ndx Hx.
    destruct (new_child_old _ _ Hx)
      as [[-> ->]|(Hlt & ndo & Hxo & Hw & Hpa & _ & [[Hne Hch]|(-> & -> & Hch)])].
    + simpl. apply NoDup_nil_2.
    + rewrite Hch. by eapply Hk.
    + rewrite Hch, fmap_app. apply NoDup_app. split; [by eapply Hk|].
      split; [|apply NoDup_singleton].
      intros k Hk1 Hk2. apply list_elem_of_singleton in Hk2. subst k.
      by apply dict_get_None in Hfree.
Qed.

Lemma new_child_words : words h1 = words h.
Proof.
  apply set_eq. intros w. rewrite !elem_of_words. split.
  - intros (x & ndx & Hx & Hw & <-).
    destruct (new_child_old _ _ Hx) as [[-> ->]|(Hlt & ndo & Hxo & ? & ? & ? & _)];
      [done|]. exists x, ndo. repeat split; congruence.
  - intros (x & ndo & Hx & Hw & <-).
    destruct (new_child_new _ _ Hx) as (ndx & ? & ? & ? & ? & _).
    exists x, ndx. repeat split; congruence.
Qed.

End new_child.

Lemma setdefault_child_ok h node nd char :
  shape h → h !! node = Some nd →
  ∃ h' c cn, setdefault_child h node char (word nd ++ [char]) = Ok (h', c) ∧
    shape h' ∧ words h' = words h ∧
    h' !! c = Some cn ∧ word cn = word nd ++ [char].
Proof.
  intros Hshape Hnode. unfold setdefault_child, deref. rewrite Hnode, bind_Ok.
  destruct (dict_get (children nd) char) as [c|] eqn:Hget.
  - apply dict_get_Some in Hget.
    destruct (shape_child h Hshape node nd char c) as (cn & Hc & _ & Hw);
      [done|done|]. by exists h, c, cn.
  - eexists _, _, (Node_init (word nd ++ [char]) (Some node)).
    split; [done|].
    split; [by apply new_child_shape|]. split; [by apply new_child_words|].
    split; [|done].
    by rewrite lookup_app_r, length_insert, Nat.sub_diag
      by (by rewrite length_insert).
Qed.

Lemma insert_loop_ok rest : ∀ pre h node nd,
  shape h → h !! node = Some nd → word nd = pre →
  ∃ h' node' nd',
    insert_loop (pre ++ rest) (length pre) rest h node = Ok (h', node') ∧
    shape h' ∧ words h' = words h ∧
    h' !! node' = Some nd' ∧ word nd' = pre ++ rest.
Proof.
  induction rest as [|char rest IH]; intros pre h node nd Hshape Hnode Hw;
    subst pre.
  - exists h, node, nd. by rewrite app_nil_r.
  - cbn [insert_loop].
    assert (Htake : take (S (length (word nd))) (word nd ++ char :: rest)
                    = word nd ++ [char]).
    { rewrite (cons_middle char (word nd) rest), app_assoc.
      rewrite take_app_length'; [done|]. rewrite length_app. simpl. lia. }
    rewrite Htake.
    destruct (setdefault_child_ok h node nd char Hshape Hnode)
      as (h1 & c & cn & -> & Hshape1 & Hwords1 & Hc & Hcw).
    rewrite bind_Ok.
    destruct (IH (word nd ++ [char]) h1 c cn)
      as (h' & node' & nd' & Hrun & ? & ? & ? & Hw'); [done..|].
    rewrite length_app, <- app_assoc in Hrun. rewrite <- app_assoc in Hw'.
    simpl in Hrun, Hw'.
    replace (length (word nd) + 1)%nat with (S (length (word nd))) in Hrun by lia.
    exists h', node', nd'. rewrite Hrun. split_and!; try done. congruence.
Qed.

(** [insert] raises nothing, keeps the trie well formed and adds the
    normalised word to its words. *)
Lemma insert_ok t w :
  wf t →
  ∃ t', insert t w = Ok t' ∧ wf t' ∧
        words (nodes t') = words (nodes t) ∪ {[preprocess w]}.
Proof.
  intros [Hroot Hshape]. unfold insert.
  destruct (shape_root _ Hshape) as (r & Hr & _ & Hrw).
  destruct (insert_loop_ok (preprocess w) [] (nodes t) 0%nat r)
    as (h' & node' & nd' & Hrun & Hshape' & Hwords' & Hnd' & Hw'); [done..|].
  simpl in Hrun, Hw'. rewrite Hroot, Hrun, bind_Ok. unfold deref.
  rewrite Hnd', bind_Ok. eexists. split; [done|]. split.
  - split; [done|]. simpl.
    eapply links_shape; [|done]. symmetry. by apply links_set_is_word.
  - simpl. rewrite words_set_is_word by done. by rewrite Hwords', Hw'.
Qed.

(** ** The search *)

Lemma fuzzySearch_body_lifo query n f :
  fuzzySearch_body query n f = search_body lifo query n f.
Proof. unfold fuzzySearch_body, search_body. simpl. by destruct (stack f). Qed.

Lemma fuzzySearch_loop_lifo fuel query n f :
  fuzzySearch_loop fuel query n f = search_loop lifo fuel query n f.
Proof.
  revert f. induction fuel as [|fuel IH]; intros f; simpl; [done|].
  destruct (stack f) eqn:Hst; [done|]. rewrite fuzzySearch_body_lifo.
  destruct (search_body lifo query n f); [|done..]. apply IH.
Qed.

Lemma fuzzySearch_lifo fuel t query n :
  fuzzySearch fuel t query n = search_with lifo fuel t query n.
Proof. unfold fuzzySearch, search_with. by rewrite fuzzySearch_loop_lifo. Qed.

Lemma lifo_lawful : lawful lifo.
Proof.
  split.
  - done.
  - intros [|x l] Hne; [done|]. by exists x, l.
  - intros l cs. simpl. unfold stack_extend.
    rewrite <- (Permutation_rev cs). apply Permutation_app_comm.
Qed.

Lemma fifo_lawful : lawful fifo.
Proof.
  split.
  - done.
  - intros [|x l] Hne; [done|]. by exists x, l.
  - done.
Qed.

Lemma lifo_first_child_lawful : lawful lifo_first_child.
Proof.
  split.
  - done.
  - intros [|x l] Hne; [done|]. by exists x, l.
  - intros l cs. simpl. by rewrite (comm (++)).
Qed.

Section row_facts.
Context (query : str) (n : Z) (wd : str) (row : list Z).
Hypothesis Hrow : row_ok query n wd row.

Lemma row_last :
  ∃ last, Py.getitem row (-1) = Ok last ∧
          (last <= n ↔ Z.of_nat (lev wd query) <= n).
Proof.
  destruct Hrow as [Hlen Hap].
  destruct (lookup_lt_is_Some_2 row (length query)) as [last Hl]; [lia|].
  exists last. split.
  - unfold Py.getitem, Py.len. cbv zeta. rewrite Hlen.
    repeat case_decide; try lia.
    replace (Z.to_nat (-1 + Z.of_nat (S (length query)))) with (length query)
      by lia. by rewrite Hl.
  - specialize (Hap _ _ Hl). rewrite firstn_all in Hap. by apply approx_le.
Qed.

Lemma row_min :
  ∃ m, Py.min_seq row = Ok m ∧ (m <= n ↔ near query n wd).
Proof.
  destruct Hrow as [Hlen Hap].
  destruct (min_seq_le row n) as (m & Hm & Hle); [by destruct row|].
  exists m. split; [done|]. rewrite Hle. unfold near. split.
  - intros (c & Hc & Hcn). apply list_elem_of_lookup in Hc as [j Hj].
    exists j. pose proof (lookup_lt_Some _ _ _ Hj).
    split; [lia|]. by apply (approx_le n c _ (Hap _ _ Hj)).
  - intros (j & Hj & Hlev).
    destruct (lookup_lt_is_Some_2 row j) as [c Hc]; [lia|].
    exists c. split; [by eapply list_elem_of_lookup_2|].
    by apply (approx_le n c _ (Hap _ _ Hc)).
Qed.

End row_facts.

Lemma NoDup_snd_of_fst {A B} (l : list (A * B)) :
  NoDup l.*1 → (∀ a1 a2 b, (a1, b) ∈ l → (a2, b) ∈ l → a1 = a2) →
  NoDup l.*2.
Proof.
  induction l as [|[a b] l IH]; simpl; intros Hnd Hinj; [apply NoDup_nil_2|].
  apply NoDup_cons in Hnd as [Ha Hnd]. apply NoDup_cons. split.
  - intros Hb. apply list_elem_of_fmap in Hb as ([a' b'] & Hb & Hin).
    simpl in Hb. subst b'. apply Ha, list_elem_of_fmap. exists (a', b).
    split; [|done]. simpl. apply (Hinj a a' b); [left|by right].
  - apply IH; [done|]. intros a1 a2 b' H1 H2.
    apply (Hinj a1 a2 b'); by right.
Qed.

Lemma shape_values_nodup h x nd :
  shape h → h !! x = Some nd → NoDup (dict_values (children nd)).
Proof.
  intros Hshape Hx. apply NoDup_snd_of_fst; [by eapply shape_keys|].
  intros a1 a2 y H1 H2.
  destruct (shape_child h Hshape x nd a1 y Hx H1) as (cn1 & Hy1 & _ & Hw1).
  destruct (shape_child h Hshape x nd a2 y Hx H2) as (cn2 & Hy2 & _ & Hw2).
  assert (cn1 = cn2) as -> by congruence. rewrite Hw1 in Hw2.
  apply app_inv_head in Hw2. congruence.
Qed.

Section search.
Context (query : str) (n : Z) (h0 : store).
Hypothesis Hshape0 : shape h0.

Lemma inv_shape done f : search_inv query n h0 done f → shape (heap f).
Proof. intros Hinv. eapply skel_shape; [|done]. symmetry. apply Hinv. Qed.

(** The row of a pending node can be computed, and is right. *)
Lemma pending_row done f x :
  search_inv query n h0 done f → x ∈ stack f →
  ∃ nd row, heap f !! x = Some nd ∧
    get_levenshtein_dists (heap f) nd query n = Ok row ∧
    row_ok query n (word nd) row.
Proof.
  intros Hinv Hx. pose proof (inv_shape _ _ Hinv) as Hshape.
  assert (Hx' : x ∈ stack f ++ done) by (apply elem_of_app; by left).
  destruct (inv_valid _ _ _ _ _ Hinv x Hx') as [nd Hnd].
  exists nd. unfold get_levenshtein_dists.
  destruct (parent nd) as [p|] eqn:Hpar.
  - pose proof (inv_parent _ _ _ _ _ Hinv x nd p Hx' Hnd Hpar) as Hp.
    destruct (shape_parent _ Hshape x nd p Hnd Hpar) as (_ & pn & c & Hpn & Hc).
    destruct (shape_child _ Hshape p pn c x Hpn Hc) as (nd' & Hnd' & _ & Hw).
    assert (nd' = nd) as -> by congruence.
    destruct (inv_rows _ _ _ _ _ Hinv p pn Hp Hpn) as (prow & Hd & Hprow).
    destruct (dists_from_parent_ok query n (word pn) c prow Hprow)
      as (row & Hrow & Hok).
    exists row. unfold deref. rewrite Hpn, bind_Ok, Hd, Hw. by split_and!.
  - pose proof (shape_orphan _ Hshape x nd Hnd Hpar) as ->.
    destruct (shape_root _ Hshape) as (r & Hr & _ & Hrw).
    assert (r = nd) as -> by congruence.
    eexists. split_and!; [done..|]. rewrite Hrw. apply row_ok_root.
Qed.

Lemma visit_ok done f x :
  search_inv query n h0 done f → x ∈ stack f →
  ∃ nd row matching' expand,
    heap f !! x = Some nd ∧
    get_levenshtein_dists (heap f) nd query n = Ok row ∧
    row_ok query n (word nd) row ∧
    visit query n x (heap f) (matching_set f)
      = Ok (<[x := set_dists nd (Some row)]> (heap f), matching', expand) ∧
    (expand = true ↔ near query n (word nd)) ∧
    (∀ w, w ∈ matching' ↔
          w ∈ matching_set f ∨
          (is_word nd = true ∧ word nd = w ∧ Z.of_nat (lev w query) <= n)).
Proof.
  intros Hinv Hx.
  destruct (pending_row done f x Hinv Hx) as (nd & row & Hnd & Hget & Hrow).
  destruct (row_last _ _ _ _ Hrow) as (last & Hlast & Hlast_le).
  destruct (row_min _ _ _ _ Hrow) as (m & Hmin & Hmin_le).
  exists nd, row. unfold visit, deref. rewrite Hnd, bind_Ok, Hget, bind_Ok.
  destruct (is_word nd) eqn:Hisw.
  - rewrite Hlast, !bind_Ok, Hmin, bind_Ok. eexists _, _.
    split_and!; [done..| |].
    + by rewrite bool_decide_eq_true.
    + intros w. case_decide as Hle.
      * rewrite elem_of_union, elem_of_singleton. split.
        -- intros [?| ->]; [by left|]. right. split_and!; [done..|]. tauto.
        -- intros [?|(_ & <- & _)]; [by left|by right].
      * split; [by left|]. intros [?|(_ & <- & ?)]; [done|]. tauto.
  - rewrite !bind_Ok, Hmin, bind_Ok. eexists _, _.
    split_and!; [done..| |].
    + by rewrite bool_decide_eq_true.
    + intros w. split; [by left|]. by intros [?|(? & _)].
Qed.

(** One iteration of the loop, under any lawful strategy: it visits a
    pending node [x] that was not visited before, leaves the rows of the
    other nodes alone and keeps the invariant. *)
Lemma search_body_ok σ done f :
  lawful σ → search_inv query n h0 done f → stack f ≠ [] →
  ∃ x rest nd row f',
    take_next σ (stack f) = Some (x, rest) ∧ (x ∉ done) ∧
    heap f !! x = Some nd ∧
    get_levenshtein_dists (heap f) nd query n = Ok row ∧
    search_body σ query n f = Ok f' ∧
    heap f' = <[x := set_dists nd (Some row)]> (heap f) ∧
    search_inv query n h0 (x :: done) f'.
Proof.
  intros Hσ Hinv Hne. pose proof (inv_shape _ _ Hinv) as Hshape.
  destruct (take_next_some σ Hσ (stack f) Hne) as (x & rest & Htake & Hperm).
  assert (Hx : x ∈ stack f) by (rewrite Hperm; left).
  destruct (visit_ok done f x Hinv Hx)
    as (nd & row & matching' & expand & Hnd & Hget & Hrow & Hvisit & Hexp & Hmat).
  pose proof (inv_nodup _ _ _ _ _ Hinv) as Hnodup.
  assert (Hxd : x ∉ done).
  { intros Hxd. apply NoDup_app in Hnodup as (_ & Hdisj & _). by apply (Hdisj x). }
  pose proof (lookup_lt_Some _ _ _ Hnd) as Hlt.
  set (h' := <[x := set_dists nd (Some row)]> (heap f)).
  assert (Hx' : h' !! x = Some (set_dists nd (Some row)))
    by (by apply list_lookup_insert_eq).
  assert (Hother : ∀ y, y ≠ x → h' !! y = heap f !! y)
    by (intros; by apply list_lookup_insert_ne).
  assert (Hskel : skel <$> h' = skel <$> heap f) by (by apply skel_set_dists).
  assert (Hshape' : shape h') by (eapply skel_shape; [symmetry; exact Hskel|done]).
  set (kids := dict_values (children nd)).
  set (add := if expand then kids else []).
  set (stack' := if expand then add_children σ rest kids else rest).
  assert (Hstack' : stack' ≡ₚ rest ++ add).
  { subst stack' add. destruct expand; [apply Hσ|by rewrite app_nil_r]. }
  assert (Hkid : ∀ y, y ∈ kids → ∃ c cn, (c, y) ∈ children nd ∧
            h' !! y = Some cn ∧ parent cn = Some x).
  { intros y Hy. apply list_elem_of_fmap in Hy as ([c y'] & -> & Hin).
    destruct (shape_child _ Hshape' x _ c y' Hx' Hin) as (cn & ? & ? & _).
    by exists c, cn. }
  assert (Hfresh : ∀ y, y ∈ kids → y ∉ stack f ++ done).
  { intros y Hy Hold. destruct (Hkid y Hy) as (c & cn & Hin & Hcn & Hpar).
    destruct (shape_child _ Hshape x nd c y Hnd Hin) as (cn0 & Hcn0 & Hpar0 & _).
    by pose proof (inv_parent _ _ _ _ _ Hinv y cn0 x Hold Hcn0 Hpar0). }
  assert (Hnew : stack' ++ x :: done ≡ₚ add ++ stack f ++ done).
  { rewrite Hstack', Hperm. simpl. rewrite <- !Permutation_middle.
    constructor. by rewrite (Permutation_app_comm rest add), app_assoc. }
  exists x, rest, nd, row, (mkFrame h' stack' matching' (visited f)).
  split_and!; [done..| |done|].
  { unfold search_body. rewrite Htake, (inv_visited _ _ _ _ _ Hinv).
    rewrite decide_False by apply not_elem_of_empty.
    rewrite Hvisit, bind_Ok. unfold deref. fold h'. rewrite Hx', bind_Ok.
    done. }
  assert (Hin_new : ∀ y, y ∈ stack' ++ x :: done ↔ y ∈ add ∨ y ∈ stack f ++ done).
  { intros y. by rewrite Hnew, elem_of_app. }
  assert (Hadd : ∀ y, y ∈ add → y ∈ kids).
  { intros y. subst add. destruct expand; [done|]. by intros ?%elem_of_nil. }
  split; simpl.
  - by rewrite Hskel, (inv_skel _ _ _ _ _ Hinv).
  - apply Hinv.
  - rewrite Hnew. apply NoDup_app. split_and!; [|by auto|done].
    subst add. destruct expand; [|apply NoDup_nil_2].
    by apply (shape_values_nodup (heap f) x nd).
  - apply Hin_new. right. apply Hinv.
  - intros y ndy p Hy Hndy Hpar. apply Hin_new in Hy as [Hy|Hy].
    + destruct (Hkid y (Hadd y Hy)) as (c & cn & _ & Hcn & Hparc).
      assert (p = x) as -> by congruence. left.
    + right. destruct (decide (y = x)) as [->|Hyx].
      * rewrite Hx' in Hndy. injection Hndy as <-.
        by apply (inv_parent _ _ _ _ _ Hinv x nd p).
      * rewrite Hother in Hndy by done.
        by apply (inv_parent _ _ _ _ _ Hinv y ndy p).
  - intros y Hy. apply Hin_new in Hy as [Hy|Hy].
    + destruct (Hkid y (Hadd y Hy)) as (c & cn & _ & Hcn & _). eauto.
    + apply lookup_lt_is_Some. subst h'. rewrite length_insert.
      apply lookup_lt_is_Some. by apply Hinv.
  - intros y ndy Hy Hndy. apply elem_of_cons in Hy as [->|Hy].
    + rewrite Hx' in Hndy. injection Hndy as <-. by exists row.
    + rewrite Hother in Hndy by (intros ->; done).
      by apply (inv_rows _ _ _ _ _ Hinv y).
  - intros y ndy c z Hy Hndy Hnear Hin. apply Hin_new.
    apply elem_of_cons in Hy as [->|Hy].
    + rewrite Hx' in Hndy. injection Hndy as <-. simpl in Hnear, Hin.
      left. subst add. rewrite (proj2 Hexp Hnear).
      apply list_elem_of_fmap. by exists (c, z).
    + rewrite Hother in Hndy by (intros ->; done). right.
      by apply (inv_closed _ _ _ _ _ Hinv y ndy c z).
  - intros w. rewrite Hmat, (inv_matching _ _ _ _ _ Hinv). split.
    + intros [(y & ndy & Hy & Hndy & ?)|(Hw & <- & Hle)].
      * exists y, ndy. split; [by right|]. split; [|done].
        rewrite Hother; [done|]. by intros ->.
      * exists x, (set_dists nd (Some row)). split; [left|]. by split_and!.
    + intros (y & ndy & Hy & Hndy & Hw & Hwd & Hle).
      apply elem_of_cons in Hy as [->|Hy].
      * rewrite Hx' in Hndy. injection Hndy as <-. right. by split_and!.
      * rewrite Hother in Hndy by (intros ->; done). left.
        exists y, ndy. by split_and!.
Qed.

Lemma search_inv_start t :
  wf t → nodes t = h0 → search_inv query n h0 [] (fuzzySearch_start t).
Proof.
  intros [Hroot _] Hh0. destruct (shape_root _ Hshape0) as (r & Hr & Hpar & _).
  unfold fuzzySearch_start. rewrite Hroot, Hh0. split; simpl.
  - done.
  - done.
  - apply NoDup_singleton.
  - left.
  - intros x nd p Hx Hnd Hp. apply list_elem_of_singleton in Hx. congruence.
  - intros x Hx. apply list_elem_of_singleton in Hx. subst. eauto.
  - intros x nd Hx. by apply elem_of_nil in Hx.
  - intros x nd c y Hx. by apply elem_of_nil in Hx.
  - intros w. split; [by intros ?%not_elem_of_empty|].
    intros (x & nd & Hx & _). by apply elem_of_nil in Hx.
Qed.

Lemma search_inv_bound done f :
  search_inv query n h0 done f → (length (stack f ++ done) ≤ length h0)%nat.
Proof.
  intros Hinv.
  rewrite <- (length_seq (length h0) 0) at 1.
  apply submseteq_length, NoDup_submseteq; [apply Hinv|].
  intros x Hx. apply elem_of_seq.
  apply (inv_valid _ _ _ _ _ Hinv), lookup_lt_is_Some in Hx.
  pose proof (f_equal length (inv_skel _ _ _ _ _ Hinv)) as Hlen.
  rewrite !length_fmap in Hlen. lia.
Qed.

(** If the loop ends, it ends with the invariant and nothing pending ... *)
Lemma search_loop_inv σ fuel : ∀ done f f',
  lawful σ → search_inv query n h0 done f →
  search_loop σ fuel query n f = Ok f' →
  ∃ done', search_inv query n h0 done' f' ∧ stack f' = [].
Proof.
  induction fuel as [|fuel IH]; intros done f f' Hσ Hinv Hrun; simpl in Hrun.
  - destruct (stack f) eqn:Hst; [|done]. injection Hrun as <-. eauto.
  - destruct (stack f) eqn:Hst; [injection Hrun as <-; eauto|].
    destruct (search_body_ok σ done f Hσ Hinv)
      as (x & rest & nd & row & f1 & _ & _ & _ & _ & Hbody & _ & Hinv1);
      [by rewrite Hst|].
    rewrite Hbody, bind_Ok in Hrun. by eapply IH.
Qed.

(** ... and it ends when the fuel covers the nodes not yet visited. *)
Lemma search_loop_ends σ fuel : ∀ done f,
  lawful σ → search_inv query n h0 done f →
  (length h0 ≤ fuel + length done)%nat →
  ∃ f', search_loop σ fuel query n f = Ok f'.
Proof.
  induction fuel as [|fuel IH]; intros done f Hσ Hinv Hfuel; simpl.
  - destruct (stack f) eqn:Hst; [eauto|].
    pose proof (search_inv_bound _ _ Hinv) as Hb.
    rewrite Hst, length_app in Hb. simpl in *. lia.
  - destruct (stack f) eqn:Hst; [eauto|].
    destruct (search_body_ok σ done f Hσ Hinv)
      as (x & rest & nd & row & f1 & _ & _ & _ & _ & Hbody & _ & Hinv1);
      [by rewrite Hst|].
    rewrite Hbody, bind_Ok. apply (IH (x :: done)); [done..|]. simpl. lia.
Qed.

(** When nothing is pending, every node near the query has been visited. *)
Lemma search_complete done f :
  search_inv query n h0 done f → stack f = [] →
  ∀ x nd, heap f !! x = Some nd → near query n (word nd) → x ∈ done.
Proof.
  intros Hinv Hst. pose proof (inv_shape _ _ Hinv) as Hshape.
  intros x. induction (lt_wf x) as [x _ IH]. intros nd Hnd Hnear.
  destruct (parent nd) as [p|] eqn:Hpar.
  - destruct (shape_parent _ Hshape x nd p Hnd Hpar) as (Hlt & pn & c & Hpn & Hc).
    destruct (shape_child _ Hshape p pn c x Hpn Hc) as (nd' & Hnd' & _ & Hw).
    assert (nd' = nd) as -> by congruence.
    assert (Hp : p ∈ done).
    { apply (IH p Hlt pn Hpn). destruct Hnear as (j & Hj & Hlev).
      rewrite Hw in Hlev.
      destruct (lev_prefix (word pn) [c] (take j query)) as (j' & Hj' & Hle).
      rewrite take_take in Hle. exists (j' `min` j)%nat. split; lia. }
    pose proof (inv_closed _ _ _ _ _ Hinv p pn c x Hp Hpn) as Hcl.
    rewrite Hst in Hcl. apply Hcl; [|done].
    destruct Hnear as (j & Hj & Hlev). rewrite Hw in Hlev.
    destruct (lev_prefix (word pn) [c] (take j query)) as (j' & Hj' & Hle).
    rewrite take_take in Hle. exists (j' `min` j)%nat. split; lia.
  - pose proof (shape_orphan _ Hshape x nd Hnd Hpar) as ->.
    pose proof (inv_root _ _ _ _ _ Hinv) as Hr. by rewrite Hst in Hr.
Qed.

(** The result of a finished search: the words within [n] of the query. *)
Lemma search_result done f :
  search_inv query n h0 done f → stack f = [] →
  matching_set f = filter (λ w, Z.of_nat (lev w query) <= n) (words h0).
Proof.
  intros Hinv Hst. apply set_eq. intros w.
  rewrite elem_of_filter, <- (skel_words _ _ (inv_skel _ _ _ _ _ Hinv)).
  rewrite (inv_matching _ _ _ _ _ Hinv), elem_of_words. split.
  - intros (x & nd & _ & ? & ? & ? & ?). eauto 10.
  - intros (Hle & x & nd & Hnd & Hw & <-). exists x, nd. split_and!; try done.
    apply (search_complete done f Hinv Hst x nd Hnd).
    exists (length query). by rewrite firstn_all.
Qed.

End search.

(** A search under a lawful strategy, with fuel for every node, raises
    nothing and returns the words within [n] of the normalised query. *)
Lemma search_with_ok σ fuel t query n :
  lawful σ → wf t → (length (nodes t) ≤ fuel)%nat →
  ∃ t', search_with σ fuel t query n
        = Ok (filter (λ w, Z.of_nat (lev w (preprocess query)) <= n)
                (words (nodes t)), t') ∧
        wf t' ∧ skel <$> nodes t' = skel <$> nodes t.
Proof.
  intros Hσ Hwf Hfuel. pose proof Hwf as [Hroot Hshape].
  pose proof (search_inv_start (preprocess query) n (nodes t) Hshape t Hwf eq_refl)
    as Hinv.
  destruct (search_loop_ends (preprocess query) n (nodes t) Hshape σ fuel [] _ Hσ Hinv)
    as (f' & Hrun); [simpl; lia|].
  destruct (search_loop_inv (preprocess query) n (nodes t) Hshape σ fuel [] _ f' Hσ Hinv Hrun)
    as (done' & Hinv' & Hst).
  unfold search_with. rewrite Hrun, bind_Ok. eexists. split.
  - by rewrite (search_result _ _ _ Hshape done' f' Hinv' Hst).
  - split; [|apply Hinv']. split; [done|]. simpl.
    by eapply inv_shape.
Qed.

(** Whatever the fuel, a search that returns leaves the skeleton alone. *)
Lemma fuzzySearch_skel fuel t query n r t' :
  wf t → fuzzySearch fuel t query n = Ok (r, t') →
  wf t' ∧ skel <$> nodes t' = skel <$> nodes t.
Proof.
  intros Hwf Hrun. pose proof Hwf as [Hroot Hshape].
  rewrite fuzzySearch_lifo in Hrun. unfold search_with in Hrun.
  destruct (search_loop lifo fuel (preprocess query) n (fuzzySearch_start t))
    as [f'| |] eqn:Hloop; [|done..].
  rewrite bind_Ok in Hrun. injection Hrun as <- <-.
  pose proof (search_inv_start (preprocess query) n (nodes t) Hshape t Hwf eq_refl)
    as Hinv.
  destruct (search_loop_inv (preprocess query) n (nodes t) Hshape lifo fuel [] _ f'
              lifo_lawful Hinv Hloop) as (done' & Hinv' & _).
  split; [|apply Hinv']. split; [done|]. simpl. by eapply inv_shape.
Qed.

Lemma Trie_init_wf : wf Trie_init.
Proof.
  split; [done|]. simpl. split.
  - by eexists.
  - intros [|[|x]] nd p Hx Hp; simplify_eq/=.
  - intros [|[|x]] nd Hx Hp; simplify_eq/=. done.
  - intros [|[|x]] nd c y Hx Hin; simplify_eq/=. by apply elem_of_nil in Hin.
  - intros [|[|x]] nd Hx; simplify_eq/=. apply NoDup_nil_2.
Qed.

(** A trie a program can get is well formed and holds the words inserted. *)
Lemma built_wf t W : built t W → wf t ∧ words (nodes t) = W.
Proof.
  induction 1 as [|t W w t' _ [IHwf IHw] Hins|t W fuel query n r t' _ [IHwf IHw] Hrun].
  - split; [apply Trie_init_wf|done].
  - destruct (insert_ok t w IHwf) as (t'' & Hins' & Hwf' & Hw').
    assert (t'' = t') as -> by congruence. split; [done|]. by rewrite Hw', IHw.
  - destruct (fuzzySearch_skel fuel t query n r t' IHwf Hrun) as [Hwf' Hsk].
    split; [done|]. by rewrite (skel_words _ _ Hsk).
Qed.

Lemma for_each_ok {A S} (P : S → Prop) (body : S → A → result S) (l : list A) :
  (∀ st x, P st → ∃ st', body st x = Ok st' ∧ P st') →
  ∀ st, P st → ∃ st', Py.for_each l body st = Ok st' ∧ P st'.
Proof.
  intros Hbody. induction l as [|x l IH]; intros st Hst; simpl; [eauto|].
  destruct (Hbody st x Hst) as (st1 & -> & Hst1). rewrite bind_Ok. by apply IH.
Qed.

Lemma insert_all_built ws : ∀ t W,
  built t W →
  ∃ t', insert_all t ws = Ok t' ∧
        built t' (W ∪ list_to_set (preprocess <$> ws)).
Proof.
  unfold insert_all. induction ws as [|w ws IH]; intros t W Hb; simpl.
  - exists t. by rewrite (right_id_L ∅ (∪)).
  - destruct (insert_ok t w) as (t1 & Hins & _); [by eapply built_wf|].
    rewrite Hins, bind_Ok.
    destruct (IH t1 (W ∪ {[preprocess w]})) as (t' & -> & Hb');
      [by eapply built_insert|].
    exists t'. split; [done|]. by rewrite (assoc_L (∪)).
Qed.

Lemma built_trie_of ws : built (trie_of ws) (list_to_set (preprocess <$> ws)).
Proof.
  unfold trie_of.
  destruct (insert_all_built ws Trie_init ∅ built_init) as (t & -> & Hb).
  by rewrite (left_id_L ∅ (∪)) in Hb.
Qed.

Lemma lev_within (w q : str) (n : Z) :
  Z.of_nat (lev w q) <= n ↔
  ∃ e : script, src e = w ∧ dst e = q ∧ Z.of_nat (cost e) <= n.
Proof.
  split.
  - intros Hle. destruct (lev_script w q) as (e & ? & ? & Hc).
    exists e. split_and!; [done..|]. by rewrite Hc.
  - intros (e & <- & <- & Hc). pose proof (lev_le_cost e). lia.
Qed.

(** ** The properties of [Trie.fuzzySearch] *)

Lemma fuzzySearch_ok fuel t W query n :
  built t W → (length (nodes t) ≤ fuel)%nat →
  ∃ t', fuzzySearch fuel t query n
        = Ok (filter (λ w, Z.of_nat (lev w (preprocess query)) <= n) W, t') ∧
        built t' W ∧ length (nodes t') = length (nodes t).
Proof.
  intros Hb Hfuel. destruct (built_wf t W Hb) as [Hwf <-].
  destruct (search_with_ok lifo fuel t query n lifo_lawful Hwf Hfuel)
    as (t' & Hrun & _ & Hsk).
  rewrite <- fuzzySearch_lifo in Hrun. exists t'. split_and!; [done| |].
  - by eapply built_search.
  - apply (f_equal length) in Hsk. by rewrite !length_fmap in Hsk.
Qed.

(** C1 (oracle equivalence): on a trie built by any calls of [insert],
    with [W] the normalised words inserted, [fuzzySearch query n] with
    [n >= 0] returns exactly the words of [W] (the words of the terminal
    nodes) whose Levenshtein distance [lev] to the normalised query is at
    most [n], that is the words an edit script of at most [n]
    substitutions, insertions and deletions turns into the query. *)
Theorem fuzzySearch_oracle t W query n fuel :
  built t W → 0 <= n → (length (nodes t) ≤ fuel)%nat →
  ∃ r t', fuzzySearch fuel t query n = Ok (r, t') ∧
    W = words (nodes t) ∧
    r = filter (λ w, Z.of_nat (lev w (preprocess query)) <= n) W ∧
    ∀ w, w ∈ r ↔
         w ∈ W ∧ ∃ e : script, src e = w ∧ dst e = preprocess query ∧
                               Z.of_nat (cost e) <= n.
Proof.
  intros Hb _ Hfuel.
  destruct (fuzzySearch_ok fuel t W query n Hb Hfuel) as (t' & Hrun & _).
  eexists _, t'. split; [exact Hrun|]. split; [by destruct (built_wf t W Hb)|].
  split; [done|]. intros w. rewrite elem_of_filter, lev_within. tauto.
Qed.

Lemma fuzzySearch_oracle_witness :
  ∃ r t', fuzzySearch 20 smoke_trie (s_ "olivia") 2 = Ok (r, t') ∧
    list_to_set (preprocess <$> smoke_words) = words (nodes smoke_trie) ∧
    r = filter (λ w, Z.of_nat (lev w (preprocess (s_ "olivia"))) <= 2)
          (list_to_set (preprocess <$> smoke_words)) ∧
    ∀ w, w ∈ r ↔
         w ∈ (list_to_set (preprocess <$> smoke_words) : gset str) ∧
         ∃ e : script, src e = w ∧ dst e = preprocess (s_ "olivia") ∧
                       Z.of_nat (cost e) <= 2.
Proof.
  apply (fuzzySearch_oracle smoke_trie
           (list_to_set (preprocess <$> smoke_words)) (s_ "olivia") 2 20).
  - apply built_trie_of.
  - lia.
  - vm_compute. lia.
Defined.

(** C3 (monotonicity): the result for the bound [n] is included in the
    result for [n + 1], on the same trie, the second call being made
    after the first or instead of it. *)
Theorem fuzzySearch_monotone t W query n fuel :
  built t W → 0 <= n → (length (nodes t) ≤ fuel)%nat →
  ∃ r1 t1 r2 t2 r2' t2',
    fuzzySearch fuel t query n = Ok (r1, t1) ∧
    fuzzySearch fuel t1 query (n + 1) = Ok (r2, t2) ∧
    fuzzySearch fuel t query (n + 1) = Ok (r2', t2') ∧
    r1 ⊆ r2 ∧ r1 ⊆ r2'.
Proof.
  intros Hb _ Hfuel.
  destruct (fuzzySearch_ok fuel t W query n Hb Hfuel) as (t1 & Hrun1 & Hb1 & Hl1).
  destruct (fuzzySearch_ok fuel t1 W query (n + 1) Hb1) as (t2 & Hrun2 & _);
    [lia|].
  destruct (fuzzySearch_ok fuel t W query (n + 1) Hb Hfuel) as (t2' & Hrun2' & _).
  eexists _, t1, _, t2, _, t2'. split_and!; [done..| |];
    intros w; rewrite !elem_of_filter; intros [Hle ?]; split; [lia|done|lia|done].
Qed.

Lemma fuzzySearch_monotone_witness :
  ∃ r1 t1 r2 t2 r2' t2',
    fuzzySearch 20 smoke_trie (s_ "olivier") 1 = Ok (r1, t1) ∧
    fuzzySearch 20 t1 (s_ "olivier") (1 + 1) = Ok (r2, t2) ∧
    fuzzySearch 20 smoke_trie (s_ "olivier") (1 + 1) = Ok (r2', t2') ∧
    r1 ⊆ r2 ∧ r1 ⊆ r2'.
Proof.
  apply (fuzzySearch_monotone smoke_trie
           (list_to_set (preprocess <$> smoke_words)) (s_ "olivier") 1 20).
  - apply built_trie_of.
  - lia.
  - vm_compute. lia.
Defined.

(** C4 (exactness at distance 0): [fuzzySearch w 0] returns the singleton
    of the normalised [w] on a trie that holds it, so on the trie that
    holds exactly it, and the empty set on a trie that does not. *)
Theorem fuzzySearch_exact t W w fuel :
  built t W → (length (nodes t) ≤ fuel)%nat →
  ∃ r t', fuzzySearch fuel t w 0 = Ok (r, t') ∧
    (preprocess w ∈ W → r = {[preprocess w]}) ∧
    (preprocess w ∉ W → r = ∅).
Proof.
  intros Hb Hfuel.
  destruct (fuzzySearch_ok fuel t W w 0 Hb Hfuel) as (t' & Hrun & _).
  eexists _, t'. split; [exact Hrun|].
  assert (Hz : ∀ v, Z.of_nat (lev v (preprocess w)) <= 0 ↔ v = preprocess w).
  { intros v. rewrite <- lev_zero. lia. }
  split; intros Hw; apply set_eq; intros v; rewrite elem_of_filter, Hz.
  - rewrite elem_of_singleton. split; [tauto|]. by intros ->.
  - split; [intros [-> ?]; done|]. by intros ?%not_elem_of_empty.
Qed.

Lemma fuzzySearch_exact_witness :
  ∃ r t', fuzzySearch 20 (trie_of [s_ "Oliver"]) (s_ "Oliver") 0 = Ok (r, t') ∧
    (preprocess (s_ "Oliver")
       ∈ (list_to_set (preprocess <$> [s_ "Oliver"]) : gset str) →
     r = {[preprocess (s_ "Oliver")]}) ∧
    (preprocess (s_ "Oliver")
       ∉ (list_to_set (preprocess <$> [s_ "Oliver"]) : gset str) →
     r = ∅).
Proof.
  apply (fuzzySearch_exact (trie_of [s_ "Oliver"])
           (list_to_set (preprocess <$> [s_ "Oliver"])) (s_ "Oliver") 20).
  - apply built_trie_of.
  - vm_compute. lia.
Defined.

(** C5 (traversal-order independence): two searches that visit the
    pending nodes under any two lawful strategies (a stack, a queue, the
    children in any order) return the same set, which is the set the
    source's [fuzzySearch] returns. *)
Theorem search_order_independent t W query n σ1 σ2 fuel :
  built t W → 0 <= n → lawful σ1 → lawful σ2 →
  (length (nodes t) ≤ fuel)%nat →
  ∃ r t0 t1 t2,
    fuzzySearch fuel t query n = Ok (r, t0) ∧
    search_with σ1 fuel t query n = Ok (r, t1) ∧
    search_with σ2 fuel t query n = Ok (r, t2).
Proof.
  intros Hb _ H1 H2 Hfuel. destruct (built_wf t W Hb) as [Hwf _].
  destruct (search_with_ok lifo fuel t query n lifo_lawful Hwf Hfuel)
    as (t0 & Hrun0 & _).
  destruct (search_with_ok σ1 fuel t query n H1 Hwf Hfuel) as (t1 & Hrun1 & _).
  destruct (search_with_ok σ2 fuel t query n H2 Hwf Hfuel) as (t2 & Hrun2 & _).
  rewrite <- fuzzySearch_lifo in Hrun0. by eexists _, t0, t1, t2.
Qed.

Lemma search_order_independent_witness :
  ∃ r t0 t1 t2,
    fuzzySearch 20 smoke_trie (s_ "olivia") 3 = Ok (r, t0) ∧
    search_with fifo 20 smoke_trie (s_ "olivia") 3 = Ok (r, t1) ∧
    search_with lifo_first_child 20 smoke_trie (s_ "olivia") 3 = Ok (r, t2).
Proof.
  apply (search_order_independent smoke_trie
           (list_to_set (preprocess <$> smoke_words)) (s_ "olivia") 3
           fifo lifo_first_child 20).
  - apply built_trie_of.
  - lia.
  - apply fifo_lawful.
  - apply lifo_first_child_lawful.
  - vm_compute. lia.
Defined.

(** C7, as the code has it: [fuzzySearch] has no guard on the bound; with
    a negative bound it raises nothing and returns the empty set. *)
Theorem fuzzySearch_negative_bound t W query n fuel :
  built t W → n < 0 → (length (nodes t) ≤ fuel)%nat →
  ∃ t', fuzzySearch fuel t query n = Ok (∅, t').
Proof.
  intros Hb Hn Hfuel.
  destruct (fuzzySearch_ok fuel t W query n Hb Hfuel) as (t' & Hrun & _).
  exists t'. rewrite Hrun. do 2 f_equal. apply set_eq. intros w.
  rewrite elem_of_filter. split; [lia|]. by intros ?%not_elem_of_empty.
Qed.

Lemma fuzzySearch_negative_bound_witness :
  ∃ t', fuzzySearch 20 smoke_trie (s_ "olivier") (-1) = Ok (∅, t').
Proof.
  apply (fuzzySearch_negative_bound smoke_trie
           (list_to_set (preprocess <$> smoke_words)) (s_ "olivier") (-1) 20).
  - apply built_trie_of.
  - lia.
  - vm_compute. lia.
Defined.

(** C7, as the specification states it, fails: with the bound [-1] the
    search of the test trie raises no exception. *)
Lemma fuzzySearch_negative_bound_no_error :
  ¬ ∃ e, fuzzySearch 20 smoke_trie (s_ "olivier") (-1) = Raise e.
Proof. intros [e He]. vm_compute in He. discriminate He. Qed.

(** C8 (empty query): when the query normalises to the empty string,
    [fuzzySearch query n] returns the inserted words of length at most
    [n]. *)
Theorem fuzzySearch_empty_query t W query n fuel :
  built t W → 0 <= n → preprocess query = [] →
  (length (nodes t) ≤ fuel)%nat →
  ∃ t', fuzzySearch fuel t query n
        = Ok (filter (λ w : str, Py.len w <= n) W, t').
Proof.
  intros Hb _ Hq Hfuel.
  destruct (fuzzySearch_ok fuel t W query n Hb Hfuel) as (t' & Hrun & _).
  exists t'. rewrite Hrun, Hq. do 2 f_equal. apply set_eq. intros w.
  by rewrite !elem_of_filter, lev_nil_r.
Qed.

Lemma fuzzySearch_empty_query_witness :
  ∃ t', fuzzySearch 20 (trie_of [s_ "A"; s_ "C"; s_ "Oli"; s_ "tv"]) (s_ "?!") 2
        = Ok (filter (λ w : str, Py.len w <= 2)
                (list_to_set (preprocess <$> [s_ "A"; s_ "C"; s_ "Oli"; s_ "tv"])),
              t').
Proof.
  apply (fuzzySearch_empty_query (trie_of [s_ "A"; s_ "C"; s_ "Oli"; s_ "tv"])
           (list_to_set (preprocess <$> [s_ "A"; s_ "C"; s_ "Oli"; s_ "tv"]))
           (s_ "?!") 2 20).
  - apply built_trie_of.
  - lia.
  - reflexivity.
  - vm_compute. lia.
Defined.

(** ** The iterations of the loop, one by one *)

Lemma bind_Ok_inv {A B} (m : result A) (f : A → result B) b :
  m ≫= f = Ok b → ∃ a, m = Ok a ∧ f a = Ok b.
Proof. destruct m as [a| |]; [|done..]. intros H. by exists a. Qed.

Lemma fuzzySearch_steps_lifo k query n f :
  fuzzySearch_steps k query n f = search_steps lifo k query n f.
Proof.
  induction k as [|k IH]; simpl; [done|]. rewrite IH.
  destruct (search_steps lifo k query n f); [|done..].
  apply fuzzySearch_body_lifo.
Qed.

Section trace.
Context (query : str) (n : Z) (h0 : store) (σ : strategy) (f0 : frame).
Hypothesis Hshape0 : shape h0.
Hypothesis Hσ : lawful σ.
Hypothesis Hstart : search_inv query n h0 [] f0.

(** After [k] iterations the visited nodes are the nodes the iterations
    have taken, and each holds the row its iteration computed. *)
Lemma search_steps_inv k : ∀ fk,
  search_steps σ k query n f0 = Ok fk →
  ∃ done, search_inv query n h0 done fk ∧
    (∀ j fj x rest, (j < k)%nat → search_steps σ j query n f0 = Ok fj →
       take_next σ (stack fj) = Some (x, rest) → x ∈ done) ∧
    (∀ p, p ∈ done →
       ∃ j fj rest pn row, (j < k)%nat ∧
         search_steps σ j query n f0 = Ok fj ∧
         take_next σ (stack fj) = Some (p, rest) ∧
         heap fj !! p = Some pn ∧
         get_levenshtein_dists (heap fj) pn query n = Ok row ∧
         heap fk !! p = Some (set_dists pn (Some row))).
Proof.
  induction k as [|k IH]; intros fk Hrun; simpl in Hrun.
  - injection Hrun as <-. exists []. split; [done|]. split.
    + intros; lia.
    + intros p Hp. by apply elem_of_nil in Hp.
  - apply bind_Ok_inv in Hrun as (f1 & Hrun1 & Hbody).
    destruct (IH f1 Hrun1) as (done & Hinv & Hpast & Hrows).
    assert (Hne : stack f1 ≠ []).
    { intros Hnil. unfold search_body in Hbody.
      by rewrite Hnil, (take_next_nil σ Hσ) in Hbody. }
    destruct (search_body_ok query n h0 Hshape0 σ done f1 Hσ Hinv Hne)
      as (x & rest & nd & row & f' & Htake & Hxd & Hnd & Hget & Hbody' & Hheap & Hinv').
    assert (f' = fk) as -> by congruence.
    exists (x :: done). split; [done|]. split.
    + intros j fj y rest' Hj Hrunj Htakej.
      destruct (decide (j = k)) as [->|Hjk].
      * assert (fj = f1) as -> by congruence.
        assert (y = x) as -> by congruence. left.
      * right. apply (Hpast j fj y rest'); [lia|done..].
    + intros p Hp. apply elem_of_cons in Hp as [->|Hp].
      * exists k, f1, rest, nd, row. split_and!; [lia|done..|].
        rewrite Hheap. apply list_lookup_insert_eq. by eapply lookup_lt_Some.
      * destruct (Hrows p Hp) as (j & fj & rest' & pn & prow & ? & ? & ? & ? & ? & Hp1).
        exists j, fj, rest', pn, prow. split_and!; [lia|done..|].
        rewrite Hheap, list_lookup_insert_ne; [done|]. by intros ->.
Qed.

End trace.

(** The loop is its iterations: the frame it ends with is the frame after
    some number of them, with nothing pending. *)
Lemma fuzzySearch_steps_shift k query n f :
  fuzzySearch_steps (S k) query n f
  = fuzzySearch_body query n f ≫= fuzzySearch_steps k query n.
Proof.
  induction k as [|k IH].
  - simpl. by destruct (fuzzySearch_body query n f).
  - change (fuzzySearch_steps (S (S k)) query n f)
      with (fuzzySearch_steps (S k) query n f ≫= fuzzySearch_body query n).
    rewrite IH. by destruct (fuzzySearch_body query n f).
Qed.

Lemma fuzzySearch_loop_steps fuel query n : ∀ f f',
  fuzzySearch_loop fuel query n f = Ok f' →
  ∃ k, (k ≤ fuel)%nat ∧ fuzzySearch_steps k query n f = Ok f' ∧ stack f' = [].
Proof.
  induction fuel as [|fuel IH]; intros f f' Hrun; simpl in Hrun.
  - destruct (stack f) eqn:Hst; [|done]. injection Hrun as <-. by exists 0%nat.
  - destruct (stack f) eqn:Hst; [injection Hrun as <-; exists 0%nat; split; [lia|done]|].
    apply bind_Ok_inv in Hrun as (f1 & Hbody & Hrun).
    destruct (IH f1 f' Hrun) as (k & Hk & Hsteps & Hnil).
    exists (S k). split; [lia|]. split; [|done].
    by rewrite fuzzySearch_steps_shift, Hbody, bind_Ok.
Qed.

(** C6 (each row once, after the parent's): in a search of a built trie,
    let [x] be the node that the iteration after the first [i] pops.  It
    is not in [visited], so the iteration computes its row, and the
    computation succeeds; no other iteration pops [x]; and when [x] has a
    parent [p], an earlier iteration popped [p] and computed the row that
    [p] holds now, which is the row the computation for [x] reads. *)
Theorem fuzzySearch_rows_once t W query n i fi x :
  built t W →
  fuzzySearch_steps i (preprocess query) n (fuzzySearch_start t) = Ok fi →
  head (stack fi) = Some x →
  (x ∉ visited fi) ∧
  (∃ nd row, heap fi !! x = Some nd ∧
     get_levenshtein_dists (heap fi) nd (preprocess query) n = Ok row) ∧
  (∀ j fj,
     fuzzySearch_steps j (preprocess query) n (fuzzySearch_start t) = Ok fj →
     head (stack fj) = Some x → j = i) ∧
  (∀ nd p, heap fi !! x = Some nd → parent nd = Some p →
     ∃ j fj pn row, (j < i)%nat ∧
       fuzzySearch_steps j (preprocess query) n (fuzzySearch_start t) = Ok fj ∧
       head (stack fj) = Some p ∧
       heap fj !! p = Some pn ∧
       get_levenshtein_dists (heap fj) pn (preprocess query) n = Ok row ∧
       ∃ pn', heap fi !! p = Some pn' ∧ dists pn' = Some row).
Proof.
  intros Hb Hrun Hhead. destruct (built_wf t W Hb) as [Hwf _].
  pose proof Hwf as [_ Hshape].
  pose proof (search_inv_start (preprocess query) n (nodes t) Hshape t Hwf eq_refl)
    as Hstart.
  pose proof (search_steps_inv (preprocess query) n (nodes t) lifo
                (fuzzySearch_start t) Hshape lifo_lawful Hstart) as Hsteps.
  assert (Hpop : ∀ f y, head (stack f) = Some y →
            y ∈ stack f ∧ ∃ rest, take_next lifo (stack f) = Some (y, rest)).
  { intros f y Hy. destruct (stack f) as [|y' rest]; [done|].
    injection Hy as ->. split; [left|by exists rest]. }
  rewrite fuzzySearch_steps_lifo in Hrun.
  destruct (Hsteps i fi Hrun) as (done & Hinv & Hpast & Hrows).
  destruct (Hpop fi x Hhead) as (Hx & rest & Htake).
  assert (Hxd : x ∉ done).
  { intros Hxd. pose proof (inv_nodup _ _ _ _ _ Hinv) as Hnd.
    apply NoDup_app in Hnd as (_ & Hdisj & _). by apply (Hdisj x). }
  split_and!.
  - rewrite (inv_visited _ _ _ _ _ Hinv). apply not_elem_of_empty.
  - destruct (pending_row _ _ _ Hshape done fi x Hinv Hx) as (nd & row & ? & ? & _).
    by exists nd, row.
  - intros j fj Hrunj Hheadj. rewrite fuzzySearch_steps_lifo in Hrunj.
    destruct (Hpop fj x Hheadj) as (Hxj & restj & Htakej).
    destruct (lt_eq_lt_dec j i) as [[Hlt| ->]|Hgt]; [|done|].
    + destruct Hxd. by apply (Hpast j fj x restj).
    + destruct (Hsteps j fj Hrunj) as (donej & Hinvj & Hpastj & _).
      pose proof (Hpastj i fi x rest Hgt Hrun Htake) as Hxdj.
      pose proof (inv_nodup _ _ _ _ _ Hinvj) as Hnd.
      apply NoDup_app in Hnd as (_ & Hdisj & _). by destruct (Hdisj x).
  - intros nd p Hnd Hpar.
    assert (Hp : p ∈ done).
    { apply (inv_parent _ _ _ _ _ Hinv x nd p); [|done..].
      apply elem_of_app. by left. }
    destruct (Hrows p Hp) as (j & fj & rest' & pn & row & Hj & Hrunj & Htakej & Hpn & Hget & Hnow).
    exists j, fj, pn, row. rewrite fuzzySearch_steps_lifo. split_and!; [done..| | | |].
    + simpl in Htakej. destruct (stack fj); [done|]. simpl in *. congruence.
    + done.
    + done.
    + by eexists.
Qed.

Lemma fuzzySearch_rows_once_witness :
  let q := preprocess (s_ "olivia") in
  let fi := frame_after 2 smoke_trie (s_ "olivia") 1 in
  (11%nat ∉ visited fi) ∧
  (∃ nd row, heap fi !! 11%nat = Some nd ∧
     get_levenshtein_dists (heap fi) nd q 1 = Ok row) ∧
  (∀ j fj,
     fuzzySearch_steps j q 1 (fuzzySearch_start smoke_trie) = Ok fj →
     head (stack fj) = Some 11%nat → j = 2%nat) ∧
  (∀ nd p, heap fi !! 11%nat = Some nd → parent nd = Some p →
     ∃ j fj pn row, (j < 2)%nat ∧
       fuzzySearch_steps j q 1 (fuzzySearch_start smoke_trie) = Ok fj ∧
       head (stack fj) = Some p ∧
       heap fj !! p = Some pn ∧
       get_levenshtein_dists (heap fj) pn q 1 = Ok row ∧
       ∃ pn', heap fi !! p = Some pn' ∧ dists pn' = Some row).
Proof.
  apply (fuzzySearch_rows_once smoke_trie
           (list_to_set (preprocess <$> smoke_words)) (s_ "olivia") 1 2
           (frame_after 2 smoke_trie (s_ "olivia") 1) 11).
  - apply built_trie_of.
  - vm_compute. reflexivity.
  - vm_compute. reflexivity.
Defined.

(** ** The index *)

Lemma Index_add_word_ok doc ix w :
  (∃ W, built (trie ix) W) →
  ∃ ix', Index_add_word doc ix w = Ok ix' ∧ ∃ W, built (trie ix') W.
Proof.
  intros [W Hb]. unfold Index_add_word.
  destruct (insert_ok (trie ix) w) as (t' & Hins & _); [by eapply built_wf|].
  rewrite Hins, bind_Ok. eexists. split; [done|]. simpl.
  eexists. by eapply built_insert.
Qed.

(** [Index(documents)] raises nothing, and its trie is a built trie. *)
Lemma Index_init_ok documents :
  ∃ ix W, Index_init documents = Ok ix ∧ built (trie ix) W.
Proof.
  destruct (for_each_ok (λ ix, ∃ W, built (trie ix) W) Index_add_doc documents)
    with (st := mkIndex Trie_init ∅) as (ix & Hrun & W & Hb).
  - intros ix doc Hix. unfold Index_add_doc. apply for_each_ok; [|done].
    intros. by apply Index_add_word_ok.
  - exists ∅. apply built_init.
  - by exists ix, W.
Qed.

(** The documents of a word: its entry in the index, none when it has no
    entry. *)
Lemma collect_docs_spec d ws : ∀ acc,
  (foldl (λ '(d, out) w,
            let '(d', docs) := defaultdict_getitem d w in (d', out ∪ docs))
         (d, acc) ws).2
  = acc ∪ ⋃ ((λ w, default ∅ (d !! w)) <$> ws).
Proof.
  revert d. induction ws as [|w ws IH]; intros d acc; simpl.
  - by rewrite (right_id_L ∅ (∪)).
  - unfold defaultdict_getitem at 2. destruct (d !! w) as [v|] eqn:Hw; simpl.
    + by rewrite IH, (assoc_L (∪)).
    + rewrite IH, (right_id_L ∅ (∪)), (left_id_L ∅ (∪)). f_equal. f_equal.
      apply list_fmap_ext. intros _ w' _.
      destruct (decide (w = w')) as [->|Hne].
      * by rewrite lookup_insert_eq, Hw.
      * by rewrite lookup_insert_ne.
Qed.

Lemma collect_docs_union d ws :
  (collect_docs d ws).2 = ⋃ ((λ w, default ∅ (d !! w)) <$> ws).
Proof.
  unfold collect_docs. by rewrite collect_docs_spec, (left_id_L ∅ (∪)).
Qed.

Lemma Index_fuzzySearch_inv fuel ix query n r ix' :
  Index_fuzzySearch fuel ix query n = Ok (r, ix') →
  ∃ ws t', fuzzySearch fuel (trie ix) query n = Ok (ws, t') ∧
    r = (collect_docs (inverted_index ix) (elements ws)).2 ∧
    ix' = mkIndex t' (collect_docs (inverted_index ix) (elements ws)).1.
Proof.
  unfold Index_fuzzySearch. intros Hrun.
  apply bind_Ok_inv in Hrun as ([ws t'] & Hsearch & Hrun).
  exists ws, t'. split; [done|].
  destruct (collect_docs (inverted_index ix) (elements ws)) as [d out].
  by injection Hrun as <- <-.
Qed.

Lemma index_search_oracle_inv fuel ix query n r ix' :
  index_search_oracle fuel ix query n = Ok (r, ix') →
  ∃ ws, trie_search_oracle fuel (trie ix) query n = Ok ws ∧
    r = (collect_docs (inverted_index ix) (elements ws)).2 ∧
    ix' = mkIndex (trie ix) (collect_docs (inverted_index ix) (elements ws)).1.
Proof.
  unfold index_search_oracle. intros Hrun.
  apply bind_Ok_inv in Hrun as (ws & Hsearch & Hrun).
  exists ws. split; [done|].
  destruct (collect_docs (inverted_index ix) (elements ws)) as [d out].
  by injection Hrun as <- <-.
Qed.

(** The trie of an index a program can get is a trie a program can get. *)
Lemma index_state_built documents ix :
  index_state documents ix → ∃ W, built (trie ix) W.
Proof.
  induction 1 as [ix Hinit|ix fuel query n r ix' _ [W Hb] Hrun
                 |ix fuel query n r ix' _ [W Hb] Hrun].
  - destruct (Index_init_ok documents) as (ix0 & W & Hinit0 & Hb).
    assert (ix0 = ix) as -> by congruence. by exists W.
  - apply Index_fuzzySearch_inv in Hrun as (ws & t' & Hsearch & _ & ->).
    exists W. simpl. by eapply built_search.
  - apply index_search_oracle_inv in Hrun as (ws & _ & _ & ->). by exists W.
Qed.

Lemma index_state_after documents fuel ix query n :
  index_state documents ix →
  index_state documents (index_after fuel ix query n).
Proof.
  intros Hix. unfold index_after.
  destruct (Index_fuzzySearch fuel ix query n) as [[r ix']| |] eqn:Hrun; [|done..].
  by eapply index_searched.
Qed.

(** C2 (index composition): on an index built from any documents, as
    [Index(documents)] builds it or as any earlier searches have left it,
    [Index.fuzzySearch query n] returns the union, over the words that
    [fuzzySearch query n] returns on the index's trie, of the sets of
    documents the index holds for them (none for a word without an
    entry); the result is a set, so a document reached through several
    words is in it once. *)
Theorem Index_fuzzySearch_union documents ix query n fuel :
  index_state documents ix → 0 <= n →
  (length (nodes (trie ix)) ≤ fuel)%nat →
  ∃ ws t' ix',
    fuzzySearch fuel (trie ix) query n = Ok (ws, t') ∧
    Index_fuzzySearch fuel ix query n
    = Ok (⋃ ((λ w, default ∅ (inverted_index ix !! w)) <$> elements ws), ix') ∧
    ∀ doc, doc ∈ (⋃ ((λ w, default ∅ (inverted_index ix !! w))
                       <$> elements ws) : gset str) ↔
           ∃ w docs, w ∈ ws ∧ inverted_index ix !! w = Some docs ∧
                     doc ∈ docs.
Proof.
  intros Hix _ Hfuel.
  destruct (index_state_built documents ix Hix) as [W Hb].
  destruct (fuzzySearch_ok fuel (trie ix) W query n Hb Hfuel) as (t' & Hrun & _).
  set (ws := filter (λ w, Z.of_nat (lev w (preprocess query)) <= n) W) in *.
  exists ws, t', (mkIndex t' (collect_docs (inverted_index ix) (elements ws)).1).
  split; [exact Hrun|]. split.
  - unfold Index_fuzzySearch. rewrite Hrun, bind_Ok.
    rewrite <- collect_docs_union.
    by destruct (collect_docs (inverted_index ix) (elements ws)).
  - intros doc. rewrite elem_of_union_list. split.
    + intros (X & HX & Hdoc). apply list_elem_of_fmap in HX as (w & -> & Hw).
      apply elem_of_elements in Hw.
      destruct (inverted_index ix !! w) as [docs|] eqn:Hd; simpl in Hdoc;
        [by exists w, docs|]. by apply not_elem_of_empty in Hdoc.
    + intros (w & docs & Hw & Hd & Hdoc). exists docs. split; [|done].
      apply list_elem_of_fmap. exists w. rewrite Hd. split; [done|].
      by apply elem_of_elements.
Qed.

Lemma Index_fuzzySearch_union_witness :
  let ix := index_after 20 (index_of [cafe; s_ "cat dog"]) (s_ "caf") 0 in
  ∃ ws t' ix',
    fuzzySearch 20 (trie ix) (s_ "cats") 1 = Ok (ws, t') ∧
    Index_fuzzySearch 20 ix (s_ "cats") 1
    = Ok (⋃ ((λ w, default ∅ (inverted_index ix !! w)) <$> elements ws), ix') ∧
    ∀ doc, doc ∈ (⋃ ((λ w, default ∅ (inverted_index ix !! w))
                       <$> elements ws) : gset str) ↔
           ∃ w docs, w ∈ ws ∧ inverted_index ix !! w = Some docs ∧
                     doc ∈ docs.
Proof.
  intros ix.
  apply (Index_fuzzySearch_union [cafe; s_ "cat dog"] ix (s_ "cats") 1 20).
  - apply index_state_after, index_built. by_evaluation.
  - lia.
  - vm_compute. lia.
Defined.

(** The scenario of the specification: [dog] at distance 0 finds both
    documents, [cats] at distance 1 finds the first. *)
Example Index_fuzzySearch_pets :
  returned (Index_fuzzySearch 20 (index_of pets) (s_ "dog") 0)
  = Some {[s_ "cat dog"; s_ "dog mouse"]} ∧
  returned (Index_fuzzySearch 20 (index_of pets) (s_ "cats") 1)
  = Some {[s_ "cat dog"]}.
Proof. split; by_evaluation. Qed.

(** The scenarios of [test_fuzzy_search_smoke]. *)
Example fuzzySearch_smoke :
  returned (fuzzySearch 20 smoke_trie (s_ "olivier") 0)
  = Some {[s_ "olivier"]} ∧
  returned (fuzzySearch 20 smoke_trie (s_ "olivier") 1)
  = Some {[s_ "oliver"; s_ "olivier"; s_ "alivier"]} ∧
  returned (fuzzySearch 20 smoke_trie (s_ "olivier") 2)
  = Some {[s_ "oliver"; s_ "olivier"; s_ "alivier"; s_ "aliver"]} ∧
  returned (fuzzySearch 20 smoke_trie (s_ "olivia") 0) = Some ∅ ∧
  returned (fuzzySearch 20 smoke_trie (s_ "olivia") 1) = Some ∅ ∧
  returned (fuzzySearch 20 smoke_trie (s_ "olivia") 2)
  = Some {[s_ "oliver"; s_ "olivier"]} ∧
  returned (fuzzySearch 20 smoke_trie (s_ "olivia") 3)
  = Some {[s_ "oliver"; s_ "olivier"; s_ "alivier"; s_ "aliver"]}.
Proof. split_and!; by_evaluation. Qed.

(** *** Where the index and its trie agree

    On ASCII documents a token is left as it is by the second
    normalisation, the keys of [inverted_index] are the words of the trie
    and a search leaves [inverted_index] as it is. *)

Lemma lower_char_ascii c :
  (Py.code c < 128)%N →
  (Py.code (Py.lower_char c) < 128)%N ∧
  Py.lower_char (Py.lower_char c) = Py.lower_char c.
Proof.
  destruct c as [[] [] [] [] [] [] [] []]; vm_compute; try done; by intros _.
Qed.

Lemma preprocess_plain s : Forall plain s → preprocess s = s.
Proof.
  unfold preprocess, Py.encode_ascii_replace_decode, Py.translate_delete, Py.lower.
  induction 1 as [|c s (Hc & Hp & Hl) _ IH]; [done|].
  rewrite fmap_cons, Hl, filter_cons_True by done. rewrite fmap_cons, IH.
  f_equal. unfold Py.ascii_replace_char. by apply N.ltb_lt in Hc as ->.
Qed.

Lemma preprocess_ascii s : ascii_only s → Forall plain (preprocess s).
Proof.
  unfold preprocess, Py.encode_ascii_replace_decode, Py.translate_delete, Py.lower.
  induction 1 as [|c s Hc _ IH]; [constructor|].
  destruct (lower_char_ascii c Hc) as [Hlt Hidem].
  rewrite fmap_cons. destruct (decide (Py.lower_char c ∉ Py.punctuation)) as [Hp|Hp].
  - rewrite filter_cons_True, fmap_cons by done. constructor; [|done].
    unfold Py.ascii_replace_char. pose proof Hlt as Hlt'.
    apply N.ltb_lt in Hlt' as ->. by split_and!.
  - by rewrite filter_cons_False.
Qed.

Lemma split_from_Forall (P : ascii → Prop) s : ∀ tok,
  Forall P tok → Forall P s → Forall (Forall P) (Py.split_from tok s).
Proof.
  induction s as [|c s IH]; intros tok Htok Hs; simpl.
  - destruct tok; [constructor|]. constructor; [done|constructor].
  - apply Forall_cons in Hs as [Hc Hs]. destruct (Py.isspace c).
    + destruct tok; [by apply IH|]. constructor; [done|]. by apply IH.
    + apply IH; [|done]. apply Forall_app. split; [done|].
      constructor; [done|constructor].
Qed.

Lemma dom_inverted_index_add (d : gmap str (gset str)) w doc :
  dom (inverted_index_add d w doc) = dom d ∪ {[w]}.
Proof.
  unfold inverted_index_add, defaultdict_getitem.
  destruct (d !! w) as [v|] eqn:Hw; rewrite !dom_insert_L.
  - apply (comm_L (∪)).
  - by rewrite (assoc_L (∪)), (idemp_L (∪)), (comm_L (∪)).
Qed.

Lemma Index_add_word_agree doc ix w :
  keys_agree ix → Forall plain w →
  ∃ ix', Index_add_word doc ix w = Ok ix' ∧ keys_agree ix'.
Proof.
  intros (W & Hb & Hdom) Hw. unfold Index_add_word.
  destruct (insert_ok (trie ix) w) as (t' & Hins & _); [by eapply built_wf|].
  rewrite Hins, bind_Ok. eexists. split; [done|].
  exists (W ∪ {[preprocess w]}). simpl. split; [by eapply built_insert|].
  by rewrite dom_inverted_index_add, Hdom, (preprocess_plain w).
Qed.

Lemma for_each_Forall {A S} (P : S → Prop) (Q : A → Prop)
    (body : S → A → result S) (l : list A) :
  (∀ st x, P st → Q x → ∃ st', body st x = Ok st' ∧ P st') →
  Forall Q l → ∀ st, P st → ∃ st', Py.for_each l body st = Ok st' ∧ P st'.
Proof.
  intros Hbody. induction 1 as [|x l Hx _ IH]; intros st Hst; simpl; [eauto|].
  destruct (Hbody st x Hst Hx) as (st1 & -> & Hst1). rewrite bind_Ok. by apply IH.
Qed.

Lemma Index_init_ascii documents ix :
  Forall ascii_only documents → Index_init documents = Ok ix →
  words (nodes (trie ix)) = dom (inverted_index ix).
Proof.
  intros Hdocs Hinit.
  destruct (for_each_Forall keys_agree ascii_only Index_add_doc documents)
    with (st := mkIndex Trie_init ∅) as (ix' & Hrun & W & Hb & Hdom).
  - intros ix0 doc Hix Hdoc. unfold Index_add_doc.
    apply (for_each_Forall keys_agree (Forall plain)); [|
      by apply split_from_Forall, preprocess_ascii|done].
    intros. by apply Index_add_word_agree.
  - done.
  - exists ∅. split; [apply built_init|]. simpl. apply dom_empty_L.
  - unfold Index_init in Hinit. assert (ix' = ix) as -> by congruence.
    destruct (built_wf _ _ Hb) as [_ Hw]. by rewrite Hw, Hdom.
Qed.

Lemma collect_docs_known (d : gmap str (gset str)) ws :
  (∀ w, w ∈ ws → is_Some (d !! w)) → (collect_docs d ws).1 = d.
Proof.
  unfold collect_docs. generalize (∅ : gset str).
  induction ws as [|w ws IH]; intros acc Hws; simpl; [done|].
  unfold defaultdict_getitem at 2.
  destruct (Hws w) as [v Hv]; [left|]. rewrite Hv. apply IH.
  intros w' Hw'. apply Hws. by right.
Qed.

Lemma collect_docs_dom ws : ∀ (d : gmap str (gset str)),
  dom d ⊆ dom (collect_docs d ws).1.
Proof.
  unfold collect_docs. generalize (∅ : gset str).
  induction ws as [|w ws IH]; intros acc d; simpl; [done|].
  unfold defaultdict_getitem at 2. destruct (d !! w) as [v|] eqn:Hw.
  - apply IH.
  - etrans; [|apply IH]. rewrite dom_insert. apply union_subseteq_r.
Qed.

(** On ASCII documents every word of the trie is a key, whatever searches
    the index has served. *)
Lemma index_state_keys documents ix :
  Forall ascii_only documents → index_state documents ix →
  ∃ W, built (trie ix) W ∧ W ⊆ dom (inverted_index ix).
Proof.
  intros Hdocs.
  induction 1 as [ix Hinit|ix fuel query n r ix' _ (W & Hb & Hsub) Hrun
                 |ix fuel query n r ix' _ (W & Hb & Hsub) Hrun].
  - destruct (Index_init_ok documents) as (ix0 & W & Hinit0 & Hb).
    assert (ix0 = ix) as -> by congruence. exists W. split; [done|].
    rewrite <- (Index_init_ascii documents ix Hdocs Hinit).
    by destruct (built_wf _ _ Hb) as [_ ->].
  - apply Index_fuzzySearch_inv in Hrun as (ws & t' & Hsearch & _ & ->).
    exists W. simpl. split; [by eapply built_search|].
    etrans; [done|apply collect_docs_dom].
  - apply index_search_oracle_inv in Hrun as (ws & _ & _ & ->).
    exists W. simpl. split; [done|]. etrans; [done|apply collect_docs_dom].
Qed.

Lemma Index_fuzzySearch_ascii documents ix query n fuel :
  Forall ascii_only documents → index_state documents ix →
  (length (nodes (trie ix)) ≤ fuel)%nat →
  ∃ r ix', Index_fuzzySearch fuel ix query n = Ok (r, ix') ∧
           inverted_index ix' = inverted_index ix.
Proof.
  intros Hdocs Hix Hfuel.
  destruct (index_state_keys documents ix Hdocs Hix) as (W & Hb & Hsub).
  destruct (fuzzySearch_ok fuel (trie ix) W query n Hb Hfuel) as (t' & Hrun & _).
  unfold Index_fuzzySearch. rewrite Hrun, bind_Ok.
  set (ws := filter (λ w, Z.of_nat (lev w (preprocess query)) <= n) W).
  pose proof (collect_docs_known (inverted_index ix) (elements ws)) as Hd.
  destruct (collect_docs (inverted_index ix) (elements ws)) as [d out].
  eexists _, _. split; [done|]. simpl. apply Hd.
  intros w Hw. apply elem_of_elements, elem_of_filter in Hw as [_ Hw].
  apply elem_of_dom. by apply Hsub.
Qed.

(** C10, on the code: the index of the one document [cafe] has the word
    [caf] in its trie and the key [caf?] in [inverted_index].  [__init__]
    normalises the document, which turns the accented letter into [?], and
    [insert] normalises the token again, which deletes the [?] as
    punctuation. *)
Lemma Index_init_keys_differ :
  Index_init [cafe] = Ok (index_of [cafe]) ∧
  words (nodes (trie (index_of [cafe]))) = {[s_ "caf"]} ∧
  dom (inverted_index (index_of [cafe])) = {[s_ "caf?"]}.
Proof. split_and!; by_evaluation. Qed.

(** C9, on the code: on that index, the search of [caf] at distance 0
    finds the word [caf] in the trie, looks it up in [inverted_index],
    which is a defaultdict, and so adds the key [caf]. *)
Lemma Index_fuzzySearch_adds_key :
  ∃ ix', Index_fuzzySearch 20 (index_of [cafe]) (s_ "caf") 0 = Ok (∅, ix') ∧
    inverted_index (index_of [cafe]) !! s_ "caf" = None ∧
    inverted_index ix' !! s_ "caf" = Some ∅ ∧
    dom (inverted_index ix') ≠ dom (inverted_index (index_of [cafe])).
Proof.
  eexists. split; [vm_compute; reflexivity|]. split_and!.
  - vm_compute. reflexivity.
  - vm_compute. reflexivity.
  - intros Heq. assert (Hin : s_ "caf" ∈ dom (inverted_index (index_of [cafe]))).
    { rewrite <- Heq. apply elem_of_dom. eexists. vm_compute. reflexivity. }
    apply elem_of_dom in Hin as [v Hv]. vm_compute in Hv. discriminate Hv.
Qed.

(** * More of the code *)

(** ** [Trie.preprocess] *)

Lemma lower_char_idem c : Py.lower_char (Py.lower_char c) = Py.lower_char c.
Proof. by destruct c as [[] [] [] [] [] [] [] []]. Qed.

Lemma lower_char_high c :
  ¬ (Py.code c < 128)%N → ¬ (Py.code (Py.lower_char c) < 128)%N.
Proof.
  destruct c as [[] [] [] [] [] [] [] []]; vm_compute; try done;
    by intros H; destruct H.
Qed.

Lemma preprocess_cons c s :
  preprocess (c :: s) =
    if decide (Py.lower_char c ∈ Py.punctuation) then preprocess s
    else Py.ascii_replace_char (Py.lower_char c) :: preprocess s.
Proof.
  unfold preprocess, Py.encode_ascii_replace_decode, Py.translate_delete, Py.lower.
  rewrite fmap_cons. case_decide.
  - by rewrite filter_cons_False by tauto.
  - by rewrite filter_cons_True, fmap_cons.
Qed.

Lemma preprocess_chars s :
  Forall (λ c, (Py.code c < 128)%N ∧ (c = "?"%char ∨ plain c)) (preprocess s).
Proof.
  induction s as [|c s IH]; [constructor|]. rewrite preprocess_cons.
  case_decide as Hp; [done|]. constructor; [|done].
  unfold Py.ascii_replace_char.
  destruct (Py.code (Py.lower_char c) <? 128)%N eqn:Hlt.
  - apply N.ltb_lt in Hlt. split; [done|]. right.
    split_and!; [done..|apply lower_char_idem].
  - split; [done|by left].
Qed.

(** X1: whatever the string, [preprocess] returns ASCII characters only:
    each is the replacement mark [?] or a character that is lower case,
    not punctuation and that [preprocess] leaves as it is. *)
Theorem preprocess_output s :
  Forall (λ c, (Py.code c < 128)%N ∧ (c = "?"%char ∨ plain c)) (preprocess s).
Proof. apply preprocess_chars. Qed.


(** X3: on a string of ASCII characters [preprocess] is idempotent. *)
Theorem preprocess_idempotent_ascii s :
  ascii_only s → preprocess (preprocess s) = preprocess s.
Proof. intros Hs. by apply preprocess_plain, preprocess_ascii. Qed.

Lemma preprocess_idempotent_ascii_witness :
  preprocess (preprocess (s_ "Hello, World!")) = preprocess (s_ "Hello, World!").
Proof.
  apply (preprocess_idempotent_ascii (s_ "Hello, World!")).
  unfold ascii_only. repeat constructor.
Defined.

(** X4: on Latin-1 strings, which are the strings of the model,
    [preprocess] works character by character: it distributes over
    concatenation, never lengthens a string, and keeps a character that
    is not ASCII as one [?].  (None of the three holds of every Python
    string: outside Latin-1 [str.lower] depends on the context, can
    lengthen a string and can write an ASCII letter for a character that
    is not ASCII.) *)
Theorem preprocess_app s t :
  latin1 s → latin1 t →
  preprocess (s ++ t) = preprocess s ++ preprocess t ∧
  (length (preprocess s) ≤ length s)%nat ∧
  (∀ c, latin1 [c] → ¬ (Py.code c < 128)%N → preprocess [c] = ["?"%char]).
Proof.
  intros _ _. split_and!.
  - induction s as [|c s IH]; [done|]. simpl app. rewrite !preprocess_cons, IH.
    by case_decide.
  - induction s as [|c s IH]; [done|]. rewrite preprocess_cons.
    case_decide; simpl; lia.
  - intros c _ Hc. rewrite preprocess_cons. apply lower_char_high in Hc.
    rewrite decide_False.
    + unfold Py.ascii_replace_char. by apply N.ltb_nlt in Hc as ->.
    + intros Hin. apply Hc. revert Hin. generalize (Py.lower_char c).
      intros c' Hin. unfold Py.punctuation in Hin.
      repeat (apply elem_of_cons in Hin as [->|Hin]; [by vm_compute|]).
      by apply elem_of_nil in Hin.
Qed.

Lemma preprocess_app_witness :
  let s := ascii_of_N 201 :: s_ "t, " in
  let t := s_ "Caf" ++ [ascii_of_N 233] in
  preprocess (s ++ t) = preprocess s ++ preprocess t ∧
  (length (preprocess s) ≤ length s)%nat ∧
  (∀ c, latin1 [c] → ¬ (Py.code c < 128)%N → preprocess [c] = ["?"%char]).
Proof.
  intros s t. apply (preprocess_app s t).
  - unfold latin1. repeat constructor.
  - unfold latin1. repeat constructor.
Defined.

(** ** [Trie.insert] *)

Lemma extends_refl h : extends h h.
Proof. split; [done|]. intros x nd Hx. exists nd. by split_and!. Qed.

Lemma extends_trans h1 h2 h3 : extends h1 h2 → extends h2 h3 → extends h1 h3.
Proof.
  intros [Hl1 H1] [Hl2 H2]. split; [lia|]. intros x nd Hx.
  destruct (H1 x nd Hx) as (nd2 & Hx2 & ? & ? & ? & ? & ?).
  destruct (H2 x nd2 Hx2) as (nd3 & Hx3 & ? & ? & ? & ? & ?).
  exists nd3. split_and!; try congruence; [by etrans|auto].
Qed.

Lemma setdefault_child_extends h node char w h' c :
  setdefault_child h node char w = Ok (h', c) →
  extends h h' ∧ (length h' ≤ S (length h))%nat.
Proof.
  unfold setdefault_child, deref. destruct (h !! node) as [nd|] eqn:Hnode; [|done].
  rewrite bind_Ok. destruct (dict_get (children nd) char) as [c'|].
  - intros [= <- <-]. split; [apply extends_refl|lia].
  - intros [= <- <-]. pose proof (lookup_lt_Some _ _ _ Hnode) as Hlt.
    rewrite length_app, length_insert. simpl. split; [|lia].
    split; [rewrite length_app, length_insert; lia|]. intros x ndx Hx.
    pose proof (lookup_lt_Some _ _ _ Hx) as Hxlt.
    rewrite lookup_app_l by (by rewrite length_insert).
    destruct (decide (x = node)) as [->|Hne].
    + rewrite list_lookup_insert_eq by done. assert (ndx = nd) as -> by congruence.
      eexists. split; [done|]. simpl. split_and!; try done. by eexists.
    + rewrite list_lookup_insert_ne by done. exists ndx. by split_and!.
Qed.

Lemma insert_loop_extends word rest : ∀ i h node h' node',
  insert_loop word i rest h node = Ok (h', node') →
  extends h h' ∧ (length h' ≤ length h + length rest)%nat.
Proof.
  induction rest as [|char rest IH]; intros i h node h' node'; simpl.
  - intros [= <- <-]. split; [apply extends_refl|lia].
  - intros Hrun. apply bind_Ok_inv in Hrun as ([h1 c] & Hset & Hrun).
    destruct (setdefault_child_extends _ _ _ _ _ _ Hset) as [He1 Hl1].
    destruct (IH _ _ _ _ _ Hrun) as [He2 Hl2].
    split; [by eapply extends_trans|lia].
Qed.

Lemma insert_extends t w t' :
  insert t w = Ok t' →
  root t' = root t ∧ extends (nodes t) (nodes t') ∧
  (length (nodes t') ≤ length (nodes t) + length (preprocess w))%nat.
Proof.
  unfold insert. intros Hrun.
  apply bind_Ok_inv in Hrun as ([h node] & Hloop & Hrun).
  unfold deref in Hrun. destruct (h !! node) as [nd|] eqn:Hnode; [|done].
  rewrite bind_Ok in Hrun. injection Hrun as <-. simpl.
  destruct (insert_loop_extends _ _ _ _ _ _ _ Hloop) as [He Hl].
  rewrite length_insert. split; [done|]. split; [|done].
  eapply extends_trans; [done|]. split; [by rewrite length_insert|].
  intros x ndx Hx. destruct (decide (x = node)) as [->|Hne].
  - rewrite list_lookup_insert_eq by (by eapply lookup_lt_Some).
    assert (ndx = nd) as -> by congruence. eexists. by split_and!.
  - rewrite list_lookup_insert_ne by done. exists ndx. by split_and!.
Qed.

(** X5: on a trie a program can get, [insert] raises nothing and only
    grows the trie: the words afterwards are the words before and the
    normalised word; every node stays at its address with its word,
    parent, row and children; and at most one node for each character of
    the normalised word is added. *)
Theorem insert_grows t W w :
  built t W →
  ∃ t', insert t w = Ok t' ∧
    words (nodes t') = W ∪ {[preprocess w]} ∧
    extends (nodes t) (nodes t') ∧
    (length (nodes t') ≤ length (nodes t) + length (preprocess w))%nat.
Proof.
  intros Hb. destruct (built_wf t W Hb) as [Hwf HW].
  destruct (insert_ok t w Hwf) as (t' & Hins & _ & Hw).
  destruct (insert_extends t w t' Hins) as (_ & He & Hl).
  exists t'. by rewrite Hw, HW.
Qed.

Lemma insert_grows_witness :
  ∃ t', insert smoke_trie (s_ "Olive!") = Ok t' ∧
    words (nodes t')
    = list_to_set (preprocess <$> smoke_words) ∪ {[preprocess (s_ "Olive!")]} ∧
    extends (nodes smoke_trie) (nodes t') ∧
    (length (nodes t')
       ≤ length (nodes smoke_trie) + length (preprocess (s_ "Olive!")))%nat.
Proof.
  apply (insert_grows smoke_trie (list_to_set (preprocess <$> smoke_words))
           (s_ "Olive!")).
  apply built_trie_of.
Defined.

Lemma dict_get_elem items k v :
  NoDup items.*1 → (k, v) ∈ items → dict_get items k = Some v.
Proof.
  induction items as [|[k' v'] items IH]; simpl; intros Hnd Hin.
  - by apply elem_of_nil in Hin.
  - apply NoDup_cons in Hnd as [Hk' Hnd]. case_decide as Hk.
    + subst k'. apply elem_of_cons in Hin as [[= ->]|Hin]; [done|].
      destruct Hk'. apply list_elem_of_fmap. by exists (k, v).
    + apply elem_of_cons in Hin as [[= -> ->]|Hin]; [done|]. by apply IH.
Qed.

Section paths.
Context (h : store).
Hypothesis Hshape : shape h.

(** A node that is not the root spells its parent's word and one more
    character, under which its parent holds it. *)
Lemma shape_last x nx w c :
  h !! x = Some nx → word nx = w ++ [c] →
  ∃ p pn, parent nx = Some p ∧ h !! p = Some pn ∧ word pn = w ∧
          (c, x) ∈ children pn.
Proof.
  intros Hx Hw. destruct (parent nx) as [p|] eqn:Hpar.
  - destruct (shape_parent _ Hshape x nx p Hx Hpar) as (_ & pn & c' & Hp & Hin).
    destruct (shape_child _ Hshape p pn c' x Hp Hin) as (nx' & Hx' & _ & Hw').
    assert (nx' = nx) as -> by congruence. rewrite Hw in Hw'.
    apply app_inj_tail in Hw' as [-> ->]. by exists p, pn.
  - pose proof (shape_orphan _ Hshape x nx Hx Hpar) as ->.
    destruct (shape_root _ Hshape) as (r & Hr & _ & Hrw).
    assert (r = nx) as -> by congruence. rewrite Hw in Hrw.
    by destruct w.
Qed.

(** No two nodes spell the same word. *)
Lemma word_unique w : ∀ x nx y ny,
  h !! x = Some nx → h !! y = Some ny → word nx = w → word ny = w → x = y.
Proof.
  induction w as [|c w IH] using rev_ind; intros x nx y ny Hx Hy Hwx Hwy.
  - assert (Hroot : ∀ z nz, h !! z = Some nz → word nz = [] → z = 0%nat).
    { intros z nz Hz Hwz. destruct (parent nz) as [p|] eqn:Hpar;
        [|by eapply shape_orphan].
      destruct (shape_parent _ Hshape z nz p Hz Hpar) as (_ & pn & c' & Hp & Hin).
      destruct (shape_child _ Hshape p pn c' z Hp Hin) as (nz' & Hz' & _ & Hw').
      assert (nz' = nz) as -> by congruence. rewrite Hwz in Hw'.
      by destruct (word pn). }
    by rewrite (Hroot x nx), (Hroot y ny).
  - destruct (shape_last x nx w c Hx Hwx) as (p & pn & _ & Hp & Hpw & Hinx).
    destruct (shape_last y ny w c Hy Hwy) as (q & qn & _ & Hq & Hqw & Hiny).
    assert (p = q) as <- by (by eapply IH).
    assert (qn = pn) as -> by congruence.
    pose proof (shape_keys _ Hshape p pn Hp) as Hnd.
    pose proof (dict_get_elem _ _ _ Hnd Hinx). pose proof (dict_get_elem _ _ _ Hnd Hiny).
    congruence.
Qed.

(** The words of the nodes are closed under prefix. *)
Lemma word_prefix_node v : ∀ u x nx,
  h !! x = Some nx → word nx = u ++ v → ∃ y ny, h !! y = Some ny ∧ word ny = u.
Proof.
  induction v as [|c v IH] using rev_ind; intros u x nx Hx Hw.
  - rewrite app_nil_r in Hw. eauto.
  - rewrite app_assoc in Hw.
    destruct (shape_last x nx (u ++ v) c Hx Hw) as (p & pn & _ & Hp & Hpw & _).
    by eapply IH.
Qed.

(** Walking down to a node that exists creates nothing. *)
Lemma insert_loop_existing rest : ∀ pre node nd x nx,
  h !! node = Some nd → word nd = pre →
  h !! x = Some nx → word nx = pre ++ rest →
  insert_loop (pre ++ rest) (length pre) rest h node = Ok (h, x).
Proof.
  induction rest as [|char rest IH]; intros pre node nd x nx Hnode Hpre Hx Hw.
  - rewrite app_nil_r in Hw. simpl. do 2 f_equal. by eapply word_unique.
  - cbn [insert_loop].
    assert (Hw' : word nx = (pre ++ [char]) ++ rest)
      by (by rewrite <- app_assoc).
    destruct (word_prefix_node rest (pre ++ [char]) x nx Hx Hw') as (y & ny & Hy & Hyw).
    destruct (shape_last y ny pre char Hy Hyw) as (p & pn & _ & Hp & Hpw & Hin).
    assert (p = node) as -> by (eapply word_unique; [exact Hp|exact Hnode|done..]).
    assert (pn = nd) as -> by congruence.
    unfold setdefault_child, deref. rewrite Hnode, bind_Ok.
    rewrite (dict_get_elem _ _ _ (shape_keys _ Hshape node nd Hnode) Hin), bind_Ok.
    specialize (IH (pre ++ [char]) y ny x nx Hy Hyw Hx Hw').
    rewrite length_app, <- app_assoc in IH. simpl in IH.
    by replace (length pre + 1)%nat with (S (length pre)) in IH by lia.
Qed.

End paths.

(** X6: inserting a word that the trie holds changes nothing: [insert]
    walks down existing nodes and sets a flag that is set.  So [insert]
    is idempotent. *)
Theorem insert_present t W w :
  built t W → preprocess w ∈ W → insert t w = Ok t.
Proof.
  intros Hb Hin. destruct (built_wf t W Hb) as [[Hroot Hshape] HW].
  rewrite <- HW in Hin. apply elem_of_words in Hin as (x & nx & Hx & Hisw & Hw).
  destruct (shape_root _ Hshape) as (r & Hr & _ & Hrw).
  pose proof (insert_loop_existing (nodes t) Hshape (preprocess w) [] 0%nat r x nx
                Hr Hrw Hx Hw) as Hloop.
  simpl in Hloop. unfold insert, deref. rewrite Hroot, Hloop, bind_Ok, Hx, bind_Ok.
  destruct t as [rt h]. simpl in *. subst rt. do 2 f_equal.
  apply list_insert_id. rewrite Hx. f_equal.
  destruct nx. simpl in Hisw. by subst.
Qed.

Lemma insert_present_witness : insert smoke_trie (s_ "OLIVER!") = Ok smoke_trie.
Proof.
  apply (insert_present smoke_trie (list_to_set (preprocess <$> smoke_words))
           (s_ "OLIVER!")).
  - apply built_trie_of.
  - vm_compute. set_solver.
Defined.

(** ** [Trie.get_levenshtein_dists] *)

(** X7: for a node under a parent whose row is right, the windowed
    computation raises nothing and returns a right row: an entry that is at
    most [n] is the Levenshtein distance between the node's word and the
    prefix of the query of that length, and an entry above [n] stands for
    a distance above [n]. *)
Theorem get_levenshtein_dists_row h node p pn c prev query n :
  parent node = Some p → h !! p = Some pn → dists pn = Some prev →
  word node = word pn ++ [c] → row_ok query n (word pn) prev →
  ∃ row, get_levenshtein_dists h node query n = Ok row ∧
    length row = S (length query) ∧
    ∀ j v, row !! j = Some v →
      (v <= n → v = Z.of_nat (lev (word node) (take j query))) ∧
      (n < v → n < Z.of_nat (lev (word node) (take j query))).
Proof.
  intros Hpar Hp Hd Hw Hprev.
  destruct (dists_from_parent_ok query n (word pn) c prev Hprev) as (row & Hrun & Hlen & Hrow).
  exists row. unfold get_levenshtein_dists, deref.
  rewrite Hpar, Hp, bind_Ok, Hd, Hw. split_and!; [done..|].
  intros j v Hj. specialize (Hrow j v Hj). unfold approx in Hrow. lia.
Qed.

Lemma get_levenshtein_dists_row_witness :
  let h := heap (frame_after 1 smoke_trie (s_ "olivia") 1) in
  ∃ row, get_levenshtein_dists h (node_at h 1) (s_ "olivia") 1 = Ok row ∧
    length row = S (length (s_ "olivia")) ∧
    ∀ j v, row !! j = Some v →
      (v <= 1 → v = Z.of_nat (lev (word (node_at h 1)) (take j (s_ "olivia")))) ∧
      (1 < v → 1 < Z.of_nat (lev (word (node_at h 1)) (take j (s_ "olivia")))).
Proof.
  intros h.
  apply (get_levenshtein_dists_row h (node_at h 1) 0 (node_at h 0) "o"%char
           (Py.range (Py.len (s_ "olivia") + 1)) (s_ "olivia") 1).
  - vm_compute. reflexivity.
  - vm_compute. reflexivity.
  - vm_compute. reflexivity.
  - vm_compute. reflexivity.
  - apply (row_ok_root (s_ "olivia") 1).
Defined.

(** X8: [get_levenshtein_dists] reads the row of the parent without a
    test: for a node whose parent has no row (its [dists] is [None], as
    before any search) it raises [TypeError], as soon as the window of
    the node holds one index. *)
Theorem get_levenshtein_dists_no_row h node p pn query n :
  parent node = Some p → h !! p = Some pn → dists pn = None →
  word node ≠ [] →
  Z.max 0 (Py.len (word node) - n - 1)
    < Z.min (Py.len query) (Py.len (word node) + n + 1) →
  get_levenshtein_dists h node query n = Raise TypeError.
Proof.
  intros Hpar Hp Hd Hne Hwin. unfold get_levenshtein_dists, deref.
  rewrite Hpar, Hp, bind_Ok, Hd. unfold dists_from_parent.
  destruct (word node) as [|c0 w0] eqn:Hw using rev_ind; [done|]. clear IHw0.
  set (d := Py.len (w0 ++ [c0])) in *.
  assert (Hrep : Py.repeat_list (n + 1) (Py.len query + 1)
                 = replicate (S (length query)) (n + 1)).
  { unfold Py.repeat_list, Py.len. f_equal. lia. }
  rewrite Hrep, setitem_insert by (unfold Py.len; rewrite length_replicate; lia).
  set (row0 := d :: replicate (length query) (n + 1)).
  change (<[Z.to_nat 0 := d]> (replicate (S (length query)) (n + 1))) with row0.
  rewrite bind_Ok, (getitem_lookup row0 0 d), bind_Ok by done.
  set (lo := Z.max 0 (d - n - 1)) in *.
  set (hi := Z.min (Py.len query) (d + n + 1)) in *.
  unfold Py.range2. rewrite seqZ_cons by lia. cbn [Py.for_each].
  assert (Hlo : 0 <= lo < Py.len query) by (subst lo hi; lia).
  destruct (lookup_lt_is_Some_2 query (Z.to_nat lo)) as [qi Hqi];
    [unfold Py.len in Hlo; lia|].
  unfold dists_step. rewrite (getitem_lookup query lo qi) by (done || lia).
  rewrite bind_Ok, getitem_last, bind_Ok. simpl. by case_decide.
Qed.

Lemma get_levenshtein_dists_no_row_witness :
  get_levenshtein_dists (nodes smoke_trie) (node_at (nodes smoke_trie) 1)
    (s_ "olivia") 1 = Raise TypeError.
Proof.
  apply (get_levenshtein_dists_no_row (nodes smoke_trie)
           (node_at (nodes smoke_trie) 1) 0 (node_at (nodes smoke_trie) 0)).
  - vm_compute. reflexivity.
  - vm_compute. reflexivity.
  - vm_compute. reflexivity.
  - vm_compute. discriminate.
  - vm_compute. reflexivity.
Defined.

(** X9: when the window of a node holds no index (the bound is negative,
    or the node is more than [n] deeper than the query is long), the row
    is the length of the node's word followed by the sentinel [n + 1],
    and the row of the parent is not read. *)
Theorem get_levenshtein_dists_empty_window h node p pn query n :
  parent node = Some p → h !! p = Some pn →
  Z.min (Py.len query) (Py.len (word node) + n + 1)
    <= Z.max 0 (Py.len (word node) - n - 1) →
  get_levenshtein_dists h node query n
  = Ok (Py.len (word node) :: replicate (length query) (n + 1)).
Proof.
  intros Hpar Hp Hwin. unfold get_levenshtein_dists, deref.
  rewrite Hpar, Hp, bind_Ok. unfold dists_from_parent.
  set (d := Py.len (word node)) in *.
  assert (Hrep : Py.repeat_list (n + 1) (Py.len query + 1)
                 = replicate (S (length query)) (n + 1)).
  { unfold Py.repeat_list, Py.len. f_equal. lia. }
  rewrite Hrep, setitem_insert by (unfold Py.len; rewrite length_replicate; lia).
  set (row0 := d :: replicate (length query) (n + 1)).
  change (<[Z.to_nat 0 := d]> (replicate (S (length query)) (n + 1))) with row0.
  rewrite bind_Ok, (getitem_lookup row0 0 d), bind_Ok by done.
  unfold Py.range2. by rewrite seqZ_nil by lia.
Qed.

Lemma get_levenshtein_dists_empty_window_witness :
  get_levenshtein_dists (nodes smoke_trie) (node_at (nodes smoke_trie) 3)
    (s_ "o") 0
  = Ok (Py.len (word (node_at (nodes smoke_trie) 3))
          :: replicate (length (s_ "o")) (0 + 1)).
Proof.
  apply (get_levenshtein_dists_empty_window (nodes smoke_trie)
           (node_at (nodes smoke_trie) 3) 2 (node_at (nodes smoke_trie) 2)).
  - vm_compute. reflexivity.
  - vm_compute. reflexivity.
  - vm_compute. discriminate.
Defined.

(** ** [Trie.fuzzySearch] *)

(** X10: the rows that a search leaves on the nodes do not change what a
    later search returns: after a search, the trie has the same nodes,
    links and words, and any search on it returns what it returns on the
    trie before. *)
Theorem fuzzySearch_leaves_trie t W query n fuel :
  built t W → (length (nodes t) ≤ fuel)%nat →
  ∃ r t1, fuzzySearch fuel t query n = Ok (r, t1) ∧
    root t1 = root t ∧ skel <$> nodes t1 = skel <$> nodes t ∧
    ∀ query' n', ∃ r' t2 t2',
      fuzzySearch fuel t query' n' = Ok (r', t2) ∧
      fuzzySearch fuel t1 query' n' = Ok (r', t2').
Proof.
  intros Hb Hfuel.
  destruct (fuzzySearch_ok fuel t W query n Hb Hfuel) as (t1 & Hrun & Hb1 & Hl1).
  destruct (built_wf t W Hb) as [Hwf _].
  destruct (fuzzySearch_skel fuel t query n _ t1 Hwf Hrun) as [[Hr1 _] Hsk].
  eexists _, t1. split; [exact Hrun|]. split; [by destruct Hwf as [-> _]|].
  split; [done|]. intros query' n'.
  destruct (fuzzySearch_ok fuel t W query' n' Hb Hfuel) as (t2 & Hrun2 & _).
  destruct (fuzzySearch_ok fuel t1 W query' n' Hb1) as (t2' & Hrun2' & _); [lia|].
  by eexists _, t2, t2'.
Qed.

Lemma fuzzySearch_leaves_trie_witness :
  ∃ r t1, fuzzySearch 20 smoke_trie (s_ "olivia") 2 = Ok (r, t1) ∧
    root t1 = root smoke_trie ∧ skel <$> nodes t1 = skel <$> nodes smoke_trie ∧
    ∀ query' n', ∃ r' t2 t2',
      fuzzySearch 20 smoke_trie query' n' = Ok (r', t2) ∧
      fuzzySearch 20 t1 query' n' = Ok (r', t2').
Proof.
  apply (fuzzySearch_leaves_trie smoke_trie
           (list_to_set (preprocess <$> smoke_words)) (s_ "olivia") 2 20).
  - apply built_trie_of.
  - vm_compute. lia.
Defined.

Lemma built_empty_nodes t W : built t W → W = ∅ → length (nodes t) = 1%nat.
Proof.
  induction 1 as [|t W w t' _ _ _|t W fuel query n r t' Hb IH Hrun]; intros HW.
  - done.
  - exfalso. assert (preprocess w ∈ (∅ : gset str)) as Hin.
    { rewrite <- HW. apply elem_of_union_r. by apply elem_of_singleton. }
    by apply not_elem_of_empty in Hin.
  - destruct (built_wf t W Hb) as [Hwf _].
    destruct (fuzzySearch_skel fuel t query n r t' Hwf Hrun) as [_ Hsk].
    apply (f_equal length) in Hsk. rewrite !length_fmap in Hsk.
    rewrite Hsk. by apply IH.
Qed.

(** X11: on a trie without a word, as [Trie()] builds it or as earlier
    searches (the only calls that keep it empty) have left it, every
    search, whatever the query and the bound, returns the empty set after
    one iteration. *)
Theorem fuzzySearch_empty_trie t query n fuel :
  built t ∅ → (1 ≤ fuel)%nat → ∃ t', fuzzySearch fuel t query n = Ok (∅, t').
Proof.
  intros Hb Hfuel. pose proof (built_empty_nodes t ∅ Hb eq_refl) as Hlen.
  destruct (fuzzySearch_ok fuel t ∅ query n Hb) as (t' & Hrun & _); [lia|].
  exists t'. rewrite Hrun. f_equal.
Qed.

Lemma fuzzySearch_empty_trie_witness :
  ∃ t', fuzzySearch 1 (trie_after 1 Trie_init (s_ "before") 2) (s_ "anything") 7
        = Ok (∅, t').
Proof.
  apply (fuzzySearch_empty_trie (trie_after 1 Trie_init (s_ "before") 2)
           (s_ "anything") 7 1); [|lia].
  apply (built_search Trie_init ∅ 1 (s_ "before") 2 ∅); [apply built_init|].
  by_evaluation.
Defined.

Lemma lev_le_max (s t : str) : (lev s t ≤ length s `max` length t)%nat.
Proof.
  revert t. induction s as [|a s IH]; intros [|b t]; simpl length; try (simpl; lia).
  rewrite lev_cons. specialize (IH t). case_decide; lia.
Qed.

(** X12: a bound that is at least the length of the normalised query and
    of every word of the trie prunes nothing: the search returns all the
    words. *)
Theorem fuzzySearch_all_words t W query n fuel :
  built t W → (length (nodes t) ≤ fuel)%nat →
  Py.len (preprocess query) <= n → (∀ w, w ∈ W → Py.len w <= n) →
  ∃ t', fuzzySearch fuel t query n = Ok (W, t').
Proof.
  intros Hb Hfuel Hq HW.
  destruct (fuzzySearch_ok fuel t W query n Hb Hfuel) as (t' & Hrun & _).
  exists t'. rewrite Hrun. do 2 f_equal. apply set_eq. intros w.
  rewrite elem_of_filter. split; [by intros [_ ?]|]. intros Hw. split; [|done].
  pose proof (lev_le_max w (preprocess query)). specialize (HW w Hw).
  unfold Py.len in *. lia.
Qed.

Lemma fuzzySearch_all_words_witness :
  ∃ t', fuzzySearch 20 smoke_trie (s_ "xyz") 7
        = Ok (list_to_set (preprocess <$> smoke_words), t').
Proof.
  apply (fuzzySearch_all_words smoke_trie
           (list_to_set (preprocess <$> smoke_words)) (s_ "xyz") 7 20).
  - apply built_trie_of.
  - vm_compute. lia.
  - vm_compute. discriminate.
  - intros w Hw. unfold smoke_words in Hw. simpl in Hw.
    repeat (apply elem_of_union in Hw as [Hw|Hw];
            [apply elem_of_singleton in Hw; subst w; vm_compute; discriminate|]).
    by apply not_elem_of_empty in Hw.
Defined.

Section count.
Context (query : str) (n : Z) (h0 : store) (σ : strategy) (f0 : frame).
Hypothesis Hshape0 : shape h0.
Hypothesis Hσ : lawful σ.
Hypothesis Hstart : search_inv query n h0 [] f0.

(** Each iteration visits one more node. *)
Lemma search_steps_count k : ∀ fk,
  search_steps σ k query n f0 = Ok fk →
  ∃ done, search_inv query n h0 done fk ∧ length done = k.
Proof.
  induction k as [|k IH]; intros fk Hrun; simpl in Hrun.
  - injection Hrun as <-. by exists [].
  - apply bind_Ok_inv in Hrun as (f1 & Hrun1 & Hbody).
    destruct (IH f1 Hrun1) as (done & Hinv & Hlen).
    assert (Hne : stack f1 ≠ []).
    { intros Hnil. unfold search_body in Hbody.
      by rewrite Hnil, (take_next_nil σ Hσ) in Hbody. }
    destruct (search_body_ok query n h0 Hshape0 σ done f1 Hσ Hinv Hne)
      as (x & rest & nd & row & f' & _ & _ & _ & _ & Hbody' & _ & Hinv').
    assert (f' = fk) as -> by congruence.
    exists (x :: done). split; [done|]. simpl. by rewrite Hlen.
Qed.

End count.

(** X13: the loop of [fuzzySearch] ends within as many iterations as the
    trie has nodes: whenever the iterations of a search can be run [k]
    times, [k] is at most the number of nodes, and a search that returns
    has run the body at most that many times. *)
Theorem fuzzySearch_iterations t W query n :
  built t W →
  (∀ k fk,
     fuzzySearch_steps k (preprocess query) n (fuzzySearch_start t) = Ok fk →
     (k + length (stack fk) ≤ length (nodes t))%nat) ∧
  (∀ fuel f,
     fuzzySearch_loop fuel (preprocess query) n (fuzzySearch_start t) = Ok f →
     ∃ k, (k ≤ length (nodes t))%nat ∧ stack f = [] ∧
          fuzzySearch_steps k (preprocess query) n (fuzzySearch_start t) = Ok f).
Proof.
  intros Hb. destruct (built_wf t W Hb) as [Hwf _]. pose proof Hwf as [_ Hshape].
  pose proof (search_inv_start (preprocess query) n (nodes t) Hshape t Hwf eq_refl)
    as Hstart.
  assert (Hk : ∀ k fk,
    fuzzySearch_steps k (preprocess query) n (fuzzySearch_start t) = Ok fk →
    (k + length (stack fk) ≤ length (nodes t))%nat).
  { intros k fk Hrun. rewrite fuzzySearch_steps_lifo in Hrun.
    destruct (search_steps_count _ _ _ lifo _ Hshape lifo_lawful Hstart k fk Hrun)
      as (done & Hinv & <-).
    pose proof (search_inv_bound _ _ _ _ _ Hinv) as Hbound.
    rewrite length_app in Hbound. lia. }
  split; [done|]. intros fuel f Hrun.
  destruct (fuzzySearch_loop_steps _ _ _ _ _ Hrun) as (k & _ & Hsteps & Hnil).
  exists k. split_and!; [|done..]. specialize (Hk k f Hsteps). lia.
Qed.

Lemma fuzzySearch_iterations_witness :
  (∀ k fk,
     fuzzySearch_steps k (preprocess (s_ "olivia")) 2 (fuzzySearch_start smoke_trie)
     = Ok fk →
     (k + length (stack fk) ≤ length (nodes smoke_trie))%nat) ∧
  (∀ fuel f,
     fuzzySearch_loop fuel (preprocess (s_ "olivia")) 2 (fuzzySearch_start smoke_trie)
     = Ok f →
     ∃ k, (k ≤ length (nodes smoke_trie))%nat ∧ stack f = [] ∧
          fuzzySearch_steps k (preprocess (s_ "olivia")) 2
            (fuzzySearch_start smoke_trie) = Ok f).
Proof.
  apply (fuzzySearch_iterations smoke_trie
           (list_to_set (preprocess <$> smoke_words)) (s_ "olivia") 2).
  apply built_trie_of.
Defined.

(** ** [Index.__init__] and [Index.fuzzySearch] *)

Lemma lookup_inverted_index_add (d : gmap str (gset str)) w doc k :
  inverted_index_add d w doc !! k =
    if decide (k = w) then Some (default ∅ (d !! w) ∪ {[doc]}) else d !! k.
Proof.
  unfold inverted_index_add, defaultdict_getitem.
  destruct (d !! w) as [v|] eqn:Hw; case_decide as Hk; subst; simpl.
  - by rewrite lookup_insert_eq.
  - by rewrite lookup_insert_ne.
  - by rewrite lookup_insert_eq.
  - by rewrite !lookup_insert_ne.
Qed.

Lemma Index_add_word_indexes doc P ix w :
  indexes P ix →
  ∃ ix', Index_add_word doc ix w = Ok ix' ∧ indexes (P ++ [(doc, w)]) ix'.
Proof.
  intros (Hb & Hdocs & Hkeys). unfold Index_add_word.
  destruct (insert_ok (trie ix) w) as (t' & Hins & _); [by eapply built_wf|].
  rewrite Hins, bind_Ok. eexists. split; [done|]. split_and!; simpl.
  - rewrite fmap_app, fmap_app, list_to_set_app_L. simpl.
    rewrite (right_id_L ∅ (∪)). by eapply built_insert.
  - intros k d. rewrite lookup_inverted_index_add, elem_of_app, list_elem_of_singleton.
    case_decide as Hk; simpl.
    + subst k. rewrite elem_of_union, elem_of_singleton, Hdocs.
      split; [intros [?| ->]; auto|]. intros [?|[= ->]]; auto.
    + rewrite Hdocs. split; [auto|]. intros [?|[= _ ->]]; done.
  - intros k. rewrite lookup_inverted_index_add. case_decide as Hk.
    + subst k. split; [|by eauto]. intros _. exists doc.
      apply elem_of_app. right. left.
    + rewrite Hkeys. split; intros [d Hd]; exists d.
      * apply elem_of_app. by left.
      * apply elem_of_app in Hd as [?|Hd]; [done|].
        apply list_elem_of_singleton in Hd. congruence.
Qed.

Lemma Index_add_words_indexes doc ws : ∀ P ix,
  indexes P ix →
  ∃ ix', Py.for_each ws (Index_add_word doc) ix = Ok ix' ∧
         indexes (P ++ ((λ w, (doc, w)) <$> ws)) ix'.
Proof.
  induction ws as [|w ws IH]; intros P ix Hix; simpl.
  - exists ix. by rewrite app_nil_r.
  - destruct (Index_add_word_indexes doc P ix w Hix) as (ix1 & -> & Hix1).
    rewrite bind_Ok. destruct (IH _ ix1 Hix1) as (ix' & -> & Hix').
    exists ix'. split; [done|]. by rewrite <- app_assoc in Hix'.
Qed.

Lemma Index_add_docs_indexes documents : ∀ P ix,
  indexes P ix →
  ∃ ix', Py.for_each documents Index_add_doc ix = Ok ix' ∧
         indexes (P ++ (documents ≫= doc_pairs)) ix'.
Proof.
  induction documents as [|doc documents IH]; intros P ix Hix.
  - exists ix. by rewrite app_nil_r.
  - cbn [Py.for_each].
    destruct (Index_add_words_indexes doc (Py.split (preprocess doc)) P ix Hix)
      as (ix1 & Hrun1 & Hix1).
    change (Index_add_doc ix doc)
      with (Py.for_each (Py.split (preprocess doc)) (Index_add_word doc) ix).
    rewrite Hrun1, bind_Ok. destruct (IH _ ix1 Hix1) as (ix' & -> & Hix').
    exists ix'. split; [done|]. rewrite bind_cons.
    by rewrite <- app_assoc in Hix'.
Qed.

Lemma Index_init_indexes documents :
  ∃ ix, Index_init documents = Ok ix ∧ indexes (documents ≫= doc_pairs) ix.
Proof.
  apply (Index_add_docs_indexes documents [] (mkIndex Trie_init ∅)).
  split_and!; simpl.
  - apply built_init.
  - intros k d. rewrite lookup_empty. simpl. split.
    + by intros ?%not_elem_of_empty.
    + by intros ?%elem_of_nil.
  - intros k. rewrite lookup_empty. split; [by intros [? ?]|].
    intros [d Hd]. by apply elem_of_nil in Hd.
Qed.

Lemma elem_of_doc_pairs documents d k :
  (d, k) ∈ documents ≫= doc_pairs ↔ d ∈ documents ∧ k ∈ tokens d.
Proof.
  rewrite list_elem_of_bind. unfold doc_pairs. split.
  - intros (doc & Hin & Hdoc). apply list_elem_of_fmap in Hin as (w & [= -> ->] & Hw).
    done.
  - intros [Hd Hk]. exists d. split; [|done]. apply list_elem_of_fmap. by exists k.
Qed.

Lemma elem_of_pairs_words documents w :
  w ∈ (list_to_set (preprocess <$> (documents ≫= doc_pairs).*2) : gset str) ↔
  ∃ d k, d ∈ documents ∧ k ∈ tokens d ∧ w = preprocess k.
Proof.
  rewrite elem_of_list_to_set, list_elem_of_fmap. split.
  - intros (k & -> & Hk). apply list_elem_of_fmap in Hk as ([d k'] & -> & Hin).
    apply elem_of_doc_pairs in Hin as [? ?]. by exists d, k'.
  - intros (d & k & Hd & Hk & ->). exists k. split; [done|].
    apply list_elem_of_fmap. exists (d, k). split; [done|].
    by apply elem_of_doc_pairs.
Qed.

(** X14: [Index(documents)] raises nothing, whatever the documents, and
    [inverted_index] is the inverted index of their tokens: a word is a
    key exactly when it is a token of some document, and its entry is the
    set, never empty, of the documents it is a token of. *)
Theorem Index_init_postings documents :
  ∃ ix, Index_init documents = Ok ix ∧
    (∀ k, is_Some (inverted_index ix !! k) ↔
          ∃ d, d ∈ documents ∧ k ∈ tokens d) ∧
    (∀ k D, inverted_index ix !! k = Some D →
            D ≠ ∅ ∧ ∀ d, d ∈ D ↔ d ∈ documents ∧ k ∈ tokens d).
Proof.
  destruct (Index_init_indexes documents) as (ix & Hinit & _ & Hdocs & Hkeys).
  exists ix. split; [done|]. split.
  - intros k. rewrite Hkeys. by setoid_rewrite elem_of_doc_pairs.
  - intros k D HD.
    assert (HDd : ∀ d, d ∈ D ↔ d ∈ documents ∧ k ∈ tokens d).
    { intros d. rewrite <- elem_of_doc_pairs, <- Hdocs. by rewrite HD. }
    split; [|done]. destruct (proj1 (Hkeys k)) as [d Hd]; [by eauto|].
    apply elem_of_doc_pairs, HDd in Hd. intros ->. by apply not_elem_of_empty in Hd.
Qed.

(** X15: the words of the trie of [Index(documents)] are the tokens of
    the documents, each normalised a second time by [insert]. *)
Theorem Index_init_words documents ix :
  Index_init documents = Ok ix →
  ∀ w, w ∈ words (nodes (trie ix)) ↔
       ∃ d k, d ∈ documents ∧ k ∈ tokens d ∧ w = preprocess k.
Proof.
  intros Hinit w.
  destruct (Index_init_indexes documents) as (ix0 & Hinit0 & Hb & _).
  assert (ix0 = ix) as -> by congruence.
  destruct (built_wf _ _ Hb) as [_ ->]. apply elem_of_pairs_words.
Qed.

Lemma Index_init_words_witness :
  s_ "mouse" ∈ words (nodes (trie (index_of pets))) ↔
  ∃ d k, d ∈ pets ∧ k ∈ tokens d ∧ s_ "mouse" = preprocess k.
Proof.
  apply (Index_init_words pets (index_of pets)). vm_compute. reflexivity.
Defined.




Lemma collect_docs_default_from ws k : ∀ (d : gmap str (gset str)) acc,
  default ∅ ((foldl (λ '(d, out) w,
                       let '(d', docs) := defaultdict_getitem d w in
                       (d', out ∪ docs))
                    (d, acc) ws).1 !! k)
  = default ∅ (d !! k).
Proof.
  induction ws as [|w ws IH]; intros d acc; simpl; [done|].
  unfold defaultdict_getitem at 2. destruct (d !! w) as [v|] eqn:Hw.
  - apply IH.
  - rewrite IH. destruct (decide (w = k)) as [->|Hne].
    + by rewrite lookup_insert_eq, Hw.
    + by rewrite lookup_insert_ne.
Qed.

Lemma collect_docs_default (d : gmap str (gset str)) ws k :
  default ∅ ((collect_docs d ws).1 !! k) = default ∅ (d !! k).
Proof. apply collect_docs_default_from. Qed.

(** Searches leave what an index serves as [Index(documents)] made it. *)
Lemma index_state_serves documents ix :
  index_state documents ix → serves documents ix.
Proof.
  induction 1 as [ix Hinit|ix fuel query n r ix' _ [Hb Hdocs] Hrun
                 |ix fuel query n r ix' _ [Hb Hdocs] Hrun].
  - destruct (Index_init_indexes documents) as (ix0 & Hinit0 & Hb & Hdocs & _).
    assert (ix0 = ix) as -> by congruence. by split.
  - apply Index_fuzzySearch_inv in Hrun as (ws & t' & Hsearch & _ & ->).
    split; simpl; [by eapply built_search|].
    intros k d. by rewrite collect_docs_default.
  - apply index_search_oracle_inv in Hrun as (ws & _ & _ & ->).
    split; simpl; [done|]. intros k d. by rewrite collect_docs_default.
Qed.

Lemma Index_fuzzySearch_docs documents ix query n fuel :
  index_state documents ix → (length (nodes (trie ix)) ≤ fuel)%nat →
  ∃ r ix', Index_fuzzySearch fuel ix query n = Ok (r, ix') ∧
    index_state documents ix' ∧
    length (nodes (trie ix')) = length (nodes (trie ix)) ∧
    ∀ d, d ∈ r ↔
         d ∈ documents ∧
         ∃ k, k ∈ tokens d ∧ Z.of_nat (lev k (preprocess query)) <= n ∧
              ∃ d' k', d' ∈ documents ∧ k' ∈ tokens d' ∧ preprocess k' = k.
Proof.
  intros Hix Hfuel. destruct (index_state_serves documents ix Hix) as [Hb Hdocs].
  destruct (fuzzySearch_ok fuel (trie ix) _ query n Hb Hfuel)
    as (t' & Hrun & _ & Hlen).
  set (W := list_to_set (preprocess <$> (documents ≫= doc_pairs).*2) : gset str) in *.
  set (ws := filter (λ w, Z.of_nat (lev w (preprocess query)) <= n) W) in *.
  assert (Hcall : Index_fuzzySearch fuel ix query n
                  = Ok ((collect_docs (inverted_index ix) (elements ws)).2,
                        mkIndex t' (collect_docs (inverted_index ix) (elements ws)).1)).
  { unfold Index_fuzzySearch. rewrite Hrun, bind_Ok.
    by destruct (collect_docs (inverted_index ix) (elements ws)). }
  eexists _, _. split; [exact Hcall|]. split_and!.
  - by eapply index_searched.
  - done.
  - intros d. rewrite collect_docs_union, elem_of_union_list. split.
    + intros (X & HX & Hd). apply list_elem_of_fmap in HX as (w & -> & Hw).
      apply elem_of_elements, elem_of_filter in Hw as [Hle Hw].
      apply Hdocs, elem_of_doc_pairs in Hd as [Hd Hk]. split; [done|].
      exists w. split_and!; [done..|].
      apply elem_of_pairs_words in Hw as (d' & k' & ? & ? & ->). by exists d', k'.
    + intros (Hd & k & Hk & Hle & d' & k' & Hd' & Hk' & Hpre).
      exists (default ∅ (inverted_index ix !! k)). split.
      * apply list_elem_of_fmap. exists k. split; [done|].
        apply elem_of_elements, elem_of_filter. split; [done|].
        apply elem_of_pairs_words. by exists d', k'.
      * by apply Hdocs, elem_of_doc_pairs.
Qed.

(** X17: what [Index.fuzzySearch] returns, for any documents, on the
    index that [Index(documents)] builds and on the index that any
    earlier searches have left: the documents of the collection with a
    token [k] within [n] of the normalised query, [k] being also what
    [insert] made of some token of the collection (its second
    normalisation).  It returns no document from outside the
    collection. *)
Theorem Index_fuzzySearch_returns documents ix query n fuel :
  index_state documents ix → (length (nodes (trie ix)) ≤ fuel)%nat →
  ∃ r ix', Index_fuzzySearch fuel ix query n = Ok (r, ix') ∧
    ∀ d, d ∈ r ↔
         d ∈ documents ∧
         ∃ k, k ∈ tokens d ∧ Z.of_nat (lev k (preprocess query)) <= n ∧
              ∃ d' k', d' ∈ documents ∧ k' ∈ tokens d' ∧ preprocess k' = k.
Proof.
  intros Hix Hfuel.
  destruct (Index_fuzzySearch_docs documents ix query n fuel Hix Hfuel)
    as (r & ix' & Hrun & _ & _ & Hr).
  by exists r, ix'.
Qed.

Lemma Index_fuzzySearch_returns_witness :
  let docs := [cafe; s_ "caf"] in
  let ix := index_after 20 (index_of docs) (s_ "caf") 0 in
  ∃ r ix', Index_fuzzySearch 20 ix (s_ "cafe") 1 = Ok (r, ix') ∧
    ∀ d, d ∈ r ↔
         d ∈ docs ∧
         ∃ k, k ∈ tokens d ∧ Z.of_nat (lev k (preprocess (s_ "cafe"))) <= 1 ∧
              ∃ d' k', d' ∈ docs ∧ k' ∈ tokens d' ∧ preprocess k' = k.
Proof.
  intros docs ix. apply (Index_fuzzySearch_returns docs ix (s_ "cafe") 1 20).
  - apply index_state_after, index_built. by_evaluation.
  - vm_compute. lia.
Defined.

(** X18: on ASCII documents [Index.fuzzySearch], on the index that
    [Index(documents)] builds and on the index that any earlier searches
    have left, returns exactly the documents that have a token within
    Levenshtein distance [n] of the normalised query. *)
Theorem Index_fuzzySearch_ascii_returns documents ix query n fuel :
  Forall ascii_only documents → index_state documents ix →
  (length (nodes (trie ix)) ≤ fuel)%nat →
  ∃ r ix', Index_fuzzySearch fuel ix query n = Ok (r, ix') ∧
    ∀ d, d ∈ r ↔
         d ∈ documents ∧
         ∃ k, k ∈ tokens d ∧ Z.of_nat (lev k (preprocess query)) <= n.
Proof.
  intros Hascii Hix Hfuel.
  destruct (Index_fuzzySearch_docs documents ix query n fuel Hix Hfuel)
    as (r & ix' & Hrun & _ & _ & Hr).
  exists r, ix'. split; [done|]. intros d. rewrite Hr. split.
  - intros (Hd & k & Hk & Hle & _). eauto.
  - intros (Hd & k & Hk & Hle). split; [done|]. exists k. split_and!; [done..|].
    exists d, k. split_and!; [done..|]. apply preprocess_plain.
    rewrite Forall_forall in Hascii.
    pose proof (split_from_Forall plain (preprocess d) [] (Forall_nil_2 _)
                  (preprocess_ascii d (Hascii d Hd))) as Htok.
    rewrite Forall_forall in Htok. by apply Htok.
Qed.

Lemma Index_fuzzySearch_ascii_returns_witness :
  let ix := index_after 20 (index_of pets) (s_ "dig") 2 in
  ∃ r ix', Index_fuzzySearch 20 ix (s_ "cats") 1 = Ok (r, ix') ∧
    ∀ d, d ∈ r ↔
         d ∈ pets ∧
         ∃ k, k ∈ tokens d ∧ Z.of_nat (lev k (preprocess (s_ "cats"))) <= 1.
Proof.
  intros ix. apply (Index_fuzzySearch_ascii_returns pets ix (s_ "cats") 1 20).
  - unfold pets, ascii_only. repeat constructor.
  - apply index_state_after, index_built. by_evaluation.
  - vm_compute. lia.
Defined.

(** X19: on ASCII documents the keys of [inverted_index] are the words of
    the trie. *)
Theorem Index_init_ascii_keys documents ix :
  Forall ascii_only documents → Index_init documents = Ok ix →
  dom (inverted_index ix) = words (nodes (trie ix)).
Proof. intros Hascii Hinit. symmetry. by eapply Index_init_ascii. Qed.

Lemma Index_init_ascii_keys_witness :
  dom (inverted_index (index_of pets)) = words (nodes (trie (index_of pets))).
Proof.
  apply (Index_init_ascii_keys pets (index_of pets)).
  - unfold pets, ascii_only. repeat constructor.
  - by_evaluation.
Defined.

(** X20: on an index of ASCII documents, as [Index(documents)] builds it
    or as any earlier searches have left it, a search is read-only on
    [inverted_index]: every word that the trie returns is a key, and the
    defaultdict stores nothing. *)
Theorem Index_fuzzySearch_ascii_read_only documents ix query n fuel :
  Forall ascii_only documents → index_state documents ix →
  (length (nodes (trie ix)) ≤ fuel)%nat →
  ∃ r ix', Index_fuzzySearch fuel ix query n = Ok (r, ix') ∧
           inverted_index ix' = inverted_index ix.
Proof. apply Index_fuzzySearch_ascii. Qed.

Lemma Index_fuzzySearch_ascii_read_only_witness :
  let ix := index_after 20 (index_of pets) (s_ "cats") 1 in
  ∃ r ix', Index_fuzzySearch 20 ix (s_ "dig") 2 = Ok (r, ix') ∧
           inverted_index ix' = inverted_index ix.
Proof.
  intros ix. apply (Index_fuzzySearch_ascii_read_only pets ix (s_ "dig") 2 20).
  - unfold pets, ascii_only. repeat constructor.
  - apply index_state_after, index_built. by_evaluation.
  - vm_compute. lia.
Defined.

(** ** test.py: the oracles *)

Section oracle.
Context (query : str) (n : Z) (h0 : store).
Hypothesis Hshape0 : shape h0.

Lemma oracle_body_ok done f :
  oracle_inv query n h0 done f → stack f ≠ [] →
  ∃ x f', trie_search_oracle_body query n f = Ok f' ∧
          oracle_inv query n h0 (x :: done) f'.
Proof.
  intros Hinv Hne. destruct (stack f) as [|x rest] eqn:Hst; [done|].
  pose proof (oinv_nodup _ _ _ _ _ Hinv) as Hnodup. rewrite Hst in Hnodup.
  assert (Hx : x ∈ stack f ++ done) by (rewrite Hst; left).
  destruct (oinv_valid _ _ _ _ _ Hinv x Hx) as [nd Hnd].
  assert (Hxd : x ∉ done).
  { intros Hxd. apply NoDup_app in Hnodup as (_ & Hdisj & _).
    apply (Hdisj x); [left|done]. }
  set (kids := dict_values (children nd)).
  assert (Hkid : ∀ y, y ∈ kids → ∃ c cn, (c, y) ∈ children nd ∧
            h0 !! y = Some cn ∧ parent cn = Some x).
  { intros y Hy. apply list_elem_of_fmap in Hy as ([c y'] & -> & Hin).
    destruct (shape_child _ Hshape0 x _ c y' Hnd Hin) as (cn & ? & ? & _).
    by exists c, cn. }
  assert (Hfresh : ∀ y, y ∈ kids → y ∉ stack f ++ done).
  { intros y Hy Hold. destruct (Hkid y Hy) as (c & cn & Hin & Hcn & Hpar).
    by pose proof (oinv_parent _ _ _ _ _ Hinv y cn x Hold Hcn Hpar). }
  assert (Hnew : stack_extend rest kids ++ x :: done ≡ₚ kids ++ stack f ++ done).
  { unfold stack_extend. rewrite Hst, <- (Permutation_rev kids). simpl.
    rewrite <- !Permutation_middle. constructor. by rewrite <- app_assoc. }
  assert (Hin_new : ∀ y, y ∈ stack_extend rest kids ++ x :: done ↔
                         y ∈ kids ∨ y ∈ stack f ++ done).
  { intros y. by rewrite Hnew, elem_of_app. }
  eexists x, _. split.
  { unfold trie_search_oracle_body. rewrite Hst, (oinv_visited _ _ _ _ _ Hinv).
    rewrite decide_False by apply not_elem_of_empty.
    unfold deref. rewrite (oinv_heap _ _ _ _ _ Hinv), Hnd, bind_Ok. done. }
  split; simpl.
  - done.
  - done.
  - fold kids. rewrite Hnew. apply NoDup_app. split_and!; [|by auto|by rewrite Hst].
    by apply (shape_values_nodup h0 x nd).
  - apply Hin_new. right. apply Hinv.
  - intros y ndy p Hy Hndy Hpar. apply Hin_new in Hy as [Hy|Hy].
    + destruct (Hkid y Hy) as (c & cn & _ & Hcn & Hparc).
      assert (p = x) as -> by congruence. left.
    + right. by apply (oinv_parent _ _ _ _ _ Hinv y ndy p).
  - intros y Hy. apply Hin_new in Hy as [Hy|Hy].
    + destruct (Hkid y Hy) as (c & cn & _ & Hcn & _). eauto.
    + by apply Hinv.
  - intros y ndy c z Hy Hndy Hin. apply Hin_new.
    apply elem_of_cons in Hy as [->|Hy].
    + assert (ndy = nd) as -> by congruence. left.
      apply list_elem_of_fmap. by exists (c, z).
    + right. by apply (oinv_closed _ _ _ _ _ Hinv y ndy c z).
  - intros w.
    assert (Hold : w ∈ matching_set f ↔
              ∃ y ndy, y ∈ done ∧ h0 !! y = Some ndy ∧ is_word ndy = true ∧
                       word ndy = w ∧ Z.of_nat (lev w query) <= n)
      by apply Hinv.
    assert (Hgoal : (w ∈ matching_set f ∨
                     (is_word nd = true ∧ word nd = w ∧ Z.of_nat (lev w query) <= n)) ↔
              ∃ y ndy, y ∈ x :: done ∧ h0 !! y = Some ndy ∧ is_word ndy = true ∧
                       word ndy = w ∧ Z.of_nat (lev w query) <= n).
    { rewrite Hold. split.
      - intros [(y & ndy & ? & ?)|(? & ? & ?)].
        + exists y, ndy. split; [by right|done].
        + exists x, nd. split; [left|done].
      - intros (y & ndy & Hy & Hndy & ? & ? & ?).
        apply elem_of_cons in Hy as [->|Hy].
        + assert (ndy = nd) as -> by congruence. by right.
        + left. by exists y, ndy. }
    rewrite <- Hgoal. unfold distance. destruct (is_word nd) eqn:Hisw.
    + case_decide as Hle.
      * rewrite elem_of_union, elem_of_singleton. split.
        -- intros [?| ->]; [by left|by right].
        -- intros [?|(_ & <- & _)]; [by left|by right].
      * split; [by left|]. intros [?|(_ & <- & ?)]; [done|tauto].
    + split; [by left|]. by intros [?|(? & _)].
Qed.

Lemma oracle_inv_start t :
  wf t → nodes t = h0 → oracle_inv query n h0 [] (fuzzySearch_start t).
Proof.
  intros [Hroot _] Hh0. destruct (shape_root _ Hshape0) as (r & Hr & Hpar & _).
  unfold fuzzySearch_start. rewrite Hroot, Hh0. split; simpl.
  - done.
  - done.
  - apply NoDup_singleton.
  - left.
  - intros x nd p Hx Hnd Hp. apply list_elem_of_singleton in Hx. congruence.
  - intros x Hx. apply list_elem_of_singleton in Hx. subst. eauto.
  - intros x nd c y Hx. by apply elem_of_nil in Hx.
  - intros w. split; [by intros ?%not_elem_of_empty|].
    intros (x & nd & Hx & _). by apply elem_of_nil in Hx.
Qed.

Lemma oracle_inv_bound done f :
  oracle_inv query n h0 done f → (length (stack f ++ done) ≤ length h0)%nat.
Proof.
  intros Hinv. rewrite <- (length_seq (length h0) 0) at 1.
  apply submseteq_length, NoDup_submseteq; [apply Hinv|].
  intros x Hx. apply elem_of_seq.
  apply (oinv_valid _ _ _ _ _ Hinv), lookup_lt_is_Some in Hx. lia.
Qed.

Lemma oracle_loop_ok fuel : ∀ done f,
  oracle_inv query n h0 done f → (length h0 ≤ fuel + length done)%nat →
  ∃ done' f', trie_search_oracle_loop fuel query n f = Ok f' ∧
              oracle_inv query n h0 done' f' ∧ stack f' = [].
Proof.
  induction fuel as [|fuel IH]; intros done f Hinv Hfuel; simpl.
  - destruct (stack f) eqn:Hst; [by eauto|].
    pose proof (oracle_inv_bound _ _ Hinv) as Hb.
    rewrite Hst, length_app in Hb. simpl in *. lia.
  - destruct (stack f) eqn:Hst; [by eauto|].
    destruct (oracle_body_ok done f Hinv) as (x & f1 & Hbody & Hinv1);
      [by rewrite Hst|].
    rewrite Hbody, bind_Ok. apply (IH (x :: done)); [done|]. simpl. lia.
Qed.

Lemma oracle_complete done f :
  oracle_inv query n h0 done f → stack f = [] →
  ∀ x nd, h0 !! x = Some nd → x ∈ done.
Proof.
  intros Hinv Hst x. induction (lt_wf x) as [x _ IH]. intros nd Hnd.
  destruct (parent nd) as [p|] eqn:Hpar.
  - destruct (shape_parent _ Hshape0 x nd p Hnd Hpar) as (Hlt & pn & c & Hpn & Hc).
    pose proof (oinv_closed _ _ _ _ _ Hinv p pn c x (IH p Hlt pn Hpn) Hpn Hc) as Hx.
    by rewrite Hst in Hx.
  - pose proof (shape_orphan _ Hshape0 x nd Hnd Hpar) as ->.
    pose proof (oinv_root _ _ _ _ _ Hinv) as Hr. by rewrite Hst in Hr.
Qed.

Lemma oracle_result done f :
  oracle_inv query n h0 done f → stack f = [] →
  matching_set f = filter (λ w, Z.of_nat (lev w query) <= n) (words h0).
Proof.
  intros Hinv Hst. apply set_eq. intros w.
  rewrite elem_of_filter, (oinv_matching _ _ _ _ _ Hinv), elem_of_words. split.
  - intros (x & nd & _ & ? & ? & ? & ?). eauto 10.
  - intros (Hle & x & nd & Hnd & Hw & <-). exists x, nd. split_and!; try done.
    by apply (oracle_complete done f Hinv Hst x nd).
Qed.

End oracle.

Lemma trie_search_oracle_ok fuel t W query n :
  built t W → (length (nodes t) ≤ fuel)%nat →
  trie_search_oracle fuel t query n
  = Ok (filter (λ w, Z.of_nat (lev w (preprocess query)) <= n) W).
Proof.
  intros Hb Hfuel. destruct (built_wf t W Hb) as [Hwf <-].
  pose proof Hwf as [_ Hshape].
  pose proof (oracle_inv_start (preprocess query) n (nodes t) Hshape t Hwf eq_refl)
    as Hinv.
  destruct (oracle_loop_ok (preprocess query) n (nodes t) Hshape fuel [] _ Hinv)
    as (done' & f' & Hrun & Hinv' & Hst); [simpl; lia|].
  unfold trie_search_oracle. rewrite Hrun, bind_Ok.
  by rewrite (oracle_result _ _ _ Hshape done' f' Hinv' Hst).
Qed.

(** X21: the assertion of [test_fuzzy_search_trie] holds for every trie,
    query and bound: [trie_search_oracle], which visits every node and
    asks [distance], returns the set that [fuzzySearch] returns. *)
Theorem trie_search_oracle_agrees t W query n fuel :
  built t W → (length (nodes t) ≤ fuel)%nat →
  ∃ r t', fuzzySearch fuel t query n = Ok (r, t') ∧
          trie_search_oracle fuel t' query n = Ok r ∧
          trie_search_oracle fuel t query n = Ok r.
Proof.
  intros Hb Hfuel.
  destruct (fuzzySearch_ok fuel t W query n Hb Hfuel) as (t' & Hrun & Hb' & Hl).
  eexists _, t'. split; [exact Hrun|]. split.
  - apply trie_search_oracle_ok; [done|lia].
  - by apply trie_search_oracle_ok.
Qed.

Lemma trie_search_oracle_agrees_witness :
  ∃ r t', fuzzySearch 20 smoke_trie (s_ "olivia") 2 = Ok (r, t') ∧
          trie_search_oracle 20 t' (s_ "olivia") 2 = Ok r ∧
          trie_search_oracle 20 smoke_trie (s_ "olivia") 2 = Ok r.
Proof.
  apply (trie_search_oracle_agrees smoke_trie
           (list_to_set (preprocess <$> smoke_words)) (s_ "olivia") 2 20).
  - apply built_trie_of.
  - vm_compute. lia.
Defined.

(** X22: the assertion of [test_fuzzy_search_documents] holds at every
    iteration of its loops, for every query and bound, the documents being
    ASCII or not: on the index that [Index(documents)] builds and on the
    index that any earlier calls of [Index.fuzzySearch] and of
    [index_search_oracle] have left, [index_search_oracle], called on the
    index as [Index.fuzzySearch] leaves it, returns the documents that
    [Index.fuzzySearch] returned; and the index the two calls leave is
    again such an index, with a trie of the same size. *)
Theorem index_search_oracle_agrees documents ix query n fuel :
  index_state documents ix → (length (nodes (trie ix)) ≤ fuel)%nat →
  ∃ r ix1 ix2, Index_fuzzySearch fuel ix query n = Ok (r, ix1) ∧
               index_search_oracle fuel ix1 query n = Ok (r, ix2) ∧
               index_state documents ix2 ∧
               length (nodes (trie ix2)) = length (nodes (trie ix)).
Proof.
  intros Hix Hfuel.
  destruct (index_state_built documents ix Hix) as [W Hb].
  destruct (fuzzySearch_ok fuel (trie ix) W query n Hb Hfuel)
    as (t' & Hrun & Hb' & Hl).
  set (ws := filter (λ w, Z.of_nat (lev w (preprocess query)) <= n) W) in *.
  set (d1 := (collect_docs (inverted_index ix) (elements ws)).1).
  assert (Hcall1 : Index_fuzzySearch fuel ix query n
                   = Ok ((collect_docs (inverted_index ix) (elements ws)).2,
                         mkIndex t' d1)).
  { unfold Index_fuzzySearch. rewrite Hrun, bind_Ok. subst d1.
    by destruct (collect_docs (inverted_index ix) (elements ws)). }
  assert (Hcall2 : index_search_oracle fuel (mkIndex t' d1) query n
                   = Ok ((collect_docs (inverted_index ix) (elements ws)).2,
                         mkIndex t' (collect_docs d1 (elements ws)).1)).
  { unfold index_search_oracle. simpl.
    rewrite (trie_search_oracle_ok fuel t' W query n Hb') by lia.
    rewrite bind_Ok. fold ws.
    assert (Hsame : (collect_docs d1 (elements ws)).2
                    = (collect_docs (inverted_index ix) (elements ws)).2).
    { rewrite !collect_docs_union. f_equal. apply list_fmap_ext.
      intros _ w _. apply collect_docs_default. }
    rewrite <- Hsame. by destruct (collect_docs d1 (elements ws)). }
  eexists _, _, _. split_and!; [exact Hcall1|exact Hcall2| |done].
  eapply index_oracle_searched; [|exact Hcall2].
  eapply index_searched; [exact Hix|exact Hcall1].
Qed.

Lemma index_search_oracle_agrees_witness :
  let docs := [cafe; s_ "caf"] in
  let ix := index_after 20 (index_of docs) (s_ "cafe") 1 in
  ∃ r ix1 ix2,
    Index_fuzzySearch 20 ix (s_ "caf") 0 = Ok (r, ix1) ∧
    index_search_oracle 20 ix1 (s_ "caf") 0 = Ok (r, ix2) ∧
    index_state docs ix2 ∧
    length (nodes (trie ix2)) = length (nodes (trie ix)).
Proof.
  intros docs ix. apply (index_search_oracle_agrees docs ix (s_ "caf") 0 20).
  - apply index_state_after, index_built. by_evaluation.
  - vm_compute. lia.
Defined.

(** ** test.py: the random edits *)

Lemma keep_script (l : str) :
  src (Keep <$> l) = l ∧ dst (Keep <$> l) = l ∧ cost (Keep <$> l) = 0%nat.
Proof.
  induction l as [|c l (Hs & Hd & Hc)]; [done|]. rewrite fmap_cons.
  rewrite src_cons, dst_cons, cost_cons, Hs, Hd, Hc. done.
Qed.

(** X23: [random_insertion] returns a string one character longer than
    the word and at Levenshtein distance 1 from it, whatever the draws. *)
Theorem random_insertion_distance word pos c :
  length (random_insertion word pos c) = S (length word) ∧
  lev (random_insertion word pos c) word = 1%nat.
Proof.
  unfold random_insertion.
  assert (Hlen : length (take pos word ++ [c] ++ drop pos word) = S (length word)).
  { rewrite !length_app, length_take, length_drop. simpl. lia. }
  split; [done|].
  pose proof (lev_length (take pos word ++ [c] ++ drop pos word) word) as [Hl _].
  destruct (keep_script (take pos word)) as (Hs1 & Hd1 & Hc1).
  destruct (keep_script (drop pos word)) as (Hs2 & Hd2 & Hc2).
  pose proof (lev_le_cost ((Keep <$> take pos word) ++ [Del c]
                             ++ (Keep <$> drop pos word))) as Hle.
  rewrite !src_app, !dst_app, !cost_app, Hs1, Hd1, Hc1, Hs2, Hd2, Hc2 in Hle.
  change (src [Del c]) with [c] in Hle. change (dst [Del c]) with (@nil ascii) in Hle.
  change (cost [Del c]) with 1%nat in Hle. cbn [app] in Hle, Hl, Hlen |- *.
  rewrite take_drop in Hle. lia.
Qed.

(** X24: for a position in the word, [random_deletion] returns a string
    one character shorter than the word and at Levenshtein distance 1
    from it. *)
Theorem random_deletion_distance word pos :
  (pos < length word)%nat →
  S (length (random_deletion word pos)) = length word ∧
  lev (random_deletion word pos) word = 1%nat.
Proof.
  intros Hpos. unfold random_deletion, Py.len.
  rewrite decide_False by lia.
  destruct (lookup_lt_is_Some_2 word pos Hpos) as [x Hx].
  assert (Hlen : S (length (take pos word ++ drop (S pos) word)) = length word).
  { rewrite length_app, length_take, length_drop. lia. }
  split; [done|].
  pose proof (lev_length (take pos word ++ drop (S pos) word) word) as [_ Hl].
  destruct (keep_script (take pos word)) as (Hs1 & Hd1 & Hc1).
  destruct (keep_script (drop (S pos) word)) as (Hs2 & Hd2 & Hc2).
  pose proof (lev_le_cost ((Keep <$> take pos word) ++ [Ins x]
                             ++ (Keep <$> drop (S pos) word))) as Hle.
  rewrite !src_app, !dst_app, !cost_app, Hs1, Hd1, Hc1, Hs2, Hd2, Hc2 in Hle.
  change (src [Ins x]) with (@nil ascii) in Hle. change (dst [Ins x]) with [x] in Hle.
  change (cost [Ins x]) with 1%nat in Hle. cbn [app] in Hle.
  rewrite (take_drop_middle word pos x Hx) in Hle. lia.
Qed.

Lemma random_deletion_distance_witness :
  S (length (random_deletion (s_ "potato") 2)) = length (s_ "potato") ∧
  lev (random_deletion (s_ "potato") 2) (s_ "potato") = 1%nat.
Proof. apply (random_deletion_distance (s_ "potato") 2). simpl. lia. Defined.

(** X25: [random_substitution] slices the literal ["word"], not its
    argument: for a position beyond 4 the result is shorter than the
    word by the excess, and so at a Levenshtein distance of at least the
    excess from it, where a substitution would stay within distance 1. *)
Theorem random_substitution_distance word pos c :
  (pos < length word)%nat →
  (length (random_substitution word pos c) + (pos - 4) = length word)%nat ∧
  (pos - 4 ≤ lev (random_substitution word pos c) word)%nat.
Proof.
  intros Hpos. unfold random_substitution, Py.len.
  rewrite decide_False by lia.
  assert (Hlen : (length (take pos (s_ "word") ++ [c] ++ drop (S pos) word)
                  + (pos - 4) = length word)%nat).
  { rewrite !length_app, length_take, length_drop.
    change (length (s_ "word")) with 4%nat. simpl. lia. }
  split; [done|].
  pose proof (lev_length (take pos (s_ "word") ++ [c] ++ drop (S pos) word) word)
    as [_ Hl]. lia.
Qed.

Lemma random_substitution_distance_witness :
  (length (random_substitution (s_ "extravagant") 9 "x") + (9 - 4)
   = length (s_ "extravagant"))%nat ∧
  (9 - 4 ≤ lev (random_substitution (s_ "extravagant") 9 "x") (s_ "extravagant"))%nat.
Proof.
  apply (random_substitution_distance (s_ "extravagant") 9 "x"). simpl. lia.
Defined.

(** ** Pruning *)

Section pruning.
Context (query : str) (n : Z) (h0 : store) (σ : strategy) (f0 : frame).
Hypothesis Hshape0 : shape h0.
Hypothesis Hσ : lawful σ.
Hypothesis Hstart : search_inv query n h0 [] f0.
Hypothesis Hstack0 : stack f0 = [0%nat].

(** An iteration adds to the pending nodes only children of a node near
    the query. *)
Lemma search_body_pushes done f f' :
  search_inv query n h0 done f → stack f ≠ [] →
  search_body σ query n f = Ok f' →
  ∀ y, y ∈ stack f' →
    y ∈ stack f ∨
    ∃ x nd c, h0 !! x = Some nd ∧ (c, y) ∈ children nd ∧
              near query n (word nd).
Proof.
  intros Hinv Hne Hbody y Hy.
  destruct (take_next_some σ Hσ (stack f) Hne) as (x & rest & Htake & Hperm).
  assert (Hx : x ∈ stack f) by (rewrite Hperm; left).
  destruct (visit_ok query n h0 Hshape0 done f x Hinv Hx)
    as (nd & row & matching' & expand & Hnd & _ & _ & Hvisit & Hexp & _).
  unfold search_body in Hbody.
  rewrite Htake, (inv_visited _ _ _ _ _ Hinv) in Hbody.
  rewrite decide_False in Hbody by apply not_elem_of_empty.
  rewrite Hvisit, bind_Ok in Hbody. unfold deref in Hbody.
  rewrite list_lookup_insert_eq in Hbody by (by eapply lookup_lt_Some).
  rewrite bind_Ok in Hbody. injection Hbody as <-. simpl in Hy.
  destruct expand.
  - rewrite (add_children_perm σ Hσ) in Hy. apply elem_of_app in Hy as [Hy|Hy].
    + left. rewrite Hperm. by right.
    + right. apply list_elem_of_fmap in Hy as ([c y'] & -> & Hin).
      destruct (skel_lookup h0 (heap f) x nd) as (nd0 & Hnd0 & Hsk);
        [symmetry; apply Hinv|done|].
      apply skel_eq in Hsk as (Hw & _ & Hch & _).
      exists x, nd0, c. rewrite Hw, Hch. split_and!; [done..|]. by apply Hexp.
  - left. rewrite Hperm. by right.
Qed.

Lemma search_steps_pruned k : ∀ fk,
  search_steps σ k query n f0 = Ok fk →
  ∀ y, y ∈ stack fk →
    y = 0%nat ∨
    ∃ x nd c, h0 !! x = Some nd ∧ (c, y) ∈ children nd ∧
              near query n (word nd).
Proof.
  induction k as [|k IH]; intros fk Hrun y Hy; simpl in Hrun.
  - injection Hrun as <-. rewrite Hstack0 in Hy.
    apply list_elem_of_singleton in Hy. by left.
  - apply bind_Ok_inv in Hrun as (f1 & Hrun1 & Hbody).
    destruct (search_steps_count query n h0 σ f0 Hshape0 Hσ Hstart k f1 Hrun1)
      as (done & Hinv & _).
    assert (Hne : stack f1 ≠ []).
    { intros Hnil. unfold search_body in Hbody.
      by rewrite Hnil, (take_next_nil σ Hσ) in Hbody. }
    destruct (search_body_pushes done f1 fk Hinv Hne Hbody y Hy) as [Hold|Hnew].
    + by apply (IH f1).
    + by right.
Qed.

End pruning.

(** X26: pruning.  [fuzzySearch] computes the row of a node other than
    the root only below a promising parent: some prefix of the
    normalised query is within [n] of the word of the parent, which is
    what [min(node.dists) <= n] tests. *)
Theorem fuzzySearch_pruned t W query n i fi x nd p :
  built t W →
  fuzzySearch_steps i (preprocess query) n (fuzzySearch_start t) = Ok fi →
  head (stack fi) = Some x → heap fi !! x = Some nd → parent nd = Some p →
  ∃ pn j, nodes t !! p = Some pn ∧ (j ≤ length (preprocess query))%nat ∧
          Z.of_nat (lev (word pn) (take j (preprocess query))) <= n.
Proof.
  intros Hb Hrun Hhead Hnd Hpar. destruct (built_wf t W Hb) as [Hwf _].
  pose proof Hwf as [Hroot Hshape].
  pose proof (search_inv_start (preprocess query) n (nodes t) Hshape t Hwf eq_refl)
    as Hstart.
  rewrite fuzzySearch_steps_lifo in Hrun.
  assert (Hst0 : stack (fuzzySearch_start t) = [0%nat]) by (simpl; by rewrite Hroot).
  assert (Hx : x ∈ stack fi) by (destruct (stack fi); simplify_eq/=; left).
  destruct (search_steps_count _ _ _ lifo _ Hshape lifo_lawful Hstart i fi Hrun)
    as (done & Hinv & _).
  destruct (skel_lookup (nodes t) (heap fi) x nd) as (nd0 & Hnd0 & Hsk);
    [symmetry; apply Hinv|done|].
  apply skel_eq in Hsk as (_ & Hpar0 & _ & _).
  destruct (search_steps_pruned _ _ _ lifo _ Hshape lifo_lawful Hstart Hst0 i fi Hrun x Hx)
    as [->|(q & qn & c & Hq & Hin & j & Hj & Hle)].
  - destruct (shape_root _ Hshape) as (r & Hr & Hrp & _). congruence.
  - destruct (shape_child _ Hshape q qn c x Hq Hin) as (nd1 & Hnd1 & Hpar1 & _).
    assert (q = p) as -> by congruence. by exists qn, j.
Qed.

Lemma fuzzySearch_pruned_witness :
  let fi := frame_after 2 smoke_trie (s_ "olivia") 1 in
  ∃ pn j, nodes smoke_trie !! 10%nat = Some pn ∧
          (j ≤ length (preprocess (s_ "olivia")))%nat ∧
          Z.of_nat (lev (word pn) (take j (preprocess (s_ "olivia")))) <= 1.
Proof.
  intros fi.
  apply (fuzzySearch_pruned smoke_trie (list_to_set (preprocess <$> smoke_words))
           (s_ "olivia") 1 2 fi 11 (node_at (heap fi) 11) 10).
  - apply built_trie_of.
  - vm_compute. reflexivity.
  - vm_compute. reflexivity.
  - vm_compute. reflexivity.
  - vm_compute. reflexivity.
Defined.

(** X27: at the level of the index too the result grows with the bound,
    on the index that [Index(documents)] builds and on the index that any
    earlier searches have left: the documents found for [n] are found for
    [n + 1], by a second call on the index as the first call left it and
    by a call on the index as it was. *)
Theorem Index_fuzzySearch_monotone documents ix query n fuel :
  index_state documents ix → (length (nodes (trie ix)) ≤ fuel)%nat →
  ∃ r1 ix1 r2 ix2 r2' ix2',
    Index_fuzzySearch fuel ix query n = Ok (r1, ix1) ∧
    Index_fuzzySearch fuel ix1 query (n + 1) = Ok (r2, ix2) ∧
    Index_fuzzySearch fuel ix query (n + 1) = Ok (r2', ix2') ∧
    r1 ⊆ r2 ∧ r1 ⊆ r2'.
Proof.
  intros Hix Hfuel.
  destruct (Index_fuzzySearch_docs documents ix query n fuel Hix Hfuel)
    as (r1 & ix1 & Hrun1 & Hix1 & Hlen1 & Hr1).
  destruct (Index_fuzzySearch_docs documents ix1 query (n + 1) fuel Hix1)
    as (r2 & ix2 & Hrun2 & _ & _ & Hr2); [lia|].
  destruct (Index_fuzzySearch_docs documents ix query (n + 1) fuel Hix Hfuel)
    as (r2' & ix2' & Hrun2' & _ & _ & Hr2').
  exists r1, ix1, r2, ix2, r2', ix2'. split_and!; [done..| |].
  - intros d. rewrite Hr1, Hr2. intros (Hd & k & Hk & Hle & Hrest).
    split; [done|]. exists k. split_and!; [done|lia|done].
  - intros d. rewrite Hr1, Hr2'. intros (Hd & k & Hk & Hle & Hrest).
    split; [done|]. exists k. split_and!; [done|lia|done].
Qed.

Lemma Index_fuzzySearch_monotone_witness :
  let ix := index_after 20 (index_of pets) (s_ "mouse") 2 in
  ∃ r1 ix1 r2 ix2 r2' ix2',
    Index_fuzzySearch 20 ix (s_ "cats") 0 = Ok (r1, ix1) ∧
    Index_fuzzySearch 20 ix1 (s_ "cats") (0 + 1) = Ok (r2, ix2) ∧
    Index_fuzzySearch 20 ix (s_ "cats") (0 + 1) = Ok (r2', ix2') ∧
    r1 ⊆ r2 ∧ r1 ⊆ r2'.
Proof.
  intros ix. apply (Index_fuzzySearch_monotone pets ix (s_ "cats") 0 20).
  - apply index_state_after, index_built. by_evaluation.
  - vm_compute. lia.
Defined.
